(** * Vendor Column Restorer: bulk-job pipeline and request throttle

    A shallow embedding of the server-side core of the repository:

    - [RateLimiter]       server/middleware/rate-limit.ts
    - [Schema]            shared/schema.ts (the bulk-job and shop-settings
                          rows)
    - [Storage]           server/storage.ts (the bulk-job operations)
    - [ShopifyService]    server/services/shopify.ts (the write path)
    - [BulkJobProcessor]  server/services/bulk-jobs.ts (the revision that
                          aggregates per-item results, 10 items per batch)
    - [LegacyProcessor]   server/services/bulk-jobs.ts (the earlier revision
                          kept in the repository, 50 items per batch)
    - [Logger]            server/utils/logger.ts
    - [ShopifyCatalog]    server/services/shopify.ts (the read path)
    - [CSVExportService]  server/services/csv-export.ts (quoting and sample
                          data)
    - [Scenario], [Examples]  concrete worlds and jobs used as examples

    JavaScript numbers that hold counts and millisecond timestamps are
    integers in every place modelled here and are embedded as [nat] or [Z];
    the jitter [Math.random() * 500] and the numbers of a request body can
    be fractional and are embedded in [Q]. *)

From Stdlib Require Import ZArith QArith Qround Lia String Ascii.
From Stdlib Require Import DecimalString Sorted.
From stdpp Require Import gmap strings list sorting.

Local Open Scope string_scope.
Local Open Scope Z_scope.

(** ** JavaScript helpers *)

(** [s || d] on strings: the empty string and [undefined] are falsy. *)
Definition or_else (s : option string) (d : option string) : option string :=
  match s with
  | Some x => if String.eqb x "" then d else Some x
  | None => d
  end.

(** [Math.ceil(a / b)] for integers [a] and positive [b]. *)
Definition ceil_div (a b : Z) : Z := - ((- a) / b).

(** A value of a parsed JSON body. A number is a finite one or, for a
    literal beyond the range of doubles, an infinite one. *)
Unset Elimination Schemes.
Inductive Json :=
| JNull
| JBool (b : bool)
| JNumber (q : Q)
| JInfinite (negative : bool)
| JString (s : string)
| JArray (items : list Json)
| JObject (members : list (string * Json)).
Set Elimination Schemes.

(** Truthiness: [null], [false], [0] and the empty string are falsy. *)
Definition truthy (v : Json) : bool :=
  match v with
  | JNull => false
  | JBool b => b
  | JNumber q => negb (Qeq_bool q (inject_Z 0))
  | JInfinite _ => true
  | JString s => negb (String.eqb s "")
  | JArray _ | JObject _ => true
  end.

(** [a || b] on values; [None] is [undefined]. *)
Definition or_value (a b : option Json) : option Json :=
  match a with
  | Some v => if truthy v then a else b
  | None => b
  end.

(** ** server/middleware/rate-limit.ts *)

Module RateLimiter.

Record RateLimitConfig := {
    windowMs : Z;
    maxRequests : Z;
    message : option string;
  }.

Record RequestLog := {
    count : Z;
    resetTime : Z;
  }.

  (** What the middleware does with the response object: either it answers
      429 with a JSON body, or it sets the three rate-limit headers and calls
      [next()]. *)
Inductive Outcome :=
  | Rejected (error : string) (retryAfter : Z)
  | Allowed (limit remaining reset : Z).

  (** The parts of an Express request that [generateKey] reads: the
      [x-shop-domain] header, [req.body?.shopDomain], which is whatever value
      the body holds under that name, [req.ip] and
      [req.connection.remoteAddress]. *)
Record Request := {
    headerShopDomain : option string;
    bodyShopDomain : option Json;
    ip : option string;
    remoteAddress : option string;
  }.

(** The declared result is a string; the value is the first truthy operand,
    whatever its type. *)
Definition generateKey (req : Request) : Json :=
  let shopDomain :=
    or_value (JString <$> headerShopDomain req) (bodyShopDomain req) in
  default (JString "unknown")
    (or_value
       (or_value (or_value shopDomain (JString <$> ip req))
          (JString <$> remoteAddress req))
       (Some (JString "unknown"))).

(** The operands of [generateKey] that are defined, in the order in which
    they are tried. *)
Definition keyCandidates (req : Request) : list Json :=
  omap id [JString <$> headerShopDomain req; bodyShopDomain req;
           JString <$> ip req; JString <$> remoteAddress req].

Section WithConfig.
Variable config : RateLimitConfig.

Definition freshLog (now : Z) : RequestLog :=
  {| count := 0; resetTime := now + windowMs config |}.

(** The log the handler works on: the stored one, or a fresh one that
    replaces it when there is none or its window has elapsed. *)
Definition currentLog (requests : gmap string RequestLog) (key : string)
    (now : Z) : RequestLog :=
  match requests !! key with
  | Some l => if resetTime l <=? now then freshLog now else l
  | None => freshLog now
  end.

(** [this.config.message || 'Too many requests'] *)
Definition rejection : string :=
  default "Too many requests" (or_else (message config) None).

(** What the handler does with the response once the count of [l] has been
    incremented: the 429 body with [retryAfter], or the three headers and
    [next()]. *)
Definition answer (l : RequestLog) (now : Z) : Outcome :=
  if maxRequests config <? count l then
    Rejected rejection (ceil_div (resetTime l - now) 1000)
  else
    Allowed (maxRequests config)
             (Z.max 0 (maxRequests config - count l))
             (ceil_div (resetTime l) 1000).

(** The handler returned by [middleware()], from the key that
    [generateKey] gave it on, for a key that is a string.
    [requestLog.count++] mutates the object held by the map, so the map
    holds the incremented log whatever the answer. *)
Definition check (key : string) (now : Z)
    (requests : gmap string RequestLog)
    : gmap string RequestLog * Outcome :=
  let l := currentLog requests key now in
  let l' := {| count := count l + 1; resetTime := resetTime l |} in
  (<[key := l']> requests, answer l' now).

Definition cleanup (now : Z) (requests : gmap string RequestLog)
    : gmap string RequestLog :=
  filter (λ kv, ¬ (resetTime kv.2 ≤ now)) requests.

(** Successive calls for one key at the given times. *)
Fixpoint checks (key : string) (times : list Z)
    (requests : gmap string RequestLog)
    : gmap string RequestLog * list Outcome :=
  match times with
  | [] => (requests, [])
  | now :: rest =>
      let '(requests', o) := check key now requests in
      let '(requests'', os) := checks key rest requests' in
      (requests'', o :: os)
  end.

Definition isAllowed (o : Outcome) : bool :=
  match o with
  | Allowed _ _ _ => true
  | Rejected _ _ => false
  end.

End WithConfig.

Definition shopifyApiLimiter : RateLimitConfig :=
  {| windowMs := 1000; maxRequests := 2;
     message := Some "Shopify API rate limit exceeded. Please wait before making another request." |}.

Definition generalApiLimiter : RateLimitConfig :=
  {| windowMs := 60 * 1000; maxRequests := 100;
     message := Some "API rate limit exceeded. Please wait before making more requests." |}.

Definition bulkOperationLimiter : RateLimitConfig :=
  {| windowMs := 60 * 1000; maxRequests := 5;
     message := Some "Bulk operation rate limit exceeded. Please wait before starting another bulk operation." |}.

Definition exportLimiter : RateLimitConfig :=
  {| windowMs := 60 * 60 * 1000; maxRequests := 10;
     message := Some "Export rate limit exceeded. Please wait before requesting another export." |}.

End RateLimiter.

(** ** More JavaScript helpers: strings and numbers *)

(** [s.includes(t)] *)
Fixpoint includes (t s : string) : bool :=
  String.prefix t s ||
  match s with
  | EmptyString => false
  | String _ s' => includes t s'
  end.

(** [Some rest] when [s = p ++ rest]. *)
Fixpoint dropPrefix (p s : string) : option string :=
  match p, s with
  | EmptyString, _ => Some s
  | String a p', String b s' =>
      if Ascii.eqb a b then dropPrefix p' s' else None
  | String _ _, EmptyString => None
  end.

Definition isDigit (c : ascii) : bool :=
  (48 <=? nat_of_ascii c)%nat && (nat_of_ascii c <=? 57)%nat.

(** The longest prefix of decimal digits, what a greedy [\d+] or [parseInt]
    consumes. *)
Fixpoint takeDigits (s : string) : string :=
  match s with
  | String c s' => if isDigit c then String c (takeDigits s') else EmptyString
  | EmptyString => EmptyString
  end.

(** The value of a string of decimal digits. *)
Definition digitsValue (d : string) : N :=
  match NilEmpty.uint_of_string d with
  | Some u => N.of_uint u
  | None => 0%N
  end.

(** [`${n}`] for a non-negative integer. *)
Definition showN (n : N) : string := NilEmpty.string_of_uint (N.to_uint n).

(** A JavaScript number that is either an integer or [NaN]. *)
Inductive JsNum :=
| NaN
| Int (z : Z).

(** Truthiness of a number: [0] and [NaN] are falsy. *)
Definition truthyNum (n : JsNum) : bool :=
  match n with
  | NaN => false
  | Int z => negb (z =? 0)
  end.

Definition mulNum (n : JsNum) (k : Z) : JsNum :=
  match n with
  | NaN => NaN
  | Int z => Int (z * k)
  end.

(** White space skipped by [parseInt]; a header value is a byte string, so
    only the one-byte white-space characters can occur. *)
Definition isWhite (c : ascii) : bool :=
  bool_decide (nat_of_ascii c ∈ [9; 10; 11; 12; 13; 32; 160]%nat).

Fixpoint skipWhite (s : string) : string :=
  match s with
  | String c s' => if isWhite c then skipWhite s' else s
  | EmptyString => EmptyString
  end.

(** [parseInt(s, 10)]: the integer that the digits denote. JavaScript holds
    it as a double, which is that integer up to 2^53. *)
Definition parseInt (s : string) : JsNum :=
  let s := skipWhite s in
  let '(negative, s) :=
    match s with
    | String "-" r => (true, r)
    | String "+" r => (false, r)
    | _ => (false, s)
    end in
  match takeDigits s with
  | EmptyString => NaN
  | d => Int (if negative then - Z.of_N (digitsValue d) else Z.of_N (digitsValue d))
  end.

(** The first match of [/Shopify API error: (\d+)/] in [s]: its group 1. *)
Fixpoint matchStatus (s : string) : option string :=
  let here :=
    match dropPrefix "Shopify API error: " s with
    | Some rest =>
        match takeDigits rest with
        | EmptyString => None
        | d => Some d
        end
    | None => None
    end in
  match here with
  | Some d => Some d
  | None =>
      match s with
      | EmptyString => None
      | String _ s' => matchStatus s'
      end
  end.

(** [xs.join(sep)] *)
Fixpoint join (sep : string) (xs : list string) : string :=
  match xs with
  | [] => ""
  | [x] => x
  | x :: rest => x ++ sep ++ join sep rest
  end.

(** [xs.slice(i, j)] for [0 <= i <= j]. *)
Definition slice {A} (i j : nat) (xs : list A) : list A :=
  take (j - i) (drop i xs).

(** [xs.indexOf(x)], the first position of [x]; [None] stands for [-1]. *)
Fixpoint indexOf (x : string) (xs : list string) : option nat :=
  match xs with
  | [] => None
  | y :: rest => if String.eqb x y then Some 0%nat else S <$> indexOf x rest
  end.

(** ** shared/schema.ts *)

Module Schema.

Inductive Status := PENDING | RUNNING | SUCCESS | FAILED.

#[global] Instance Status_eq_dec : EqDecision Status.
Proof. solve_decision. Defined.

(** A row of [bulk_jobs]. Timestamps are milliseconds. *)
Record BulkJob := {
  id : string;
  shopDomain : string;
  productIds : list string;
  targetVendor : string;
  status : Status;
  errorMessage : option string;
  processedCount : nat;
  totalCount : nat;
  createdAt : Z;
  updatedAt : Z;
  completedAt : option Z;
}.

(** [InsertBulkJob]: the row without the generated columns. *)
Record InsertBulkJob := {
  insShopDomain : string;
  insProductIds : list string;
  insTargetVendor : string;
  insStatus : option Status;
  insTotalCount : nat;
}.

(** The columns of [Partial<BulkJob>] that the processor writes. [None] is
    an absent key; [Some None] writes [null]. *)
Record BulkJobUpdates := {
  setStatus : option Status;
  setProcessedCount : option nat;
  setErrorMessage : option (option string);
  setCompletedAt : option (option Z);
}.

Definition noUpdates : BulkJobUpdates :=
  {| setStatus := None; setProcessedCount := None;
     setErrorMessage := None; setCompletedAt := None |}.

(** The column of [shop_settings] read by the processor. *)
Record ShopSettings := {
  accessToken : option string;
}.

End Schema.

(** ** The remote service as seen through [fetch] *)

Module Remote.

Record UserError := {
  field : string;
  message : string;
}.

(** [ShopifyProductUpdateResponse]; [productUpdate] is [None] when the
    payload lacks it, which the unchecked cast [data.data as T] lets
    through. *)
Record ShopifyProductUpdateResponse := {
  productUpdate : option (list UserError);
}.

Inductive Body :=
| BodyUnreadable (message : string)      (* [response.json()] rejects *)
| BodyErrors (errorsJson : string)       (* [data.errors], already stringified *)
| BodyData (data : ShopifyProductUpdateResponse).

Record Response := {
  status : N;
  statusText : string;
  retryAfterHeader : option string;
  body : Body;
}.

(** [response.ok] *)
Definition ok (r : Response) : bool :=
  (200 <=? status r)%N && (status r <=? 299)%N.

Inductive FetchOutcome :=
| FetchRejects (message : string)        (* network failure *)
| FetchResolves (response : Response).

End Remote.

(** ** The process and its environment *)

(** A thrown [Error]; [retryAfter] is the property attached with
    [(error as any).retryAfter]. *)
Record JsError := {
  errMessage : string;
  retryAfter : option JsNum;
}.

Definition mkError (msg : string) : JsError :=
  {| errMessage := msg; retryAfter := None |}.

(** The result of awaiting a promise. *)
Inductive Outcome (A : Type) :=
| Resolved (a : A)
| Thrown (e : JsError).
Arguments Resolved {A} a.
Arguments Thrown {A} e.

Inductive Level := ERROR | WARN | INFO | DEBUG.

Inductive Meta :=
| MNat (n : nat)
| MStr (s : string)
| MBool (b : bool)
| MList (l : list string).

(** What the process does to the outside, in order. *)
Inductive Event :=
| Fetch (productId vendor : string)                  (* a request is dispatched *)
| Sleep (ms : Q)                                     (* [setTimeout] awaited *)
| Throttle (key : string) (allowed : bool)          (* a limiter is consulted *)
| Update (jobId : string) (updates : Schema.BulkJobUpdates)   (* a job row is written *)
| Log (level : Level) (message : string) (metadata : list (string * Meta)).

(** The state of the single server process together with the behaviour of
    what surrounds it: [remote n productId vendor] is the answer to the
    [n]-th [fetch], [random n] the [n]-th value of [Math.random()]. The store
    is an in-memory table that never fails. *)
Record World := {
  bulkJobs : gmap string Schema.BulkJob;
  shopSettings : gmap string Schema.ShopSettings;
  processingJobs : gset string;
  scheduled : list string;
  limiter : gmap string RateLimiter.RequestLog;
  clock : Z;
  fetches : nat;
  randoms : nat;
  events : list Event;
  remote : nat → string → string → Remote.FetchOutcome;
  random : nat → Q;
}.

(** Computations of the process. *)
Definition M (A : Type) : Type := World → A * World.

#[global] Instance M_ret : MRet M := λ A a w, (a, w).
#[global] Instance M_bind : MBind M :=
  λ A B f m w, let '(a, w') := m w in f a w'.

(** Field updates. *)
Definition withBulkJobs (x : gmap string Schema.BulkJob) (w : World) : World :=
  {| bulkJobs := x; shopSettings := shopSettings w;
     processingJobs := processingJobs w; scheduled := scheduled w;
     limiter := limiter w; clock := clock w; fetches := fetches w;
     randoms := randoms w; events := events w; remote := remote w;
     random := random w |}.

Definition withProcessingJobs (x : gset string) (w : World) : World :=
  {| bulkJobs := bulkJobs w; shopSettings := shopSettings w;
     processingJobs := x; scheduled := scheduled w; limiter := limiter w;
     clock := clock w; fetches := fetches w; randoms := randoms w;
     events := events w; remote := remote w; random := random w |}.

Definition withScheduled (x : list string) (w : World) : World :=
  {| bulkJobs := bulkJobs w; shopSettings := shopSettings w;
     processingJobs := processingJobs w; scheduled := x;
     limiter := limiter w; clock := clock w; fetches := fetches w;
     randoms := randoms w; events := events w; remote := remote w;
     random := random w |}.


Definition withClock (x : Z) (w : World) : World :=
  {| bulkJobs := bulkJobs w; shopSettings := shopSettings w;
     processingJobs := processingJobs w; scheduled := scheduled w;
     limiter := limiter w; clock := x; fetches := fetches w;
     randoms := randoms w; events := events w; remote := remote w;
     random := random w |}.

Definition withFetches (x : nat) (w : World) : World :=
  {| bulkJobs := bulkJobs w; shopSettings := shopSettings w;
     processingJobs := processingJobs w; scheduled := scheduled w;
     limiter := limiter w; clock := clock w; fetches := x;
     randoms := randoms w; events := events w; remote := remote w;
     random := random w |}.

Definition withRandoms (x : nat) (w : World) : World :=
  {| bulkJobs := bulkJobs w; shopSettings := shopSettings w;
     processingJobs := processingJobs w; scheduled := scheduled w;
     limiter := limiter w; clock := clock w; fetches := fetches w;
     randoms := x; events := events w; remote := remote w;
     random := random w |}.

Definition withEvents (x : list Event) (w : World) : World :=
  {| bulkJobs := bulkJobs w; shopSettings := shopSettings w;
     processingJobs := processingJobs w; scheduled := scheduled w;
     limiter := limiter w; clock := clock w; fetches := fetches w;
     randoms := randoms w; events := x; remote := remote w;
     random := random w |}.

Definition emit (e : Event) : M unit := λ w,
  (tt, withEvents (events w ++ [e]) w).

Definition logger (level : Level) (message : string)
    (metadata : list (string * Meta)) : M unit :=
  emit (Log level message metadata).

(** [Date.now()] *)
Definition dateNow : M Z := λ w, (clock w, w).

(** The delay that [setTimeout] of Node.js works with: the one it is given
    when that is between 1 and 2^31 - 1, and 1 otherwise. *)
Definition timeoutOf (ms : Q) : Q :=
  if Qle_bool (inject_Z 1) ms && Qle_bool ms (inject_Z 2147483647)
  then ms else inject_Z 1.

(** [await new Promise(resolve => setTimeout(resolve, ms))]: the timer fires
    when the delay has passed, in whole milliseconds. *)
Definition sleep (ms : Q) : M unit := λ w,
  (tt, withClock (clock w + Qceiling (timeoutOf ms))
         (withEvents (events w ++ [Sleep ms]) w)).

(** [Math.random()] *)
Definition mathRandom : M Q := λ w,
  (random w (randoms w), withRandoms (S (randoms w)) w).

(** [await fetch(...)] of the product-update mutation. *)
Definition fetch (productId vendor : string) : M Remote.FetchOutcome := λ w,
  (remote w (fetches w) productId vendor,
   withFetches (S (fetches w))
     (withEvents (events w ++ [Fetch productId vendor]) w)).

(** *** Observing events and worlds *)

Definition isLog (e : Event) : bool :=
  match e with
  | Log _ _ _ => true
  | _ => false
  end.

(** The events other than log lines. *)
Definition timeline (es : list Event) : list Event :=
  List.filter (λ e, negb (isLog e)) es.

Definition isUpdate (e : Event) : bool :=
  match e with
  | Update _ _ => true
  | _ => false
  end.

(** The processed counts written to the row of [jobId], oldest first. *)
Definition writtenCounts (jobId : string) (es : list Event) : list nat :=
  omap (λ e, match e with
             | Update j u =>
                 if String.eqb j jobId then Schema.setProcessedCount u else None
             | _ => None
             end) es.

(** The statuses written to the row of [jobId], oldest first. *)
Definition writtenStatuses (jobId : string) (es : list Event)
    : list Schema.Status :=
  omap (λ e, match e with
             | Update j u =>
                 if String.eqb j jobId then Schema.setStatus u else None
             | _ => None
             end) es.

(** The events of a call to the remote service: dispatches, awaited
    delays and log lines. *)
Definition isCall (e : Event) : bool :=
  match e with
  | Fetch _ _ | Sleep _ | Log _ _ _ => true
  | _ => false
  end.




(** [w'] differs from [w] at most in the clock, in how far the answers of
    the environment have been consumed, and in the events. *)
Definition sameProcess (w w' : World) : Prop :=
  bulkJobs w' = bulkJobs w ∧ shopSettings w' = shopSettings w ∧
  processingJobs w' = processingJobs w ∧ scheduled w' = scheduled w ∧
  limiter w' = limiter w ∧ remote w' = remote w ∧ random w' = random w.

(** [j'] is [j] but for its processed count and its time of update. *)
Definition progressed (j j' : Schema.BulkJob) : Prop :=
  Schema.id j' = Schema.id j ∧
  Schema.shopDomain j' = Schema.shopDomain j ∧
  Schema.productIds j' = Schema.productIds j ∧
  Schema.targetVendor j' = Schema.targetVendor j ∧
  Schema.status j' = Schema.status j ∧
  Schema.errorMessage j' = Schema.errorMessage j ∧
  Schema.totalCount j' = Schema.totalCount j ∧
  Schema.createdAt j' = Schema.createdAt j ∧
  Schema.completedAt j' = Schema.completedAt j.

(** [w'] has the settings, guard, suspended routines, limiter windows and
    environment of [w]. *)
Definition sameSetting (w w' : World) : Prop :=
  shopSettings w' = shopSettings w ∧
  processingJobs w' = processingJobs w ∧ scheduled w' = scheduled w ∧
  limiter w' = limiter w ∧ remote w' = remote w ∧ random w' = random w.

(** A computation that only appends events of a call and keeps the
    process. *)
Definition callOnly {A} (m : M A) : Prop :=
  ∀ w, sameProcess w (m w).2 ∧
       ∃ new, events (m w).2 = (events w ++ new)%list ∧
              Forall (λ e, isCall e = true) new.

(** ** server/storage.ts, the job and settings tables *)

Module Storage.
Import Schema.

(** The row that [createBulkJob] inserts: [jobData] as the method builds it,
    and the defaults of the table for the other columns. *)
Definition newRow (newId : string) (job : InsertBulkJob) (now : Z) : BulkJob :=
  {| id := newId;
     shopDomain := insShopDomain job;
     productIds := insProductIds job;
     targetVendor := insTargetVendor job;
     status := default PENDING (insStatus job);
     errorMessage := None;
     processedCount := 0;
     totalCount := length (insProductIds job);
     createdAt := now;
     updatedAt := now;
     completedAt := None |}.

(** [createBulkJob]; [newId] is the identifier the database generates. *)
Definition createBulkJob (newId : string) (job : InsertBulkJob) : M BulkJob :=
  λ w,
  let row := newRow newId job (clock w) in
  (row, withBulkJobs (<[newId := row]> (bulkJobs w)) w).

Definition getBulkJob (jobId : string) : M (option BulkJob) :=
  λ w, (bulkJobs w !! jobId, w).

(** [{ ...updates, updatedAt: new Date() }] applied to a row, for updates
    of the columns that the processor writes. *)
Definition applyUpdates (updates : BulkJobUpdates) (now : Z) (job : BulkJob)
    : BulkJob :=
  {| id := id job;
     shopDomain := shopDomain job;
     productIds := productIds job;
     targetVendor := targetVendor job;
     status := default (status job) (setStatus updates);
     errorMessage := default (errorMessage job) (setErrorMessage updates);
     processedCount := default (processedCount job) (setProcessedCount updates);
     totalCount := totalCount job;
     createdAt := createdAt job;
     updatedAt := now;
     completedAt := default (completedAt job) (setCompletedAt updates) |}.

(** [updateBulkJob]: the updated row, or [undefined] when no row has this id. *)
Definition updateBulkJob (jobId : string) (updates : BulkJobUpdates)
    : M (option BulkJob) :=
  λ w,
  let w := withEvents (events w ++ [Update jobId updates]) w in
  match bulkJobs w !! jobId with
  | Some job =>
      let job' := applyUpdates updates (clock w) job in
      (Some job', withBulkJobs (<[jobId := job']> (bulkJobs w)) w)
  | None => (None, w)
  end.

Definition getShopSettings (domain : string) : M (option ShopSettings) :=
  λ w, (shopSettings w !! domain, w).

End Storage.

(** ** server/services/shopify.ts *)

Module ShopifyService.
Import Remote.

Record BulkUpdateResult := {
  successCount : nat;
  failureCount : nat;
  errors : list (string * string);               (* productId, error *)
  userErrors : list (string * string * string);  (* productId, field, message *)
}.

(** The error thrown for a response that is not [ok]; a 429 with a
    [Retry-After] header carries the header's seconds as milliseconds. *)
Definition httpError (response : Response) : JsError :=
  {| errMessage :=
       "Shopify API error: " ++ showN (status response) ++ " "
         ++ statusText response;
     retryAfter :=
       match or_else (retryAfterHeader response) None with
       | Some h =>
           if (status response =? 429)%N
           then Some (mulNum (parseInt h) 1000)
           else None
       | None => None
       end |}.

(** [makeGraphQLRequest]. The inner [throw]s pass through the outer [catch],
    which logs and rethrows. The call-limit header only feeds a log line and
    is left out. *)
Definition makeGraphQLRequest (productId vendor : string)
    : M (Outcome ShopifyProductUpdateResponse) :=
  o ← fetch productId vendor;
  match o with
  | FetchRejects msg =>
      _ ← logger ERROR "Shopify API request failed" [("error", MStr msg)];
      mret (Thrown (mkError msg))
  | FetchResolves response =>
      if negb (ok response) then
        _ ← logger ERROR "Shopify API error"
              [("status", MNat (N.to_nat (status response)))];
        let error := httpError response in
        _ ← logger ERROR "Shopify API request failed"
              [("error", MStr (errMessage error))];
        mret (Thrown error)
      else
        match body response with
        | BodyUnreadable msg =>
            _ ← logger ERROR "Shopify API request failed" [("error", MStr msg)];
            mret (Thrown (mkError msg))
        | BodyErrors errorsJson =>
            _ ← logger ERROR "Shopify GraphQL errors" [("errors", MStr errorsJson)];
            let error := mkError ("GraphQL errors: " ++ errorsJson) in
            _ ← logger ERROR "Shopify API request failed"
                  [("error", MStr (errMessage error))];
            mret (Thrown error)
        | BodyData data =>
            _ ← logger INFO "Shopify API success" [("endpoint", MStr "graphql")];
            mret (Resolved data)
        end
  end.

(** What the promise of [makeGraphQLRequest] settles to, as a function of
    the answer to its [fetch]. *)
Definition settle (o : FetchOutcome) : Outcome ShopifyProductUpdateResponse :=
  match o with
  | FetchRejects msg => Thrown (mkError msg)
  | FetchResolves response =>
      if negb (ok response) then Thrown (httpError response)
      else
        match body response with
        | BodyUnreadable msg => Thrown (mkError msg)
        | BodyErrors errorsJson => Thrown (mkError ("GraphQL errors: " ++ errorsJson))
        | BodyData data => Resolved data
        end
  end.

(** The test guarding [throw error; // Don't retry 4xx except 429]. *)
Definition nonRetryable (error : JsError) : bool :=
  includes "Shopify API error:" (errMessage error) &&
  match matchStatus (errMessage error) with
  | Some digits =>
      let status := digitsValue digits in
      (400 <=? status)%N && (status <? 500)%N && negb (status =? 429)%N
  | None => false
  end.

(** [retryAfter && typeof retryAfter === 'number'], and the number then
    used: an absent property, [NaN] and [0] all fail the test. *)
Definition advertisedDelay (error : JsError) : option Z :=
  match retryAfter error with
  | Some (Int z) => if truthyNum (Int z) then Some z else None
  | Some NaN => None
  | None => None
  end.

(** [Math.pow(2, attempt - 1) * 1000] *)
Definition baseDelay (attempt : nat) : Z := 2 ^ Z.of_nat (attempt - 1) * 1000.

(** The delay chosen after a failed attempt, given the next value of
    [Math.random()]. *)
Definition delayOf (attempt : nat) (error : JsError) (rnd : Q) : Q :=
  match advertisedDelay error with
  | Some z => inject_Z z
  | None => (inject_Z (baseDelay attempt) + rnd * 500)%Q
  end.

(** The delay before the next attempt, with its log line. *)
Definition retryDelay (attempt maxRetries : nat) (error : JsError) : M Q :=
  match advertisedDelay error with
  | Some z =>
      _ ← logger WARN
            "Shopify API request failed (rate limited), using Retry-After delay"
            [("attempt", MNat attempt); ("maxRetries", MNat maxRetries);
             ("error", MStr (errMessage error))];
      mret (inject_Z z)
  | None =>
      r ← mathRandom;
      let jitter := (r * 500)%Q in
      _ ← logger WARN
            "Shopify API request failed, retrying with exponential backoff"
            [("attempt", MNat attempt); ("maxRetries", MNat maxRetries);
             ("error", MStr (errMessage error))];
      mret (inject_Z (baseDelay attempt) + jitter)%Q
  end.

(** The loop of [makeGraphQLRequestWithRetry] from [attempt] on, with
    [remaining] iterations left before [attempt] exceeds [maxRetries]. When
    the loop ends without returning, [lastError || new Error(...)] is thrown. *)
Fixpoint retryLoop (maxRetries remaining attempt : nat)
    (lastError : option JsError) (productId vendor : string)
    : M (Outcome ShopifyProductUpdateResponse) :=
  match remaining with
  | O => mret (Thrown (default (mkError "All retry attempts failed") lastError))
  | S remaining' =>
      r ← makeGraphQLRequest productId vendor;
      match r with
      | Resolved data => mret (Resolved data)
      | Thrown error =>
          if nonRetryable error then mret (Thrown error)
          else if (attempt =? maxRetries)%nat then mret (Thrown error)
          else
            delay ← retryDelay attempt maxRetries error;
            _ ← sleep delay;
            retryLoop maxRetries remaining' (S attempt) (Some error)
              productId vendor
      end
  end.

Definition makeGraphQLRequestWithRetry (productId vendor : string)
    (maxRetries : nat) : M (Outcome ShopifyProductUpdateResponse) :=
  retryLoop maxRetries maxRetries 1 None productId vendor.

Definition updateProductVendor (productId vendor : string)
    : M (Outcome ShopifyProductUpdateResponse) :=
  makeGraphQLRequestWithRetry productId vendor 3.

Definition emptyResult : BulkUpdateResult :=
  {| successCount := 0; failureCount := 0; errors := []; userErrors := [] |}.

(** The [catch] of the per-product [try]. *)
Definition recordFailure (productId message : string)
    (result : BulkUpdateResult) : M BulkUpdateResult :=
  _ ← logger ERROR "Product update failed"
        [("productId", MStr productId); ("error", MStr message)];
  mret {| successCount := successCount result;
          failureCount := S (failureCount result);
          errors := errors result ++ [(productId, message)];
          userErrors := userErrors result |}.

(** One iteration of the [for ... of] loop of [bulkUpdateVendor]. *)
Definition updateOne (productIds : list string) (vendor : string)
    (result : BulkUpdateResult) (productId : string) : M BulkUpdateResult :=
  r ← updateProductVendor productId vendor;
  match r with
  | Thrown error => recordFailure productId (errMessage error) result
  | Resolved response =>
      match productUpdate response with
      | None =>
          recordFailure productId
            "Cannot read properties of undefined (reading 'userErrors')" result
      | Some ues =>
          result' ←
            (if (0 <? length ues)%nat then
               _ ← logger WARN "Product update had user errors"
                     [("productId", MStr productId)];
               mret {| successCount := successCount result;
                       failureCount := S (failureCount result);
                       errors := errors result;
                       userErrors :=
                         userErrors result ++
                         map (λ ue, (productId, field ue, message ue)) ues |}
             else
               _ ← logger DEBUG "Product vendor updated successfully"
                     [("productId", MStr productId); ("vendor", MStr vendor)];
               mret {| successCount := S (successCount result);
                       failureCount := failureCount result;
                       errors := errors result;
                       userErrors := userErrors result |});
          _ ← (if match indexOf productId productIds with
                  | Some i => (i <? length productIds - 1)%nat
                  | None => true
                  end
               then sleep 250
               else mret tt);
          mret result'
      end
  end.

Fixpoint updateEach (productIds : list string) (vendor : string)
    (todo : list string) (result : BulkUpdateResult) : M BulkUpdateResult :=
  match todo with
  | [] => mret result
  | productId :: rest =>
      result' ← updateOne productIds vendor result productId;
      updateEach productIds vendor rest result'
  end.

Definition bulkUpdateVendor (productIds : list string) (vendor : string)
    : M (Outcome BulkUpdateResult) :=
  result ← updateEach productIds vendor productIds emptyResult;
  _ ← logger INFO "Bulk vendor update completed"
        [("totalProducts", MNat (length productIds));
         ("successCount", MNat (successCount result));
         ("failureCount", MNat (failureCount result));
         ("vendor", MStr vendor)];
  mret (Resolved result).

(** The result after a product whose update came back with the user
    errors [ues]. *)
Definition tally (productId : string) (ues : list UserError)
    (result : BulkUpdateResult) : BulkUpdateResult :=
  if (0 <? length ues)%nat then
    {| successCount := successCount result;
       failureCount := S (failureCount result);
       errors := errors result;
       userErrors :=
         userErrors result ++ map (λ ue, (productId, field ue, message ue)) ues |}
  else
    {| successCount := S (successCount result);
       failureCount := failureCount result;
       errors := errors result;
       userErrors := userErrors result |}.

(** [tally] over the products [todo], the [k]-th of which came back with
    [answers k]. *)
Fixpoint tallyEach (todo : list string) (answers : nat → list UserError)
    (k : nat) (result : BulkUpdateResult) : BulkUpdateResult :=
  match todo with
  | [] => result
  | productId :: rest =>
      tallyEach rest answers (S k) (tally productId (answers k) result)
  end.

(** The one method of the service that the job processor calls. *)
Definition Service : Type :=
  list string → string → M (Outcome BulkUpdateResult).

(** What the processor relies on in a service: a call touches neither the
    tables nor the guard, and writes no job row. *)
Definition callsOnly (service : Service) : Prop :=
  ∀ productIds vendor w,
    sameProcess w (service productIds vendor w).2 ∧
    ∃ new, events (service productIds vendor w).2 = (events w ++ new)%list ∧
           Forall (λ e, isUpdate e = false) new.

(** [createShopifyService]; the domain and token select the shop whose
    answers [remote] gives. *)
Definition createShopifyService (shopDomain accessToken : string) : Service :=
  bulkUpdateVendor.

End ShopifyService.

(** ** server/services/bulk-jobs.ts, the revision aggregating results *)

Module BulkJobProcessor.
Import Schema.

(** The [let] variables of the batch loop. *)
Record Progress := {
  processedCount : nat;
  successCount : nat;
  failureCount : nat;
  allErrors : list string;
}.

Definition batchSize : nat := 10.

Definition showNat (n : nat) : string := showN (N.of_nat n).

(** [Math.floor(i / batchSize) + 1] *)
Definition batchNumber (i : nat) : nat := i / batchSize + 1.

Definition userErrorLine (ue : string * string * string) : string :=
  let '(productId, field, message) := ue in
  "Product " ++ productId ++ ": " ++ message ++ " (field: " ++ field ++ ")".

Definition apiErrorLine (e : string * string) : string :=
  let '(productId, error) := e in
  "Product " ++ productId ++ ": " ++ error.

Section WithService.
(** The processor against any service factory: the awaited call may resolve
    with a result or reject. *)
Variable createShopifyService : string → string → ShopifyService.Service.

(** [{ processedCount }], the update that reports progress. *)
Definition progressUpdate (n : nat) : BulkJobUpdates :=
  {| setStatus := None; setProcessedCount := Some n;
     setErrorMessage := None; setCompletedAt := None |}.

(** The body of the [for] loop for the batch starting at [i]. *)
Definition processBatch (jobId : string) (job : BulkJob)
    (service : ShopifyService.Service) (i : nat) (p : Progress) : M Progress :=
  let batch := slice i (i + batchSize) (productIds job) in
  r ← service batch (targetVendor job);
  match r with
  | Resolved result =>
      let successCount' := (successCount p + ShopifyService.successCount result)%nat in
      let failureCount' := (failureCount p + ShopifyService.failureCount result)%nat in
      let processedCount' := (processedCount p + length batch)%nat in
      _ ← logger INFO "Batch processing completed"
            [("jobId", MStr jobId);
             ("batchNumber", MNat (batchNumber i));
             ("batchSize", MNat (length batch));
             ("successCount", MNat (ShopifyService.successCount result));
             ("failureCount", MNat (ShopifyService.failureCount result));
             ("totalSuccessCount", MNat successCount');
             ("totalFailureCount", MNat failureCount')];
      errors1 ←
        (if (0 <? length (ShopifyService.userErrors result))%nat then
           _ ← logger WARN "Batch update had user errors"
                 [("jobId", MStr jobId); ("batchNumber", MNat (batchNumber i))];
           mret (allErrors p ++ map userErrorLine (ShopifyService.userErrors result))%list
         else mret (allErrors p));
      errors2 ←
        (if (0 <? length (ShopifyService.errors result))%nat then
           _ ← logger WARN "Batch update had API errors"
                 [("jobId", MStr jobId); ("batchNumber", MNat (batchNumber i))];
           mret (errors1 ++ map apiErrorLine (ShopifyService.errors result))%list
         else mret errors1);
      _ ← Storage.updateBulkJob jobId (progressUpdate processedCount');
      mret {| processedCount := processedCount'; successCount := successCount';
              failureCount := failureCount'; allErrors := errors2 |}
  | Thrown error =>
      _ ← logger ERROR "Batch processing completely failed"
            [("jobId", MStr jobId);
             ("batchNumber", MNat (batchNumber i));
             ("batchSize", MNat (length batch));
             ("error", MStr (errMessage error))];
      mret {| processedCount := (processedCount p + length batch)%nat;
              successCount := successCount p;
              failureCount := (failureCount p + length batch)%nat;
              allErrors :=
                (allErrors p ++
                 [("Batch " ++ showNat (batchNumber i) ++ ": "
                     ++ errMessage error)%string])%list |}
  end.

(** [for (let i = ...; i < job.productIds.length; i += batchSize)], unrolled
    at most [fuel] times; [length (productIds job)] times are enough, since
    every iteration moves [i] forward. *)
Fixpoint batchLoop (fuel : nat) (jobId : string) (job : BulkJob)
    (service : ShopifyService.Service) (i : nat) (p : Progress) : M Progress :=
  match fuel with
  | O => mret p
  | S fuel' =>
      if (i <? length (productIds job))%nat then
        p' ← processBatch jobId job service i p;
        batchLoop fuel' jobId job service (i + batchSize) p'
      else mret p
  end.

(** The error digest written when the loop has ended. *)
Definition errorDigest (p : Progress) : option string :=
  if (0 <? length (allErrors p))%nat then
    Some (showNat (failureCount p) ++ " products failed. Errors: "
          ++ join "; " (slice 0 5 (allErrors p))
          ++ (if (5 <? length (allErrors p))%nat then "..." else ""))
  else None.

Definition finalStatus (p : Progress) : Status :=
  if (failureCount p =? 0)%nat then SUCCESS else FAILED.

(** The update that ends a completed loop. *)
Definition completion (p : Progress) (now : Z) : BulkJobUpdates :=
  {| setStatus := Some (finalStatus p);
     setProcessedCount := Some (processedCount p);
     setErrorMessage := Some (errorDigest p);
     setCompletedAt := Some (Some now) |}.

(** From "Determine final job status" to the end of the [try] block. *)
Definition completeJob (jobId : string) (job : BulkJob) (p : Progress)
    : M unit :=
  now ← dateNow;
  _ ← Storage.updateBulkJob jobId (completion p now);
  _ ← logger INFO "Job processing completed"
        [("jobId", MStr jobId);
         ("totalCount", MNat (totalCount job));
         ("processedCount", MNat (processedCount p));
         ("successCount", MNat (successCount p));
         ("failureCount", MNat (failureCount p));
         ("hasErrors", MBool (0 <? length (allErrors p))%nat)];
  if (0 <? failureCount p)%nat then
    logger WARN "Job completed with failures"
      [("jobId", MStr jobId);
       ("errorSummary", MList (slice 0 10 (allErrors p)))]
  else mret tt.

(** The outer [catch]. *)
Definition failJob (jobId message : string) : M unit :=
  _ ← logger ERROR "Job processing failed"
        [("jobId", MStr jobId); ("error", MStr message)];
  now ← dateNow;
  _ ← Storage.updateBulkJob jobId
        {| setStatus := Some FAILED; setProcessedCount := None;
           setErrorMessage := Some (Some message);
           setCompletedAt := Some (Some now) |};
  mret tt.

Definition initialProgress : Progress :=
  {| processedCount := 0; successCount := 0; failureCount := 0;
     allErrors := [] |}.

(** [this.processingJobs.delete(jobId)] *)
Definition releaseGuard (jobId : string) : M unit :=
  λ w, (tt, withProcessingJobs (processingJobs w ∖ {[jobId]}) w).

(** [{ status: 'RUNNING' }] *)
Definition runningUpdate : BulkJobUpdates :=
  {| setStatus := Some RUNNING; setProcessedCount := None;
     setErrorMessage := None; setCompletedAt := None |}.

(** The start of the [try] block: the first log line and the update to
    [RUNNING]. *)
Definition markRunning (jobId : string) (job : BulkJob) : M unit :=
  _ ← logger INFO "Starting job processing"
        [("jobId", MStr jobId);
         ("shopDomain", MStr (shopDomain job));
         ("productCount", MNat (length (productIds job)));
         ("targetVendor", MStr (targetVendor job))];
  _ ← Storage.updateBulkJob jobId runningUpdate;
  mret tt.

(** The [try] block once the job has been read, with the outer [catch]
    where the token is missing. *)
Definition tryBlock (jobId : string) (job : BulkJob) : M unit :=
  _ ← markRunning jobId job;
  settings ← Storage.getShopSettings (shopDomain job);
  match or_else (settings ≫= accessToken) None with
  | None => failJob jobId "Shop access token not found"
  | Some token =>
      let service := createShopifyService (shopDomain job) token in
      p ← batchLoop (length (productIds job)) jobId job service 0
            initialProgress;
      completeJob jobId job p
  end.

(** [processJob] after its first [await]: the [try], [catch] and [finally]
    blocks, run without interruption. *)
Definition processJobBody (jobId : string) : M unit :=
  found ← Storage.getBulkJob jobId;
  _ ← match found with
      | None => failJob jobId "Job not found"
      | Some job => tryBlock jobId job
      end;
  releaseGuard jobId.

(** [processJob] up to its first [await]: the guard is tested and taken, and
    the rest of the routine is left to the event loop. *)
Definition processJob (jobId : string) : M unit :=
  λ w,
  if decide (jobId ∈ processingJobs w) then
    logger WARN "Job already being processed" [("jobId", MStr jobId)] w
  else
    (tt, withScheduled (scheduled w ++ [jobId])
           (withProcessingJobs ({[jobId]} ∪ processingJobs w) w)).

(** The event loop resumes the oldest suspended [processJob], which is run
    to its end here. That is the course of the code while one routine is in
    flight; two routines in flight at once would take turns at every
    [await]. *)
Definition runScheduled : M unit :=
  λ w,
  match scheduled w with
  | [] => (tt, w)
  | jobId :: rest => processJobBody jobId (withScheduled rest w)
  end.

Definition createJob (newId : string) (jobData : InsertBulkJob) : M BulkJob :=
  job ← Storage.createBulkJob newId jobData;
  _ ← processJob (id job);
  mret job.

Definition retryJob (jobId : string) : M (Outcome (option BulkJob)) :=
  found ← Storage.getBulkJob jobId;
  match found with
  | None => mret (Thrown (mkError "Job not found"))
  | Some job =>
      if decide (status job = RUNNING) then
        mret (Thrown (mkError "Job is currently running"))
      else
        updatedJob ← Storage.updateBulkJob jobId
          {| setStatus := Some PENDING; setProcessedCount := Some 0%nat;
             setErrorMessage := Some None; setCompletedAt := Some None |};
        _ ← processJob jobId;
        mret (Resolved updatedJob)
  end.

Definition cancelJob (jobId : string) : M (Outcome (option BulkJob)) :=
  found ← Storage.getBulkJob jobId;
  match found with
  | None => mret (Thrown (mkError "Job not found"))
  | Some job =>
      if decide (status job ≠ RUNNING ∧ status job ≠ PENDING) then
        mret (Thrown (mkError "Job cannot be cancelled in current status"))
      else
        _ ← releaseGuard jobId;
        now ← dateNow;
        updated ← Storage.updateBulkJob jobId
          {| setStatus := Some FAILED; setProcessedCount := None;
             setErrorMessage := Some (Some "Job cancelled by user");
             setCompletedAt := Some (Some now) |};
        mret (Resolved updated)
  end.

(** *** Reading a run

    Functions used to state what a run of the routine does: the loop
    variables and the batches as functions of what the service calls settled
    to. *)

(** The loop variables after the batch starting at [i], as a function of
    what the awaited call settled to. *)
Definition advance (i : nat) (batch : list string)
    (r : Outcome ShopifyService.BulkUpdateResult) (p : Progress) : Progress :=
  match r with
  | Resolved result =>
      {| processedCount := (processedCount p + length batch)%nat;
         successCount := (successCount p + ShopifyService.successCount result)%nat;
         failureCount := (failureCount p + ShopifyService.failureCount result)%nat;
         allErrors :=
           (allErrors p
              ++ map userErrorLine (ShopifyService.userErrors result)
              ++ map apiErrorLine (ShopifyService.errors result))%list |}
  | Thrown error =>
      {| processedCount := (processedCount p + length batch)%nat;
         successCount := successCount p;
         failureCount := (failureCount p + length batch)%nat;
         allErrors :=
           (allErrors p ++
            [("Batch " ++ showNat (batchNumber i) ++ ": "
                ++ errMessage error)%string])%list |}
  end.

(** [advance] over the batches from [i] on, given what each call settled
    to. *)
Fixpoint replay (productIds : list string) (i : nat)
    (rs : list (Outcome ShopifyService.BulkUpdateResult)) (p : Progress)
    : Progress :=
  match rs with
  | [] => p
  | r :: rest =>
      replay productIds (i + batchSize) rest
        (advance i (slice i (i + batchSize) productIds) r p)
  end.

(** What a batch adds to the failure count: the failures the service
    reports, or the whole batch when the call rejects. *)
Definition failuresOf (batch : list string)
    (r : Outcome ShopifyService.BulkUpdateResult) : nat :=
  match r with
  | Resolved result => ShopifyService.failureCount result
  | Thrown _ => length batch
  end.

Definition successesOf (r : Outcome ShopifyService.BulkUpdateResult) : nat :=
  match r with
  | Resolved result => ShopifyService.successCount result
  | Thrown _ => 0
  end.

(** The batches of a product list from [i] on, at most [fuel] of them. *)
Fixpoint batchesFrom (fuel : nat) (productIds : list string) (i : nat)
    : list (list string) :=
  match fuel with
  | O => []
  | S fuel' =>
      if (i <? length productIds)%nat then
        slice i (i + batchSize) productIds
          :: batchesFrom fuel' productIds (i + batchSize)
      else []
  end.

(** What the awaited calls of the loop settle to, batch by batch. *)
Fixpoint outcomes (fuel : nat) (jobId : string) (job : BulkJob)
    (service : ShopifyService.Service) (i : nat) (p : Progress) (w : World)
    : list (Outcome ShopifyService.BulkUpdateResult) :=
  match fuel with
  | O => []
  | S fuel' =>
      if (i <? length (productIds job))%nat then
        let batch := slice i (i + batchSize) (productIds job) in
        let r := (service batch (targetVendor job) w).1 in
        let '(p', w') := processBatch jobId job service i p w in
        r :: outcomes fuel' jobId job service (i + batchSize) p' w'
      else []
  end.

(** What the calls of the loop settle to when the remote service answers
    every request with an update, the [k]-th request of the loop with the
    user errors [answers k]; [k0] requests have been made before the batch
    at [i]. *)
Fixpoint outcomesWhenUpdated (fuel : nat) (productIds : list string) (i : nat)
    (answers : nat → list Remote.UserError) (k0 : nat)
    : list (Outcome ShopifyService.BulkUpdateResult) :=
  match fuel with
  | O => []
  | S fuel' =>
      if (i <? length productIds)%nat then
        let batch := slice i (i + batchSize) productIds in
        Resolved (ShopifyService.tallyEach batch answers k0
                    ShopifyService.emptyResult)
          :: outcomesWhenUpdated fuel' productIds (i + batchSize) answers
               (k0 + length batch)
      else []
  end.

(** The log lines that end a completed loop. *)
Definition completionLogs (jobId : string) (job : BulkJob) (p : Progress)
    : list Event :=
  Log INFO "Job processing completed"
    [("jobId", MStr jobId);
     ("totalCount", MNat (totalCount job));
     ("processedCount", MNat (processedCount p));
     ("successCount", MNat (successCount p));
     ("failureCount", MNat (failureCount p));
     ("hasErrors", MBool (0 <? length (allErrors p))%nat)]
  :: (if (0 <? failureCount p)%nat then
        [Log WARN "Job completed with failures"
           [("jobId", MStr jobId);
            ("errorSummary", MList (slice 0 10 (allErrors p)))]]
      else []).

(** What the batch calls of a run of [processJobBody] settle to, when the
    job is in the table and its shop has the token. *)
Definition jobOutcomes (jobId : string) (job : BulkJob) (token : string)
    (w : World) : list (Outcome ShopifyService.BulkUpdateResult) :=
  outcomes (length (productIds job)) jobId job
    (createShopifyService (shopDomain job) token) 0 initialProgress
    (markRunning jobId job w).2.

(** The loop variables of that run when the loop has ended. *)
Definition finalProgress (jobId : string) (job : BulkJob) (token : string)
    (w : World) : Progress :=
  replay (productIds job) 0 (jobOutcomes jobId job token w) initialProgress.

(** The batches of a job. *)
Definition batchesOf (job : BulkJob) : list (list string) :=
  batchesFrom (length (productIds job)) (productIds job) 0.

End WithService.

End BulkJobProcessor.

(** ** server/services/bulk-jobs.ts, the earlier revision

    It calls a service whose [bulkUpdateVendor] is one bulk mutation per
    batch, keeps no success or failure counter and ends every completed loop
    with [SUCCESS]. [retryJob] and [cancelJob] are the same text in both
    revisions. *)

Module LegacyProcessor.
Import Schema.

Definition batchSize : nat := 50.

(** [ShopifyBulkUpdateResponse]: the user errors of [productBulkUpdate],
    [None] when the payload lacks that member. *)
Definition Service : Type :=
  list string → string → M (Outcome (option (list Remote.UserError))).

Section WithService.
Variable createShopifyService : string → string → Service.

Definition processBatch (jobId : string) (job : BulkJob) (service : Service)
    (i : nat) (processedCount : nat) : M nat :=
  let batch := slice i (i + batchSize) (productIds job) in
  r ← service batch (targetVendor job);
  match r with
  | Resolved (Some userErrors) =>
      _ ← (if (0 <? length userErrors)%nat then
             logger WARN "Batch update had errors" [("jobId", MStr jobId)]
           else mret tt);
      let processedCount' := (processedCount + length batch)%nat in
      _ ← Storage.updateBulkJob jobId
            {| setStatus := None; setProcessedCount := Some processedCount';
               setErrorMessage := None; setCompletedAt := None |};
      _ ← (if (i + batchSize <? length (productIds job))%nat then sleep 1000
           else mret tt);
      mret processedCount'
  | Resolved None =>
      _ ← logger ERROR "Batch processing failed"
            [("jobId", MStr jobId);
             ("error", MStr "Cannot read properties of undefined (reading 'userErrors')")];
      mret (processedCount + length batch)%nat
  | Thrown error =>
      _ ← logger ERROR "Batch processing failed"
            [("jobId", MStr jobId); ("error", MStr (errMessage error))];
      mret (processedCount + length batch)%nat
  end.

Fixpoint batchLoop (fuel : nat) (jobId : string) (job : BulkJob)
    (service : Service) (i : nat) (processedCount : nat) : M nat :=
  match fuel with
  | O => mret processedCount
  | S fuel' =>
      if (i <? length (productIds job))%nat then
        processedCount' ← processBatch jobId job service i processedCount;
        batchLoop fuel' jobId job service (i + batchSize) processedCount'
      else mret processedCount
  end.

Definition completeJob (jobId : string) (job : BulkJob)
    (processedCount : nat) : M unit :=
  now ← dateNow;
  _ ← Storage.updateBulkJob jobId
        {| setStatus := Some SUCCESS;
           setProcessedCount := Some processedCount;
           setErrorMessage := None;
           setCompletedAt := Some (Some now) |};
  logger INFO "Job completed successfully"
    [("jobId", MStr jobId);
     ("processedCount", MNat processedCount);
     ("totalCount", MNat (totalCount job))].

Definition processJobBody (jobId : string) : M unit :=
  found ← Storage.getBulkJob jobId;
  _ ← match found with
      | None => BulkJobProcessor.failJob jobId "Job not found"
      | Some job =>
          _ ← logger INFO "Starting job processing" [("jobId", MStr jobId)];
          _ ← Storage.updateBulkJob jobId
                {| setStatus := Some RUNNING; setProcessedCount := None;
                   setErrorMessage := None; setCompletedAt := None |};
          settings ← Storage.getShopSettings (shopDomain job);
          match or_else (settings ≫= accessToken) None with
          | None => BulkJobProcessor.failJob jobId "Shop access token not found"
          | Some token =>
              let service := createShopifyService (shopDomain job) token in
              n ← batchLoop (length (productIds job)) jobId job service 0 0%nat;
              completeJob jobId job n
          end
      end;
  BulkJobProcessor.releaseGuard jobId.

End WithService.

End LegacyProcessor.

(** ** Concrete inputs used by the examples *)

Module Scenario.
Import Schema Remote.

(** A 200 answer carrying the given user errors. *)
Definition updated (ues : list UserError) : FetchOutcome :=
  FetchResolves
    {| status := 200; statusText := "OK"; retryAfterHeader := None;
       body := BodyData {| productUpdate := Some ues |} |}.

(** An answer with an error status and, possibly, a [Retry-After] header. *)
Definition refused (code : N) (text : string) (header : option string)
    : Response :=
  {| status := code; statusText := text; retryAfterHeader := header;
     body := BodyUnreadable "Unexpected end of JSON input" |}.

(** A process that has just started: empty tables, and a remote service
    that gives the listed answers to the first requests and succeeds after
    them; [Math.random()] is always one half. *)
Definition started (answers : list FetchOutcome) : World :=
  {| bulkJobs := ∅; shopSettings := ∅; processingJobs := ∅; scheduled := [];
     limiter := ∅; clock := 0; fetches := 0; randoms := 0; events := [];
     remote := λ n _ _, nth n answers (updated []);
     random := λ _, 1 # 2 |}.


(** A job of three products, half way or done, in the given status. *)
Definition aJob (st : Status) (processed : nat) : BulkJob :=
  {| id := "job-1"; shopDomain := "shop.myshopify.com";
     productIds := ["gid://1"; "gid://2"; "gid://3"];
     targetVendor := "Acme"; Schema.status := st;
     errorMessage := None; processedCount := processed; totalCount := 3;
     createdAt := 0; updatedAt := 0; completedAt := None |}.

(** A process whose job table holds just [job], with the guard as given. *)
Definition holding (job : BulkJob) (guard : gset string) : World :=
  withProcessingJobs guard
    (withBulkJobs {[ id job := job ]} (started [])).

(** A job on the given products, as [createBulkJob] makes it. *)
Definition jobOf (ids : list string) : BulkJob :=
  {| id := "job-1"; shopDomain := "shop.myshopify.com";
     productIds := ids; targetVendor := "Acme"; Schema.status := PENDING;
     errorMessage := None; processedCount := 0; totalCount := length ids;
     createdAt := 0; updatedAt := 0; completedAt := None |}.

(** A process holding that job, whose shop is installed, with the guard
    taken by the routine that is about to run. *)
Definition ready (ids : list string) (answers : list FetchOutcome) : World :=
  {| bulkJobs := {[ "job-1" := jobOf ids ]};
     shopSettings :=
       {[ "shop.myshopify.com" := {| accessToken := Some "shpat_1" |} ]};
     processingJobs := {[ "job-1" ]}; scheduled := [];
     limiter := ∅; clock := 0; fetches := 0; randoms := 0; events := [];
     remote := λ n _ _, nth n answers (updated []);
     random := λ _, 1 # 2 |}.

(** A process with no job yet, whose shop is installed. *)
Definition installed (answers : list FetchOutcome) : World :=
  {| bulkJobs := ∅;
     shopSettings :=
       {[ "shop.myshopify.com" := {| accessToken := Some "shpat_1" |} ]};
     processingJobs := ∅; scheduled := [];
     limiter := ∅; clock := 0; fetches := 0; randoms := 0; events := [];
     remote := λ n _ _, nth n answers (updated []);
     random := λ _, 1 # 2 |}.

(** The request body of a bulk update of the given products. *)
Definition request (ids : list string) : InsertBulkJob :=
  {| insShopDomain := "shop.myshopify.com"; insProductIds := ids;
     insTargetVendor := "Acme"; insStatus := Some PENDING;
     insTotalCount := length ids |}.

(** Products numbered from 1 to [n]. *)
Definition products (n : nat) : list string :=
  map (λ k, "gid://" ++ showN (N.of_nat k)) (seq 1 n).

(** A service of the earlier revision whose every call rejects. *)
Definition failingService : LegacyProcessor.Service :=
  λ _ _, mret (Thrown (mkError "Shopify API error: 500 Internal Server Error")).

(** [n] user errors on the vendor field, numbered from 1. *)
Definition complaints (n : nat) : list UserError :=
  map (λ k, {| field := "vendor"; message := "error " ++ showN (N.of_nat k) |})
      (seq 1 n).

End Scenario.

(** ** server/utils/logger.ts *)

Module Logger.

(** [const levels = ['error', 'warn', 'info', 'debug']] of [shouldLog]. *)
Definition levels : list string := ["error"; "warn"; "info"; "debug"].

(** [xs.indexOf(x)] as the number it is: [-1] when [x] is absent. *)
Definition indexOfZ (x : string) (xs : list string) : Z :=
  match indexOf x xs with
  | Some i => Z.of_nat i
  | None => -1
  end.

(** The constructor: [process.env.LOG_LEVEL || 'info']. *)
Definition new (envLogLevel : option string) : string :=
  default "info" (or_else envLogLevel None).

Definition shouldLog (logLevel level : string) : bool :=
  indexOfZ level levels <=? indexOfZ logLevel levels.

(** [toUpperCase] on the unaccented Latin letters, which is all that the
    level names have. *)
Definition toUpper (c : ascii) : ascii :=
  let n := nat_of_ascii c in
  if (97 <=? n)%nat && (n <=? 122)%nat then ascii_of_nat (n - 32) else c.

Fixpoint toUpperCase (s : string) : string :=
  match s with
  | EmptyString => EmptyString
  | String c s' => String (toUpper c) (toUpperCase s')
  end.

(** [LogEntry]; the timestamp is kept as the instant, in milliseconds, that
    [toISOString] prints. [metadata] is absent when the caller gave none. *)
Record LogEntry := {
  timestamp : Z;
  level : string;
  message : string;
  metadata : option (list (string * Meta));
}.

Definition formatLog (now : Z) (level message : string)
    (metadata : option (list (string * Meta))) : LogEntry :=
  {| timestamp := now; level := toUpperCase level; message := message;
     metadata := metadata |}.

(** The three console methods that [output] chooses from. *)
Inductive Console := ConsoleError | ConsoleWarn | ConsoleLog.

(** [output]: the method called with the stringified entry. *)
Definition output (logEntry : LogEntry) : Console * LogEntry :=
  if String.eqb (level logEntry) "ERROR" then (ConsoleError, logEntry)
  else if String.eqb (level logEntry) "WARN" then (ConsoleWarn, logEntry)
  else (ConsoleLog, logEntry).

(** The four logging methods of a logger whose threshold is [logLevel]:
    what they write to the console when called at time [now]. *)
Definition error (logLevel : string) (now : Z) (message : string)
    (metadata : option (list (string * Meta))) : list (Console * LogEntry) :=
  if shouldLog logLevel "error"
  then [output (formatLog now "error" message metadata)] else [].

Definition warn (logLevel : string) (now : Z) (message : string)
    (metadata : option (list (string * Meta))) : list (Console * LogEntry) :=
  if shouldLog logLevel "warn"
  then [output (formatLog now "warn" message metadata)] else [].

Definition info (logLevel : string) (now : Z) (message : string)
    (metadata : option (list (string * Meta))) : list (Console * LogEntry) :=
  if shouldLog logLevel "info"
  then [output (formatLog now "info" message metadata)] else [].

Definition debug (logLevel : string) (now : Z) (message : string)
    (metadata : option (list (string * Meta))) : list (Console * LogEntry) :=
  if shouldLog logLevel "debug"
  then [output (formatLog now "debug" message metadata)] else [].

End Logger.

(** ** server/services/shopify.ts, the methods that read the catalogue *)

Module ShopifyCatalog.

Record ShopifyProduct := {
  id : string;
  title : string;
  vendor : string;
  status : string;
  totalInventory : Z;
  productType : string;
}.

Record Edge := {
  cursor : string;
  node : ShopifyProduct;
}.

(** [endCursor] is [null] on an empty page. *)
Record PageInfo := {
  hasNextPage : bool;
  endCursor : option string;
}.

(** [products] of a [ShopifyProductsResponse]. *)
Record Connection := {
  edges : list Edge;
  pageInfo : PageInfo;
}.

(** [ShopifyProductsResponse]; [products] is [None] when the payload lacks
    it, which the unchecked cast [data.data as T] lets through. *)
Record ShopifyProductsResponse := {
  products : option Connection;
}.

(** [vendors.add(v)] on a [Set], which keeps the order of insertion. *)
Definition setAdd (v : string) (vendors : list string) : list string :=
  if decide (v ∈ vendors) then vendors else vendors ++ [v].

(** The [forEach] of [getAllVendors]: the vendors that are not empty are
    added to the set. *)
Definition addVendors (edges : list Edge) (vendors : list string)
    : list string :=
  foldl (λ vs edge,
           if String.eqb (vendor (node edge)) "" then vs
           else setAdd (vendor (node edge)) vs)
        vendors edges.

(** The UTF-16 code units of a code point: itself, or a pair of
    surrogates above the basic plane. *)
Definition unitsOf (codePoint : N) : list N :=
  (if codePoint <? 65536 then [codePoint]
   else [55296 + (codePoint - 65536) / 1024;
         56320 + (codePoint - 65536) mod 1024])%N.

(** The strings of this development are byte strings, holding the UTF-8
    encoding of the JavaScript string they stand for. [decode s pending acc]
    reads the code units of that string off the bytes [s]; [pending] bytes
    are still to come for the code point begun in [acc]. A byte that cannot
    occur in an encoding is read as U+FFFD. *)
Fixpoint decode (s : string) (pending acc : N) : list N :=
  match s with
  | EmptyString => if (pending =? 0)%N then [] else [65533%N]
  | String c rest =>
      let b := N_of_ascii c in
      if (pending =? 0)%N then
        if (b <? 128)%N then b :: decode rest 0%N 0%N
        else if (b <? 192)%N then 65533%N :: decode rest 0%N 0%N
        else if (b <? 224)%N then decode rest 1%N (b - 192)%N
        else if (b <? 240)%N then decode rest 2%N (b - 224)%N
        else if (b <? 248)%N then decode rest 3%N (b - 240)%N
        else 65533%N :: decode rest 0%N 0%N
      else if ((128 <=? b) && (b <? 192))%N then
        let acc' := (acc * 64 + (b - 128))%N in
        if (pending =? 1)%N then (unitsOf acc' ++ decode rest 0%N 0%N)%list
        else decode rest (pending - 1)%N acc'
      else 65533%N :: decode rest 0%N 0%N
  end.

(** The code units of a JavaScript string. *)
Definition codeUnits (s : string) : list N := decode s 0%N 0%N.

(** [xs] comes before [ys], or is equal to it, in the order of their
    elements, a proper prefix first. *)
Fixpoint lexLeb (xs ys : list N) : bool :=
  match xs, ys with
  | [], _ => true
  | _ :: _, [] => false
  | x :: xs', y :: ys' =>
      if (x <? y)%N then true
      else if (y <? x)%N then false
      else lexLeb xs' ys'
  end.

(** The order of [Array.prototype.sort] without a comparator, on strings:
    by UTF-16 code units. *)
Definition codeUnitLe (a b : string) : Prop :=
  lexLeb (codeUnits a) (codeUnits b) = true.

#[global] Instance codeUnitLe_dec a b : Decision (codeUnitLe a b).
Proof. unfold codeUnitLe. apply _. Defined.

(** [Array.from(vendors).sort()] *)
Definition sortStrings (vendors : list string) : list string :=
  merge_sort codeUnitLe vendors.

Section WithRemote.
(** [getProducts n first after query] is what the [n]-th call of
    [getProducts(first, after, query)] settles to. *)
Variable getProducts :
  nat → nat → option string → option string → Outcome ShopifyProductsResponse.

(** The [while (hasNextPage)] loop of [getAllVendors], at most [fuel]
    iterations of it; [None] when the loop has not ended by then. [n] calls
    have been made before. *)
Fixpoint vendorsLoop (fuel n : nat) (cursor : option string)
    (vendors : list string) : option (Outcome (list string)) :=
  match fuel with
  | O => None
  | S fuel' =>
      match getProducts n 250 cursor None with
      | Thrown e => Some (Thrown e)
      | Resolved response =>
          match products response with
          | None =>
              Some (Thrown (mkError
                "Cannot read properties of undefined (reading 'edges')"))
          | Some page =>
              let vendors' := addVendors (edges page) vendors in
              if hasNextPage (pageInfo page)
              then vendorsLoop fuel' (S n) (endCursor (pageInfo page)) vendors'
              else Some (Resolved (sortStrings vendors'))
          end
      end
  end.

Definition getAllVendors (fuel : nat) : option (Outcome (list string)) :=
  vendorsLoop fuel 0 None [].

(** *** Reading a run *)

(** The pages that the loop reads, in order. *)
Fixpoint pagesRead (fuel n : nat) (cursor : option string) : list Connection :=
  match fuel with
  | O => []
  | S fuel' =>
      match getProducts n 250 cursor None with
      | Thrown e => []
      | Resolved response =>
          match products response with
          | None => []
          | Some page =>
              page :: (if hasNextPage (pageInfo page)
                       then pagesRead fuel' (S n) (endCursor (pageInfo page))
                       else [])
          end
      end
  end.

(** The vendor names on a list of pages. *)
Definition vendorsOn (pages : list Connection) : list string :=
  pages ≫= λ page, map (λ edge, vendor (node edge)) (edges page).

End WithRemote.

End ShopifyCatalog.

(** ** server/services/csv-export.ts, the pure parts *)

Module CSVExportService.
Import ShopifyCatalog.

(** The double-quote character. *)
Definition dquote : ascii := ascii_of_nat 34.

(** The [replace] of [generateCSV]: every double quote becomes two. *)
Fixpoint escapeQuotes (s : string) : string :=
  match s with
  | EmptyString => EmptyString
  | String c s' =>
      if Ascii.eqb c dquote
      then String dquote (String dquote (escapeQuotes s'))
      else String c (escapeQuotes s')
  end.

(** A field between double quotes, its own double quotes doubled. *)
Definition quoted (s : string) : string :=
  String dquote (escapeQuotes s ++ String dquote EmptyString).

(** [vendor || d] *)
Definition vendorOr (vendor : option string) (d : string) : string :=
  default d (or_else vendor None).

Definition mockProducts (vendor : option string) : list ShopifyProduct :=
  [ {| id := "gid://shopify/Product/1001";
       title := "Sample Wireless Headphones";
       vendor := vendorOr vendor "AudioTech";
       status := "ACTIVE"; productType := "Electronics";
       totalInventory := 150 |};
    {| id := "gid://shopify/Product/1002";
       title := "Eco-Friendly Water Bottle";
       vendor := vendorOr vendor "GreenLife";
       status := "ACTIVE"; productType := "Lifestyle";
       totalInventory := 75 |};
    {| id := "gid://shopify/Product/1003";
       title := "Premium Coffee Beans";
       vendor := vendorOr vendor "RoastMaster";
       status := "ACTIVE"; productType := "Food & Beverage";
       totalInventory := 200 |};
    {| id := "gid://shopify/Product/1004";
       title := "Organic Cotton T-Shirt";
       vendor := vendorOr vendor "EcoWear";
       status := "DRAFT"; productType := "Apparel";
       totalInventory := 50 |};
    {| id := "gid://shopify/Product/1005";
       title := "Bluetooth Speaker";
       vendor := vendorOr vendor "SoundWave";
       status := "ACTIVE"; productType := "Electronics";
       totalInventory := 30 |} ].

Definition generateMockProducts (vendor : option string)
    : list ShopifyProduct :=
  match or_else vendor None with
  | Some v =>
      List.filter (λ product, String.eqb (ShopifyCatalog.vendor product) v)
        (mockProducts vendor)
  | None => mockProducts vendor
  end.

End CSVExportService.

(** ** More observations of a run *)

Definition isFetch (e : Event) : bool :=
  match e with
  | Fetch _ _ => true
  | _ => false
  end.

Definition isSleep (e : Event) : bool :=
  match e with
  | Sleep _ => true
  | _ => false
  end.

(** The requests dispatched, oldest first. *)
Definition fetched (es : list Event) : list Event := List.filter isFetch es.

(** The delays awaited, oldest first. *)
Definition slept (es : list Event) : list Event := List.filter isSleep es.

(** The requests of one call through the retry wrapper: a first one and,
    for each delay, that delay awaited and one more request. *)
Definition attempts (productId vendor : string) (delays : list Q)
    : list Event :=
  Fetch productId vendor ::
  (delays ≫= λ delay, [Sleep delay; Fetch productId vendor]).

(** One request per product with a quarter of a second between two
    requests. *)
Fixpoint paced (vendor : string) (productIds : list string) : list Event :=
  match productIds with
  | [] => []
  | [productId] => [Fetch productId vendor]
  | productId :: rest =>
      Fetch productId vendor :: Sleep 250 :: paced vendor rest
  end.

(** What the earlier processor relies on in its service: a call leaves the
    tables, the guard and the suspended routines as they were. *)
Definition legacyCallsOnly (service : LegacyProcessor.Service) : Prop :=
  ∀ productIds vendor w, sameProcess w (service productIds vendor w).2.

(** ** More concrete inputs *)

Module Examples.
Import Schema.

(** A second job, of two products. *)
Definition otherJob : BulkJob :=
  {| id := "job-2"; shopDomain := "shop.myshopify.com";
     productIds := ["gid://4"; "gid://5"]; targetVendor := "Acme";
     Schema.status := PENDING; errorMessage := None; processedCount := 0;
     totalCount := 2; createdAt := 0; updatedAt := 0; completedAt := None |}.

(** A process whose shop is installed and whose table holds a finished job
    and [otherJob]. *)
Definition twoJobs : World :=
  withBulkJobs
    {[ "job-1" := Scenario.aJob SUCCESS 3; "job-2" := otherJob ]}
    (Scenario.installed []).

(** The string of the given bytes. *)
Definition ofBytes (bytes : list nat) : string :=
  fold_right (λ b s, String (ascii_of_nat b) s) EmptyString bytes.

(** Two vendor names of one character each: U+1F600, which takes four
    bytes and two code units, and U+FF5E, which takes three bytes and one
    code unit. *)
Definition grinningFace : string := ofBytes [240; 159; 152; 128]%nat.
Definition fullwidthTilde : string := ofBytes [239; 189; 158]%nat.

(** A catalogue service whose every page is empty and reports a next
    page. *)
Definition endless (n first : nat) (after query : option string)
    : Outcome ShopifyCatalog.ShopifyProductsResponse :=
  Resolved
    {| ShopifyCatalog.products :=
         Some {| ShopifyCatalog.edges := [];
                 ShopifyCatalog.pageInfo :=
                   {| ShopifyCatalog.hasNextPage := true;
                      ShopifyCatalog.endCursor := None |} |} |}.

End Examples.


(** * Properties *)

(** Unfolds the operations of [M] so that a computation applied to a world
    reduces. *)
Ltac run_M :=
  unfold mbind, M_bind, mret, M_ret, logger, emit, fetch, sleep, mathRandom,
    dateNow; cbn.

Lemma bind_run {A B} (m : M A) (f : A → M B) w a w1 :
  m w = (a, w1) → (m ≫= f) w = f a w1.
Proof. intros H. unfold mbind, M_bind. by rewrite H. Qed.

(** ** Arithmetic helpers *)

Lemma ceil_div_bounds a b :
  0 < b → b * (ceil_div a b - 1) < a ≤ b * ceil_div a b.
Proof.
  intros Hb. unfold ceil_div.
  pose proof (Z.mul_div_le (- a) b Hb).
  pose proof (Z.mul_succ_div_gt (- a) b Hb). lia.
Qed.

Lemma ceil_div_pos a b : 0 < b → 0 < a → 0 < ceil_div a b.
Proof.
  intros Hb Ha. pose proof (ceil_div_bounds a b Hb).
  destruct (Z_lt_le_dec 0 (ceil_div a b)) as [|Hle]; [done|].
  assert (b * ceil_div a b ≤ 0) by nia. lia.
Qed.

(** ** The request throttle *)

Module RateLimiterFacts.
Import RateLimiter.

Section WithConfig.
Variable config : RateLimitConfig.

Lemma check_unfold key now requests :
  check config key now requests =
  (<[key := {| count := count (currentLog config requests key now) + 1;
               resetTime := resetTime (currentLog config requests key now) |}]>
     requests,
   answer config
     {| count := count (currentLog config requests key now) + 1;
        resetTime := resetTime (currentLog config requests key now) |} now).
Proof. reflexivity. Qed.

Lemma currentLog_live key now requests l :
  requests !! key = Some l → now < resetTime l →
  currentLog config requests key now = l.
Proof.
  intros Hl Hlt. unfold currentLog. rewrite Hl.
  destruct (Z.leb_spec (resetTime l) now); [lia | done].
Qed.

Lemma currentLog_fresh key now requests :
  (∀ l, requests !! key = Some l → resetTime l ≤ now) →
  currentLog config requests key now = freshLog config now.
Proof.
  intros H. unfold currentLog. destruct (requests !! key) as [l|] eqn:E; [|done].
  specialize (H l eq_refl). destruct (Z.leb_spec (resetTime l) now); [done | lia].
Qed.

(** Calls for other keys leave the window of [key] alone. *)
Lemma check_other key key' now requests :
  key ≠ key' → (check config key' now requests).1 !! key = requests !! key.
Proof. intros Hne. rewrite check_unfold. simpl. by rewrite lookup_insert_ne. Qed.

(** Calls inside a live window only count up. *)
Lemma checks_in_window key times : ∀ requests c R,
  requests !! key = Some {| count := c; resetTime := R |} →
  Forall (λ t, t < R) times →
  (checks config key times requests).1 !! key
    = Some {| count := c + Z.of_nat (length times); resetTime := R |} ∧
  ∀ (i : nat) t, times !! i = Some t →
    (checks config key times requests).2 !! i
      = Some (answer config
                {| count := c + Z.of_nat i + 1; resetTime := R |} t).
Proof.
  induction times as [|now rest IH]; intros requests c R Hl Hin.
  - simpl. split; [by rewrite Hl, Z.add_0_r | by intros i t H].
  - apply Forall_cons in Hin as [Hnow Hrest].
    cbn [checks]. rewrite check_unfold.
    rewrite (currentLog_live key now requests _ Hl Hnow). cbn [count resetTime].
    destruct (checks config key rest _) as [requests'' os] eqn:E.
    specialize (IH (<[key := {| count := c + 1; resetTime := R |}]> requests)
                  (c + 1) R (lookup_insert_eq _ _ _) Hrest).
    rewrite E in IH. simpl in IH. destruct IH as [IH1 IH2]. simpl. split.
    + rewrite IH1. do 2 f_equal. lia.
    + intros [|i] t Hi; simpl in *.
      * injection Hi as <-. by rewrite Z.add_0_r.
      * rewrite (IH2 i t Hi). do 3 f_equal. lia.
Qed.

Lemma check_fresh key now requests :
  (∀ l, requests !! key = Some l → resetTime l ≤ now) →
  check config key now requests =
  (<[key := {| count := 1; resetTime := now + windowMs config |}]> requests,
   answer config {| count := 1; resetTime := now + windowMs config |} now).
Proof. intros H. rewrite check_unfold. by rewrite (currentLog_fresh _ _ _ H). Qed.

(** C3, amended. With [maxRequests = n], let a call at [t0] open a window
    (none is stored for the key, or the stored one has elapsed) and let [n]
    more calls follow before [t0 + windowMs]. Then the first [n] calls are
    admitted; the call after them is rejected, and its [retryAfter] is the
    time left until the reset in whole seconds, rounded up, so it is positive
    and less than one second above the time left; the stored count is
    [n + 1]. For [n >= 1], a call at or after the reset is admitted and
    leaves a fresh window with count 1. *)
Theorem fixed_window_throttle (n : nat) key requests t0 rest :
  maxRequests config = Z.of_nat n →
  (∀ l, requests !! key = Some l → resetTime l ≤ t0) →
  length rest = n →
  Forall (λ t, t0 ≤ t < t0 + windowMs config) (t0 :: rest) →
  let reset := t0 + windowMs config in
  let remaining := reset - default t0 (last rest) in
  let run := checks config key (t0 :: rest) requests in
  (∀ i, (i < n)%nat → ∃ o, run.2 !! i = Some o ∧ isAllowed o = true) ∧
  (∃ r, run.2 !! n = Some (Rejected (rejection config) r) ∧
        r = ceil_div remaining 1000 ∧
        0 < r ∧ 1000 * (r - 1) < remaining ≤ 1000 * r) ∧
  run.1 !! key = Some {| count := Z.of_nat n + 1; resetTime := reset |} ∧
  (∀ t, reset ≤ t → (1 ≤ n)%nat →
     isAllowed (check config key t run.1).2 = true ∧
     (check config key t run.1).1 !! key
       = Some {| count := 1; resetTime := t + windowMs config |}).
Proof.
  intros Hmax Hexp Hlen Hin reset remaining run.
  apply Forall_cons in Hin as [Ht0 Hrest].
  assert (Hrest' : Forall (λ t, t < reset) rest).
  { eapply Forall_impl; [exact Hrest|]. intros t Ht. unfold reset. simpl in Ht. lia. }
  pose proof (checks_in_window key rest
    (<[key := {| count := 1; resetTime := reset |}]> requests) 1 reset
    (lookup_insert_eq _ _ _) Hrest') as [Hfin Hout].
  assert (Hrun : run =
    ((checks config key rest
        (<[key := {| count := 1; resetTime := reset |}]> requests)).1,
     answer config {| count := 1; resetTime := reset |} t0
       :: (checks config key rest
             (<[key := {| count := 1; resetTime := reset |}]> requests)).2)).
  { unfold run. cbn [checks]. rewrite (check_fresh _ _ _ Hexp). fold reset.
    by destruct (checks config key rest _). }
  assert (Hadm : ∀ c t, c ≤ Z.of_nat n →
            isAllowed (answer config {| count := c; resetTime := reset |} t) = true).
  { intros c t Hc. unfold answer. cbn [count]. rewrite Hmax.
    destruct (Z.ltb_spec (Z.of_nat n) c); [lia | done]. }
  rewrite Hrun. cbn [fst snd]. repeat split.
  - intros [|i] Hi; cbn [lookup list_lookup].
    + eexists. split; [reflexivity|]. apply Hadm. lia.
    + destruct (lookup_lt_is_Some_2 rest i) as [t Ht]; [lia|].
      eexists. split; [exact (Hout i t Ht)|]. apply Hadm. lia.
  - assert (Hlast : ∃ t, (t0 :: rest) !! n = Some t ∧ default t0 (last rest) = t
                         ∧ t < reset).
    { destruct n as [|m].
      - exists t0. destruct rest; [|done]. unfold reset. simpl; repeat split; lia.
      - destruct (lookup_lt_is_Some_2 rest m) as [t Ht]; [lia|].
        exists t. repeat split; [done| |].
        + rewrite last_lookup, Hlen. simpl. by rewrite Ht.
        + eapply Forall_lookup_1 in Hrest'; [|exact Ht]. done. }
    destruct Hlast as (t & Hnth & Hdef & Hlt).
    assert (Hans : (answer config {| count := 1; resetTime := reset |} t0
                      :: (checks config key rest
                            (<[key := {| count := 1; resetTime := reset |}]> requests)).2)
                     !! n
                   = Some (Rejected (rejection config) (ceil_div (reset - t) 1000))).
    { destruct n as [|m].
      - simpl in Hnth. injection Hnth as <-. simpl. unfold answer. cbn [count resetTime].
        rewrite Hmax. done.
      - simpl in Hnth. simpl. rewrite (Hout m t Hnth). unfold answer.
        cbn [count resetTime]. rewrite Hmax.
        destruct (Z.ltb_spec (Z.of_nat (S m)) (1 + Z.of_nat m + 1)); [done | lia]. }
    exists (ceil_div (reset - t) 1000). unfold remaining. rewrite Hdef.
    pose proof (ceil_div_bounds (reset - t) 1000 ltac:(lia)).
    pose proof (ceil_div_pos (reset - t) 1000 ltac:(lia) ltac:(lia)).
    repeat split; [done | done | lia | lia].
  - rewrite Hfin. do 2 f_equal. lia.
  - rewrite check_unfold. cbn [snd].
    rewrite currentLog_fresh.
    + unfold answer, freshLog. cbn [count]. rewrite Hmax.
      destruct (Z.ltb_spec (Z.of_nat n) (0 + 1)); [lia | done].
    + intros l Hl. rewrite Hfin in Hl. injection Hl as <-. done.
  - rewrite check_unfold. cbn [fst]. rewrite lookup_insert_eq.
    rewrite currentLog_fresh; [done|].
    intros l Hl. rewrite Hfin in Hl. injection Hl as <-. done.
Qed.

End WithConfig.

(** The theorem at the limiter of the Shopify routes: two calls at time 0
    and one half a second later. *)
Lemma fixed_window_throttle_witness :
  let run := checks shopifyApiLimiter "shop" [0; 0; 500] ∅ in
  (∀ i, (i < 2)%nat → ∃ o, run.2 !! i = Some o ∧ isAllowed o = true) ∧
  (∃ r, run.2 !! 2%nat = Some (Rejected (rejection shopifyApiLimiter) r) ∧
        r = ceil_div 500 1000 ∧ 0 < r ∧ 1000 * (r - 1) < 500 ≤ 1000 * r) ∧
  run.1 !! "shop" = Some {| count := 3; resetTime := 1000 |} ∧
  (∀ t, 1000 ≤ t → (1 ≤ 2)%nat →
     isAllowed (check shopifyApiLimiter "shop" t run.1).2 = true ∧
     (check shopifyApiLimiter "shop" t run.1).1 !! "shop"
       = Some {| count := 1; resetTime := t + 1000 |}).
Proof.
  apply (fixed_window_throttle shopifyApiLimiter 2 "shop" ∅ 0 [0; 500]).
  - reflexivity.
  - intros l H. rewrite lookup_empty in H. discriminate H.
  - reflexivity.
  - repeat constructor; simpl; lia.
Defined.

(** C3 as worded fails: the third call of that run is rejected 500 ms before
    the reset, and its [retryAfter] is 1, which is neither the 500 ms left
    nor, read as seconds, the half second left. *)
Lemma retryAfter_is_not_time_remaining :
  ∃ requests l r,
    checks shopifyApiLimiter "shop" [0; 0; 500] ∅
      = (requests,
         [Allowed 2 1 1; Allowed 2 0 1;
          Rejected (rejection shopifyApiLimiter) r]) ∧
    requests !! "shop" = Some l ∧
    r ≠ resetTime l - 500 ∧
    1000 * r ≠ resetTime l - 500.
Proof.
  eexists _, {| count := 3; resetTime := 1000 |}, 1.
  split; [vm_compute; reflexivity|].
  split; [vm_compute; reflexivity|].
  split; vm_compute; discriminate.
Qed.

End RateLimiterFacts.

(** ** The retry wrapper of the Shopify service *)

Module ShopifyServiceFacts.
Import Remote ShopifyService.

(** One request: one [fetch], some log lines, and the promise settles by the
    answer alone. *)
Lemma makeGraphQLRequest_run productId vendor w :
  ∃ logs, Forall (λ e, isLog e = true) logs ∧
    makeGraphQLRequest productId vendor w
    = (settle (remote w (fetches w) productId vendor),
       withFetches (S (fetches w))
         (withEvents (events w ++ Fetch productId vendor :: logs) w)).
Proof.
  unfold makeGraphQLRequest, settle. run_M.
  destruct (remote w (fetches w) productId vendor) as [msg | r]; run_M;
    [| destruct (ok r); run_M; [destruct (body r); run_M |]];
    (eexists; split;
     [| unfold withFetches, withEvents; cbn; rewrite <- ?app_assoc; cbn;
        reflexivity];
     by repeat constructor).
Qed.

Lemma sameProcess_refl w : sameProcess w w.
Proof. by repeat split. Qed.

(** The loop returns what a successful attempt resolves to. *)
Lemma retryLoop_resolves maxRetries remaining attempt lastError productId vendor w data :
  settle (remote w (fetches w) productId vendor) = Resolved data →
  retryLoop maxRetries (S remaining) attempt lastError productId vendor w
  = (Resolved data, (makeGraphQLRequest productId vendor w).2).
Proof.
  intros Hs. destruct (makeGraphQLRequest_run productId vendor w) as (logs & _ & Hrun).
  cbn [retryLoop]. unfold mbind, M_bind. rewrite Hrun, Hs. reflexivity.
Qed.

(** The loop ends with the error of an attempt when that error is not to be
    retried, or when the attempt was the last one. *)
Lemma retryLoop_throws maxRetries remaining attempt lastError productId vendor w error :
  settle (remote w (fetches w) productId vendor) = Thrown error →
  nonRetryable error = true ∨ attempt = maxRetries →
  retryLoop maxRetries (S remaining) attempt lastError productId vendor w
  = (Thrown error, (makeGraphQLRequest productId vendor w).2).
Proof.
  intros Hs Hstop. destruct (makeGraphQLRequest_run productId vendor w) as (logs & _ & Hrun).
  cbn [retryLoop]. unfold mbind, M_bind. rewrite Hrun, Hs. cbn.
  destruct (nonRetryable error); [done|].
  destruct Hstop as [? | ->]; [done|]. by rewrite Nat.eqb_refl.
Qed.

(** Otherwise the loop sleeps for [delayOf] and goes on with the next
    attempt. *)
Lemma retryLoop_retries maxRetries remaining attempt lastError productId vendor w error :
  settle (remote w (fetches w) productId vendor) = Thrown error →
  nonRetryable error = false → attempt ≠ maxRetries →
  let delay := delayOf attempt error (random w (randoms w)) in
  ∃ logs w',
    Forall (λ e, isLog e = true) logs ∧
    events w' = (events w ++ Fetch productId vendor :: logs ++ [Sleep delay])%list ∧
    fetches w' = S (fetches w) ∧
    randoms w' = (if advertisedDelay error is Some _ then randoms w else S (randoms w)) ∧
    clock w' = clock w + Qceiling (timeoutOf delay) ∧
    sameProcess w w' ∧
    retryLoop maxRetries (S remaining) attempt lastError productId vendor w
    = retryLoop maxRetries remaining (S attempt) (Some error) productId vendor w'.
Proof.
  intros Hs Hnr Hne delay.
  destruct (makeGraphQLRequest_run productId vendor w) as (logs & Hlogs & Hrun).
  cbn [retryLoop]. unfold mbind at 1, M_bind at 1. rewrite Hrun, Hs. cbn.
  rewrite Hnr. destruct (Nat.eqb_spec attempt maxRetries) as [|_]; [done|].
  unfold delay, delayOf, retryDelay.
  destruct (advertisedDelay error) as [z|]; run_M.
  - eexists (logs ++ [_])%list, _. split; [|split; [|split; [|split; [|split; [|split]]]]].
    7: reflexivity.
    2: by (cbn; rewrite <- !app_assoc).
    all: cbn; try done.
    apply Forall_app; split; [done | by repeat constructor].
  - eexists (logs ++ [_])%list, _. split; [|split; [|split; [|split; [|split; [|split]]]]].
    7: reflexivity.
    2: by (cbn; rewrite <- !app_assoc).
    all: cbn; try done.
    apply Forall_app; split; [done | by repeat constructor].
Qed.

Lemma timeline_app es es' : timeline (es ++ es') = (timeline es ++ timeline es')%list.
Proof. apply List.filter_app. Qed.

Lemma timeline_cons e es :
  timeline (e :: es) = if negb (isLog e) then e :: timeline es else timeline es.
Proof. reflexivity. Qed.

Lemma timeline_logs logs : Forall (λ e, isLog e = true) logs → timeline logs = [].
Proof.
  induction 1 as [|e logs He _ IH]; [done|].
  unfold timeline in *. cbn. by rewrite He.
Qed.

(** C4. The wrapper uses the delay that a 429 advertises, as the comment
    above the choice of the delay announces, but not a delay of zero: with
    [Retry-After: 2] the second request follows a sleep of 2000 ms, two
    seconds after the first; with [Retry-After: 0] the error carries 0 and
    the second request follows a sleep of 1250 ms, the first backoff delay
    with the jitter of the example (one half of 500 ms), instead of following
    at once, because the wrapper takes a falsy [retryAfter] for a missing
    one. *)
Theorem zero_retryAfter_not_honoured :
  let limited h := Scenario.refused 429 "Too Many Requests" (Some h) in
  let run h :=
    updateProductVendor "gid://1" "Acme"
      (Scenario.started [FetchResolves (limited h)]) in
  (retryAfter (httpError (limited "2")) = Some (Int 2000) ∧
   timeline (events (run "2").2)
   = [Fetch "gid://1" "Acme"; Sleep (inject_Z 2000); Fetch "gid://1" "Acme"] ∧
   clock (run "2").2 = 2000) ∧
  (retryAfter (httpError (limited "0")) = Some (Int 0) ∧
   advertisedDelay (httpError (limited "0")) = None ∧
   (∃ d, timeline (events (run "0").2)
         = [Fetch "gid://1" "Acme"; Sleep d; Fetch "gid://1" "Acme"] ∧
         (d == 1250)%Q ∧ ¬ (d == inject_Z 0)%Q) ∧
   clock (run "0").2 = 1250).
Proof.
  cbv zeta. split; [repeat split; vm_compute; reflexivity|].
  split; [reflexivity|]. split; [reflexivity|]. split; [|vm_compute; reflexivity].
  eexists. split; [vm_compute; reflexivity|]. split; [reflexivity | discriminate].
Qed.

Lemma logs_are_calls es :
  Forall (λ e, isLog e = true) es → Forall (λ e, isCall e = true) es.
Proof. intros H. eapply Forall_impl; [exact H|]. by intros []. Qed.


Lemma calls_no_update es :
  Forall (λ e, isCall e = true) es → Forall (λ e, isUpdate e = false) es.
Proof. intros H. eapply Forall_impl; [exact H|]. by intros []. Qed.

Lemma sameProcess_trans w1 w2 w3 :
  sameProcess w1 w2 → sameProcess w2 w3 → sameProcess w1 w3.
Proof.
  intros (?&?&?&?&?&?&?) (?&?&?&?&?&?&?). repeat split; congruence.
Qed.

(** What the retry loop does to the world: it appends events of a call,
    starting with a dispatch, and leaves the tables, the guard and the
    limiter windows as they were. *)
Lemma retryLoop_effects remaining : ∀ maxRetries attempt lastError productId vendor w,
  ∃ new,
    events (retryLoop maxRetries remaining attempt lastError productId vendor w).2
      = (events w ++ new)%list ∧
    Forall (λ e, isCall e = true) new ∧
    (remaining ≠ 0%nat → ∃ rest, new = Fetch productId vendor :: rest) ∧
    sameProcess w
      (retryLoop maxRetries remaining attempt lastError productId vendor w).2.
Proof.
  induction remaining as [|remaining IH]; intros maxRetries attempt lastError productId vendor w.
  - exists []. cbn. rewrite app_nil_r. repeat split; done.
  - destruct (makeGraphQLRequest_run productId vendor w) as (logs & Hlogs & Hrun).
    pose proof (logs_are_calls _ Hlogs) as Hquiet.
    destruct (settle (remote w (fetches w) productId vendor)) as [data | error] eqn:Hs.
    + rewrite (retryLoop_resolves _ _ _ _ _ _ _ _ Hs), Hrun. cbn.
      exists (Fetch productId vendor :: logs).
      split; [done|]. split; [by constructor|]. split; [by eexists|]. by repeat split.
    + destruct (nonRetryable error) eqn:Hnr;
        [| destruct (decide (attempt = maxRetries)) as [Heq | Hne]].
      * rewrite (retryLoop_throws _ _ _ _ _ _ _ _ Hs (or_introl Hnr)), Hrun. cbn.
        exists (Fetch productId vendor :: logs).
        split; [done|]. split; [by constructor|]. split; [by eexists|]. by repeat split.
      * rewrite (retryLoop_throws _ _ _ _ _ _ _ _ Hs (or_intror Heq)), Hrun. cbn.
        exists (Fetch productId vendor :: logs).
        split; [done|]. split; [by constructor|]. split; [by eexists|]. by repeat split.
      * destruct (retryLoop_retries maxRetries remaining attempt lastError _ _ _ _
                    Hs Hnr Hne) as (logs' & w' & Hlogs' & Hev & _ & _ & _ & Hsame & ->).
        destruct (IH maxRetries (S attempt) (Some error) productId vendor w')
          as (new & Hnew & Hq & _ & Hsame').
        exists (Fetch productId vendor :: logs' ++ [Sleep (delayOf attempt error
                  (random w (randoms w)))] ++ new)%list.
        split; [rewrite Hnew, Hev, <- app_assoc; cbn; by rewrite <- app_assoc|].
        split.
        { constructor; [done|]. apply Forall_app; split.
          - by apply logs_are_calls.
          - by constructor. }
        split; [by eexists|]. by eapply sameProcess_trans.
Qed.



Lemma callOnly_ret {A} (a : A) : callOnly (mret a).
Proof. intros w. split; [apply sameProcess_refl|]. exists []. by rewrite app_nil_r. Qed.

Lemma callOnly_bind {A B} (m : M A) (f : A → M B) :
  callOnly m → (∀ a, callOnly (f a)) → callOnly (m ≫= f).
Proof.
  intros Hm Hf w. unfold mbind, M_bind.
  destruct (Hm w) as [Hs (new & Hev & Hnew)].
  destruct (m w) as [a w1]. cbn [snd] in *.
  destruct (Hf a w1) as [Hs' (new' & Hev' & Hnew')].
  split; [by eapply sameProcess_trans|].
  exists (new ++ new')%list. rewrite Hev', Hev, app_assoc.
  split; [done | by apply Forall_app].
Qed.

Lemma callOnly_logger level message metadata :
  callOnly (logger level message metadata).
Proof.
  intros w. split; [by repeat split|].
  exists [Log level message metadata]. split; [reflexivity | by repeat constructor].
Qed.

Lemma callOnly_sleep ms : callOnly (sleep ms).
Proof.
  intros w. split; [by repeat split|].
  exists [Sleep ms]. split; [reflexivity | by repeat constructor].
Qed.

Lemma callOnly_updateProductVendor productId vendor :
  callOnly (updateProductVendor productId vendor).
Proof.
  intros w. unfold updateProductVendor, makeGraphQLRequestWithRetry.
  destruct (retryLoop_effects 3 3 1 None productId vendor w) as (new & ? & ? & _ & ?).
  split; [done | by exists new].
Qed.

Lemma callOnly_updateOne productIds vendor result productId :
  callOnly (updateOne productIds vendor result productId).
Proof.
  unfold updateOne, recordFailure.
  apply callOnly_bind; [apply callOnly_updateProductVendor|].
  intros [response | error].
  - destruct (productUpdate response) as [ues|].
    + apply callOnly_bind.
      * destruct (0 <? length ues)%nat;
          (apply callOnly_bind; [apply callOnly_logger | intros; apply callOnly_ret]).
      * intros result'. apply callOnly_bind; [|intros; apply callOnly_ret].
        case_match; [case_match|]; try apply callOnly_sleep; apply callOnly_ret.
    + apply callOnly_bind; [apply callOnly_logger | intros; apply callOnly_ret].
  - apply callOnly_bind; [apply callOnly_logger | intros; apply callOnly_ret].
Qed.

Lemma callOnly_updateEach productIds vendor todo : ∀ result,
  callOnly (updateEach productIds vendor todo result).
Proof.
  induction todo as [|productId rest IH]; intros result; cbn [updateEach].
  - apply callOnly_ret.
  - apply callOnly_bind; [apply callOnly_updateOne | apply IH].
Qed.

(** The service of the repository is one the processor can rely on. *)
Lemma bulkUpdateVendor_callsOnly shopDomain accessToken :
  callsOnly (createShopifyService shopDomain accessToken).
Proof.
  intros productIds vendor w. unfold createShopifyService.
  assert (H : callOnly (bulkUpdateVendor productIds vendor)).
  { unfold bulkUpdateVendor. apply callOnly_bind; [apply callOnly_updateEach|].
    intros result. apply callOnly_bind; [apply callOnly_logger | intros; apply callOnly_ret]. }
  destruct (H w) as [Hs (new & Hev & Hnew)].
  split; [done|]. exists new. split; [done | by apply calls_no_update].
Qed.

(** *** Calls that the remote service answers with an update *)

Lemma updateProductVendor_updated productId vendor w ues :
  remote w (fetches w) productId vendor = Scenario.updated ues →
  ∃ logs, Forall (λ e, isLog e = true) logs ∧
    updateProductVendor productId vendor w
    = (Resolved {| productUpdate := Some ues |},
       withFetches (S (fetches w))
         (withEvents (events w ++ Fetch productId vendor :: logs) w)).
Proof.
  intros Hr. destruct (makeGraphQLRequest_run productId vendor w) as (logs & Hlogs & Hrun).
  exists logs. split; [done|].
  unfold updateProductVendor, makeGraphQLRequestWithRetry.
  erewrite retryLoop_resolves; [by rewrite Hrun | by rewrite Hr].
Qed.

Lemma updateOne_updated productIds vendor result productId w ues :
  remote w (fetches w) productId vendor = Scenario.updated ues →
  ∃ w', updateOne productIds vendor result productId w
        = (tally productId ues result, w') ∧
        fetches w' = S (fetches w) ∧ remote w' = remote w.
Proof.
  intros Hr.
  destruct (updateProductVendor_updated productId vendor w ues Hr)
    as (logs & _ & Hrun).
  unfold updateOne. erewrite bind_run; [|exact Hrun].
  cbn [productUpdate]. unfold tally.
  destruct (0 <? length ues)%nat; run_M; repeat case_match; simplify_eq;
    eexists; (split; [reflexivity|]); by cbn.
Qed.

Lemma updateEach_updated productIds vendor todo : ∀ result w k0 answers,
  (∀ k productId vendor, (k < length todo)%nat →
     remote w (fetches w + k) productId vendor
     = Scenario.updated (answers (k0 + k)%nat)) →
  ∃ w', updateEach productIds vendor todo result w
        = (tallyEach todo answers k0 result, w') ∧
        fetches w' = (fetches w + length todo)%nat ∧ remote w' = remote w.
Proof.
  induction todo as [|productId rest IH]; intros result w k0 answers Hans;
    cbn [updateEach tallyEach length].
  - exists w. split; [done|]. split; [lia | done].
  - destruct (updateOne_updated productIds vendor result productId w (answers k0))
      as (w1 & Hone & Hf1 & Hr1).
    { specialize (Hans 0%nat productId vendor ltac:(cbn; lia)).
      by rewrite !Nat.add_0_r in Hans. }
    erewrite bind_run; [|exact Hone].
    destruct (IH (tally productId (answers k0) result) w1 (S k0) answers)
      as (w' & Hrest & Hf & Hr).
    { intros k pid v Hk. rewrite Hr1, Hf1.
      specialize (Hans (S k) pid v ltac:(cbn; lia)).
      replace (S (fetches w) + k)%nat with (fetches w + S k)%nat by lia.
      rewrite Hans. do 2 f_equal. lia. }
    exists w'. split; [exact Hrest|]. split; [lia | congruence].
Qed.

Lemma bulkUpdateVendor_updated productIds vendor w k0 answers :
  (∀ k productId vendor, (k < length productIds)%nat →
     remote w (fetches w + k) productId vendor
     = Scenario.updated (answers (k0 + k)%nat)) →
  ∃ w', bulkUpdateVendor productIds vendor w
        = (Resolved (tallyEach productIds answers k0 emptyResult), w') ∧
        fetches w' = (fetches w + length productIds)%nat ∧
        remote w' = remote w.
Proof.
  intros Hans.
  destruct (updateEach_updated productIds vendor productIds emptyResult w k0
              answers Hans) as (w1 & Hrun & Hf & Hr).
  unfold bulkUpdateVendor. erewrite bind_run; [|exact Hrun].
  run_M. eexists. split; [reflexivity|]. by cbn.
Qed.

(** One product moves exactly one of the two counters by one. *)
Lemma updateOne_counts productIds vendor result productId w result' w' :
  updateOne productIds vendor result productId w = (result', w') →
  (successCount result' + failureCount result'
   = S (successCount result + failureCount result))%nat.
Proof.
  unfold updateOne, recordFailure. unfold mbind at 1, M_bind at 1. cbv beta.
  destruct (updateProductVendor productId vendor w) as [[response | error] w1].
  - destruct (productUpdate response) as [ues|].
    + destruct ues as [|ue ues]; run_M; repeat case_match;
        intros [= <- <-]; cbn; lia.
    + run_M. intros [= <- <-]. cbn. lia.
  - run_M. intros [= <- <-]. cbn. lia.
Qed.

Lemma updateEach_counts productIds vendor todo : ∀ result w result' w',
  updateEach productIds vendor todo result w = (result', w') →
  (successCount result' + failureCount result'
   = successCount result + failureCount result + length todo)%nat.
Proof.
  induction todo as [|productId rest IH]; intros result w result' w';
    cbn [updateEach].
  - unfold mret, M_ret. intros [= <- <-]. cbn. lia.
  - unfold mbind at 1, M_bind at 1. cbv beta.
    destruct (updateOne productIds vendor result productId w) as [result1 w1] eqn:Hone.
    intros Hrest. apply IH in Hrest. apply updateOne_counts in Hone.
    cbn [length]. lia.
Qed.

(** C10. Whatever the remote service answers, [bulkUpdateVendor] resolves,
    and the counters of its result add up to the number of identifiers it
    was given. *)
Theorem bulkUpdateVendor_counts productIds vendor w :
  ∃ result,
    (bulkUpdateVendor productIds vendor w).1 = Resolved result ∧
    (successCount result + failureCount result = length productIds)%nat.
Proof.
  unfold bulkUpdateVendor. unfold mbind at 1, M_bind at 1. cbv beta.
  destruct (updateEach productIds vendor productIds emptyResult w)
    as [result w1] eqn:Hrun.
  exists result. split; [reflexivity|].
  apply updateEach_counts in Hrun. cbn in Hrun. lia.
Qed.

End ShopifyServiceFacts.

(** ** The job processor *)

Module BulkJobProcessorFacts.
Import Schema BulkJobProcessor.

(** *** The batch loop *)

Lemma slice_batch {A} i (xs : list A) :
  slice i (i + batchSize) xs = take batchSize (drop i xs).
Proof. unfold slice. f_equal. lia. Qed.

Lemma length_batch {A} i (xs : list A) :
  length (slice i (i + batchSize) xs) = (batchSize `min` (length xs - i))%nat.
Proof. rewrite slice_batch, length_take, length_drop. done. Qed.

(** The row of [jobId] after [updateBulkJob], when the table holds one. *)
Lemma updateBulkJob_run jobId updates w job :
  bulkJobs w !! jobId = Some job →
  Storage.updateBulkJob jobId updates w
  = (Some (Storage.applyUpdates updates (clock w) job),
     withBulkJobs
       (<[jobId := Storage.applyUpdates updates (clock w) job]> (bulkJobs w))
       (withEvents (events w ++ [Update jobId updates]) w)).
Proof. intros H. unfold Storage.updateBulkJob. cbn. by rewrite H. Qed.

(** One batch: the loop variables advance by what the call settled to; when
    it resolved, the row gets the new processed count and nothing else. *)
Lemma processBatch_run jobId job service i p w r w1 j :
  service (slice i (i + batchSize) (productIds job)) (targetVendor job) w = (r, w1) →
  bulkJobs w1 !! jobId = Some j →
  let batch := slice i (i + batchSize) (productIds job) in
  ∃ logs, Forall (λ e, isLog e = true) logs ∧
    processBatch jobId job service i p w
    = (advance i batch r p,
       match r with
       | Resolved _ =>
           let n := (BulkJobProcessor.processedCount p + length batch)%nat in
           withBulkJobs
             (<[jobId := Storage.applyUpdates (progressUpdate n) (clock w1) j]>
                (bulkJobs w1))
             (withEvents (events w1 ++ logs ++ [Update jobId (progressUpdate n)]) w1)
       | Thrown _ => withEvents (events w1 ++ logs) w1
       end).
Proof.
  intros Hcall Hrow batch. subst batch. unfold processBatch.
  unfold mbind at 1, M_bind at 1. cbv beta zeta. rewrite Hcall.
  destruct r as [result | error].
  - unfold Storage.updateBulkJob. run_M.
    unfold advance.
    destruct (ShopifyService.userErrors result) as [|ue ues] eqn:Hue;
      destruct (ShopifyService.errors result) as [|e es] eqn:Her;
      cbn; rewrite Hrow; cbn; rewrite <- ?app_assoc, ?app_nil_r; cbn.
    + eexists [_]. split; [|reflexivity]. by repeat constructor.
    + eexists [_; _]. split; [|reflexivity]. by repeat constructor.
    + eexists [_; _]. split; [|reflexivity]. by repeat constructor.
    + eexists [_; _; _]. split; [|reflexivity]. by repeat constructor.
  - run_M. eexists [_]. split; [|reflexivity]. by repeat constructor.
Qed.

Lemma progressed_refl j : progressed j j.
Proof. by repeat split. Qed.

Lemma progressed_trans j1 j2 j3 :
  progressed j1 j2 → progressed j2 j3 → progressed j1 j3.
Proof.
  intros (?&?&?&?&?&?&?&?&?) (?&?&?&?&?&?&?&?&?). repeat split; congruence.
Qed.

Lemma progressed_update n now j :
  progressed j (Storage.applyUpdates (progressUpdate n) now j).
Proof. by repeat split. Qed.

Lemma sameSetting_refl w : sameSetting w w.
Proof. by repeat split. Qed.

Lemma sameSetting_trans w1 w2 w3 :
  sameSetting w1 w2 → sameSetting w2 w3 → sameSetting w1 w3.
Proof.
  intros (?&?&?&?&?&?) (?&?&?&?&?&?). repeat split; congruence.
Qed.

Lemma writtenCounts_app jobId es es' :
  writtenCounts jobId (es ++ es')
  = (writtenCounts jobId es ++ writtenCounts jobId es')%list.
Proof. apply omap_app. Qed.

Lemma writtenStatuses_app jobId es es' :
  writtenStatuses jobId (es ++ es')
  = (writtenStatuses jobId es ++ writtenStatuses jobId es')%list.
Proof. apply omap_app. Qed.

Lemma writtenCounts_none jobId es :
  Forall (λ e, isUpdate e = false) es → writtenCounts jobId es = [].
Proof.
  induction 1 as [|e es He _ IH]; [done|].
  unfold writtenCounts in *. cbn. rewrite IH. by destruct e.
Qed.

Lemma writtenStatuses_none jobId es :
  Forall (λ e, isUpdate e = false) es → writtenStatuses jobId es = [].
Proof.
  induction 1 as [|e es He _ IH]; [done|].
  unfold writtenStatuses in *. cbn. rewrite IH. by destruct e.
Qed.

Lemma logs_no_update es :
  Forall (λ e, isLog e = true) es → Forall (λ e, isUpdate e = false) es.
Proof. intros H. eapply Forall_impl; [exact H|]. by intros []. Qed.

Lemma writtenCounts_update jobId updates :
  writtenCounts jobId [Update jobId updates]
  = match setProcessedCount updates with Some n => [n] | None => [] end.
Proof. unfold writtenCounts. cbn. by rewrite String.eqb_refl. Qed.

Lemma writtenStatuses_update jobId updates :
  writtenStatuses jobId [Update jobId updates]
  = match setStatus updates with Some st => [st] | None => [] end.
Proof. unfold writtenStatuses. cbn. by rewrite String.eqb_refl. Qed.

(** The processed count only grows along the batches. *)
Lemma processedCount_advance i batch r p :
  BulkJobProcessor.processedCount (advance i batch r p)
  = (BulkJobProcessor.processedCount p + length batch)%nat.
Proof. by destruct r. Qed.

Lemma processedCount_replay ids rs : ∀ i p,
  (BulkJobProcessor.processedCount p
   ≤ BulkJobProcessor.processedCount (replay ids i rs p))%nat.
Proof.
  induction rs as [|r rs IH]; intros i p; cbn [replay]; [done|].
  etrans; [|apply IH]. rewrite processedCount_advance. lia.
Qed.

Lemma list_sum_cons a l : list_sum (a :: l) = (a + list_sum l)%nat.
Proof. reflexivity. Qed.

(** The batches cover the list from [i] on when the fuel is enough, and
    [length ids] is enough from 0. *)
Lemma batchesFrom_total ids fuel : ∀ i,
  (length ids ≤ i + fuel)%nat →
  list_sum (map length (batchesFrom fuel ids i)) = (length ids - i)%nat ∧
  concat (batchesFrom fuel ids i) = drop i ids.
Proof.
  induction fuel as [|fuel IH]; intros i Hfuel; cbn [batchesFrom].
  - cbn. split; [lia|]. symmetry. apply drop_ge. lia.
  - destruct (Nat.ltb_spec i (length ids)) as [Hlt | Hge].
    + destruct (IH (i + batchSize)%nat) as [IHsum IHcat]; [unfold batchSize; lia|].
      cbn [map concat]. rewrite list_sum_cons, IHsum, IHcat, length_batch. split.
      * unfold batchSize. lia.
      * rewrite slice_batch, <- drop_drop. apply take_drop.
    + cbn. split; [lia|]. symmetry. apply drop_ge. lia.
Qed.

(** More fuel than needed changes nothing: the loop ends by its condition. *)
Lemma batchLoop_fuel jobId job service fuel extra : ∀ i p w,
  (length (productIds job) ≤ i + fuel)%nat →
  batchLoop (fuel + extra) jobId job service i p w
  = batchLoop fuel jobId job service i p w.
Proof.
  induction fuel as [|fuel IH]; intros i p w Hfuel.
  - cbn [batchLoop Nat.add]. destruct extra as [|extra]; [done|].
    cbn [batchLoop]. destruct (Nat.ltb_spec i (length (productIds job))); [lia | done].
  - cbn [batchLoop Nat.add].
    destruct (Nat.ltb_spec i (length (productIds job))); [|done].
    unfold mbind, M_bind.
    destruct (processBatch jobId job service i p w) as [p1 w1].
    apply IH. unfold batchSize. lia.
Qed.

(** The counters after the loop, from the batches and what the calls
    settled to. *)
Lemma replay_counts ids fuel : ∀ i rs p,
  length rs = length (batchesFrom fuel ids i) →
  let p' := replay ids i rs p in
  BulkJobProcessor.processedCount p'
    = (BulkJobProcessor.processedCount p
       + list_sum (map length (batchesFrom fuel ids i)))%nat ∧
  failureCount p'
    = (failureCount p
       + list_sum (zip_with failuresOf (batchesFrom fuel ids i) rs))%nat ∧
  successCount p' = (successCount p + list_sum (map successesOf rs))%nat.
Proof.
  induction fuel as [|fuel IH]; intros i rs p Hlen; cbn [batchesFrom] in *.
  - destruct rs; [|done]. cbn. lia.
  - destruct (i <? length ids)%nat.
    + destruct rs as [|r rs]; [done|]. cbn [length] in Hlen.
      destruct (IH (i + batchSize)%nat rs
                  (advance i (slice i (i + batchSize) ids) r p)) as (H1 & H2 & H3);
        [lia|].
      cbn [replay map zip_with]. rewrite H1, H2, H3, !list_sum_cons.
      destruct r; cbn; lia.
    + destruct rs; [|done]. cbn. lia.
Qed.

Section Loop.
Variable jobId : string.
Variable job : BulkJob.
Variable service : ShopifyService.Service.
Hypothesis service_calls_only : ShopifyService.callsOnly service.

(** The loop as a whole: its variables end as [replay] says, one outcome per
    batch; the row of the job is still there and has only progressed; the
    counts written to it ascend from the processed count at the start to the
    one at the end; no status is written. *)
Lemma batchLoop_run fuel : ∀ i p w j,
  bulkJobs w !! jobId = Some j →
  let rs := outcomes fuel jobId job service i p w in
  let p' := replay (productIds job) i rs p in
  ∃ w' j' new,
    batchLoop fuel jobId job service i p w = (p', w') ∧
    length rs = length (batchesFrom fuel (productIds job) i) ∧
    bulkJobs w' !! jobId = Some j' ∧ progressed j j' ∧
    events w' = (events w ++ new)%list ∧
    writtenStatuses jobId new = [] ∧
    StronglySorted le (writtenCounts jobId new) ∧
    Forall (λ c, BulkJobProcessor.processedCount p ≤ c
                 ≤ BulkJobProcessor.processedCount p')%nat
           (writtenCounts jobId new) ∧
    sameSetting w w'.
Proof.
  induction fuel as [|fuel IH]; intros i p w j Hrow; cbn zeta.
  - exists w, j, []. cbn. rewrite app_nil_r.
    repeat split; auto using progressed_refl; constructor.
  - cbn [batchLoop outcomes batchesFrom replay].
    destruct (i <? length (productIds job))%nat eqn:Hi.
    2:{ exists w, j, []. cbn. rewrite app_nil_r.
        repeat split; auto using progressed_refl; constructor. }
    set (batch := slice i (i + batchSize) (productIds job)).
    destruct (service batch (targetVendor job) w) as [r w1] eqn:Hcall.
    destruct (service_calls_only batch (targetVendor job) w)
      as [Hsame (new1 & Hev1 & Hnew1)].
    rewrite Hcall in Hsame, Hev1. cbn [snd fst] in *.
    destruct Hsame as (Hjobs1 & Hset1 & Hguard1 & Hsched1 & Hlim1 & Hrem1 & Hrnd1).
    assert (Hrow1 : bulkJobs w1 !! jobId = Some j) by (by rewrite Hjobs1).
    destruct (processBatch_run jobId job service i p w r w1 j Hcall Hrow1)
      as (logs & Hlogs & Hbatch). fold batch in Hbatch.
    unfold mbind at 1, M_bind at 1. cbv beta. rewrite Hbatch.
    set (p1 := advance i batch r p) in *.
    set (n := (BulkJobProcessor.processedCount p + length batch)%nat) in *.
    assert (Hp1 : BulkJobProcessor.processedCount p1 = n)
      by apply processedCount_advance.
    destruct r as [result | error].
    + set (w2 := withBulkJobs _ _) in *.
      assert (Hrow2 : bulkJobs w2 !! jobId
                      = Some (Storage.applyUpdates (progressUpdate n) (clock w1) j))
        by apply lookup_insert_eq.
      destruct (IH (i + batchSize)%nat p1 w2 _ Hrow2)
        as (w' & j' & new & Hloop & Hlen & Hrow' & Hprog & Hev & Hst & Hsorted & Hbound & Hset).
      exists w', j', (new1 ++ logs ++ [Update jobId (progressUpdate n)] ++ new)%list.
      cbn [replay length]. fold batch p1.
      split; [exact Hloop|]. split; [by rewrite Hlen|].
      split; [exact Hrow'|].
      split; [eapply progressed_trans; [apply progressed_update | exact Hprog]|].
      split; [rewrite Hev; subst w2; cbn; rewrite Hev1; by rewrite <- !app_assoc|].
      rewrite !writtenStatuses_app, !writtenCounts_app.
      rewrite (writtenStatuses_none _ _ Hnew1), (writtenCounts_none _ _ Hnew1).
      rewrite (writtenStatuses_none _ _ (logs_no_update _ Hlogs)),
        (writtenCounts_none _ _ (logs_no_update _ Hlogs)).
      rewrite writtenStatuses_update, writtenCounts_update.
      cbn [progressUpdate setStatus setProcessedCount app].
      split; [exact Hst|].
      rewrite Hp1 in Hbound.
      assert (Hn : (n ≤ BulkJobProcessor.processedCount
                          (replay (productIds job) (i + batchSize)
                             (outcomes fuel jobId job service (i + batchSize) p1 w2) p1))%nat).
      { rewrite <- Hp1. apply processedCount_replay. }
      split.
      { constructor; [exact Hsorted|].
        eapply Forall_impl; [exact Hbound|]. cbn. lia. }
      split.
      { constructor; [subst n; lia|].
        eapply Forall_impl; [exact Hbound|]. cbn. subst n. lia. }
      eapply sameSetting_trans; [|exact Hset]. subst w2. by repeat split.
    + set (w2 := withEvents _ _) in *.
      assert (Hrow2 : bulkJobs w2 !! jobId = Some j) by exact Hrow1.
      destruct (IH (i + batchSize)%nat p1 w2 _ Hrow2)
        as (w' & j' & new & Hloop & Hlen & Hrow' & Hprog & Hev & Hst & Hsorted & Hbound & Hset).
      exists w', j', (new1 ++ logs ++ new)%list.
      cbn [replay length]. fold batch p1.
      split; [exact Hloop|]. split; [by rewrite Hlen|].
      split; [exact Hrow'|]. split; [exact Hprog|].
      split; [rewrite Hev; subst w2; cbn; rewrite Hev1; by rewrite <- !app_assoc|].
      rewrite !writtenStatuses_app, !writtenCounts_app.
      rewrite (writtenStatuses_none _ _ Hnew1), (writtenCounts_none _ _ Hnew1).
      rewrite (writtenStatuses_none _ _ (logs_no_update _ Hlogs)),
        (writtenCounts_none _ _ (logs_no_update _ Hlogs)). cbn [app].
      split; [exact Hst|]. split; [exact Hsorted|].
      rewrite Hp1 in Hbound. split.
      * eapply Forall_impl; [exact Hbound|]. cbn. subst n. lia.
      * eapply sameSetting_trans; [|exact Hset]. subst w2. by repeat split.
Qed.

End Loop.

(** *** A run of the processing routine *)

Section Run.
Variable createShopifyService : string → string → ShopifyService.Service.

Lemma markRunning_run jobId job w :
  bulkJobs w !! jobId = Some job →
  ∃ line, isLog line = true ∧
    markRunning jobId job w
    = (tt,
       withBulkJobs
         (<[jobId := Storage.applyUpdates runningUpdate (clock w) job]> (bulkJobs w))
         (withEvents (events w ++ [line; Update jobId runningUpdate]) w)).
Proof.
  intros Hrow. unfold markRunning, Storage.updateBulkJob. run_M. rewrite Hrow.
  eexists. split; [|cbn; unfold withBulkJobs, withEvents; cbn;
                    rewrite <- app_assoc; reflexivity]. done.
Qed.

Lemma completeJob_run jobId job p w j :
  bulkJobs w !! jobId = Some j →
  completeJob jobId job p w
  = (tt,
     withBulkJobs
       (<[jobId := Storage.applyUpdates (completion p (clock w)) (clock w) j]>
          (bulkJobs w))
       (withEvents
          (events w ++ Update jobId (completion p (clock w))
             :: completionLogs jobId job p) w)).
Proof.
  intros Hrow. unfold completeJob, completionLogs.
  destruct (0 <? failureCount p)%nat;
    unfold Storage.updateBulkJob; run_M; rewrite Hrow; cbn;
    unfold withBulkJobs, withEvents; cbn; rewrite <- ?app_assoc; reflexivity.
Qed.

(** A run whose job is in the table and whose shop has a token goes through
    every batch and ends with the completing update. *)
Lemma tryBlock_completes jobId job settings token w :
  bulkJobs w !! jobId = Some job →
  shopSettings w !! shopDomain job = Some settings →
  or_else (accessToken settings) None = Some token →
  ShopifyService.callsOnly (createShopifyService (shopDomain job) token) →
  let p := finalProgress createShopifyService jobId job token w in
  ∃ w' final mid now,
    tryBlock createShopifyService jobId job w = (tt, w') ∧
    length (jobOutcomes createShopifyService jobId job token w)
      = length (batchesOf job) ∧
    bulkJobs w' !! jobId = Some final ∧
    status final = finalStatus p ∧
    Schema.processedCount final = BulkJobProcessor.processedCount p ∧
    errorMessage final = errorDigest p ∧
    completedAt final = Some now ∧
    totalCount final = totalCount job ∧
    productIds final = productIds job ∧
    events w' = (events w ++ mid ++ Update jobId (completion p now)
                   :: completionLogs jobId job p)%list ∧
    writtenStatuses jobId mid = [RUNNING] ∧
    StronglySorted le (writtenCounts jobId mid) ∧
    Forall (λ c, c ≤ BulkJobProcessor.processedCount p)%nat
           (writtenCounts jobId mid) ∧
    sameSetting w w'.
Proof.
  intros Hrow Hset Htok Hcalls p.
  destruct (markRunning_run jobId job w Hrow) as (line & Hline & Hmr).
  subst p. unfold finalProgress, jobOutcomes. rewrite Hmr. cbn [snd].
  unfold tryBlock. erewrite bind_run; [|exact Hmr].
  set (wr := withBulkJobs _ _) in *.
  set (p := replay _ _ _ _).
  erewrite bind_run; [|reflexivity].
  replace (shopSettings wr) with (shopSettings w) by reflexivity.
  rewrite Hset. cbn [mbind option_bind]. rewrite Htok. cbv zeta.
  destruct (batchLoop_run jobId job _ Hcalls (length (productIds job)) 0
              initialProgress wr _ (lookup_insert_eq _ _ _))
    as (w2 & j2 & new & Hloop & Hlen & Hrow2 & Hprog & Hev & Hst & Hsorted & Hbound & Hsame).
  fold p in Hloop, Hbound.
  erewrite bind_run; [|exact Hloop].
  rewrite (completeJob_run jobId job p w2 j2 Hrow2).
  destruct Hprog as (_ & _ & Hids & _ & _ & _ & Htotal & _ & _).
  eexists _, _, ([line; Update jobId runningUpdate] ++ new)%list, (clock w2).
  split; [reflexivity|]. split; [exact Hlen|]. cbn [bulkJobs withBulkJobs].
  split; [apply lookup_insert_eq|].
  split; [reflexivity|]. split; [reflexivity|]. split; [reflexivity|].
  split; [reflexivity|]. split; [exact Htotal|]. split; [exact Hids|].
  split; [cbn; rewrite Hev; subst wr; cbn; by rewrite <- !app_assoc|].
  rewrite writtenStatuses_app, writtenCounts_app.
  change [line; Update jobId runningUpdate]
    with ([line] ++ [Update jobId runningUpdate])%list.
  rewrite writtenStatuses_app, writtenCounts_app.
  rewrite writtenStatuses_update, writtenCounts_update.
  assert (Hl : Forall (λ e, isUpdate e = false) [line])
    by (apply logs_no_update; by constructor).
  rewrite (writtenStatuses_none _ _ Hl), (writtenCounts_none _ _ Hl), Hst.
  cbn [runningUpdate setStatus setProcessedCount app].
  split; [reflexivity|]. split; [exact Hsorted|]. split.
  - eapply Forall_impl; [exact Hbound|]. cbn. lia.
  - eapply sameSetting_trans; [|cbn; exact Hsame]. subst wr. by repeat split.
Qed.

(** The routine as a whole: the [try] block, then the guard is released. *)
Lemma processJobBody_run jobId job w wt :
  bulkJobs w !! jobId = Some job →
  tryBlock createShopifyService jobId job w = (tt, wt) →
  processJobBody createShopifyService jobId w
  = (tt, withProcessingJobs (processingJobs wt ∖ {[jobId]}) wt).
Proof.
  intros Hrow Htry. unfold processJobBody.
  erewrite bind_run; [|unfold Storage.getBulkJob; by rewrite Hrow].
  cbv beta iota. erewrite bind_run; [|exact Htry]. reflexivity.
Qed.

(** The counters at the end of the loop are the sums over the batches. *)
Lemma finalProgress_counts jobId job token w :
  length (jobOutcomes createShopifyService jobId job token w)
    = length (batchesOf job) →
  let rs := jobOutcomes createShopifyService jobId job token w in
  let p := finalProgress createShopifyService jobId job token w in
  BulkJobProcessor.processedCount p = length (productIds job) ∧
  failureCount p = list_sum (zip_with failuresOf (batchesOf job) rs) ∧
  successCount p = list_sum (map successesOf rs).
Proof.
  intros Hlen rs p.
  destruct (replay_counts (productIds job) (length (productIds job)) 0 rs
              initialProgress Hlen) as (H1 & H2 & H3).
  destruct (batchesFrom_total (productIds job) (length (productIds job)) 0
              ltac:(lia)) as [Hsum _].
  rewrite Hsum in H1. cbn in H1, H2, H3.
  subst p. unfold finalProgress, batchesOf. fold rs.
  repeat split; [lia | exact H2 | exact H3].
Qed.

(** C1. For a job in the table whose shop has a token, the routine goes
    through every batch, and the status it leaves is [SUCCESS] exactly when
    the failure count summed over the batches is 0, and [FAILED] otherwise;
    in both cases the closing log line records how many items succeeded. *)
Theorem final_status_iff jobId job settings token w :
  bulkJobs w !! jobId = Some job →
  shopSettings w !! shopDomain job = Some settings →
  or_else (accessToken settings) None = Some token →
  ShopifyService.callsOnly (createShopifyService (shopDomain job) token) →
  let rs := jobOutcomes createShopifyService jobId job token w in
  let p := finalProgress createShopifyService jobId job token w in
  ∃ w' final,
    processJobBody createShopifyService jobId w = (tt, w') ∧
    bulkJobs w' !! jobId = Some final ∧
    length rs = length (batchesOf job) ∧
    failureCount p = list_sum (zip_with failuresOf (batchesOf job) rs) ∧
    successCount p = list_sum (map successesOf rs) ∧
    (status final = SUCCESS ↔ failureCount p = 0%nat) ∧
    (failureCount p ≠ 0%nat → status final = FAILED) ∧
    Log INFO "Job processing completed"
      [("jobId", MStr jobId);
       ("totalCount", MNat (totalCount job));
       ("processedCount", MNat (BulkJobProcessor.processedCount p));
       ("successCount", MNat (successCount p));
       ("failureCount", MNat (failureCount p));
       ("hasErrors", MBool (0 <? length (allErrors p))%nat)] ∈ events w'.
Proof.
  intros Hrow Hset Htok Hcalls rs p.
  destruct (tryBlock_completes jobId job settings token w Hrow Hset Htok Hcalls)
    as (wt & final & mid & now & Htry & Hlen & Hfinal & Hst & _ & _ & _ & _ & _
        & Hev & _).
  destruct (finalProgress_counts jobId job token w Hlen) as (_ & Hf & Hs).
  fold p in Hst, Hev, Hf, Hs. fold rs in Hlen, Hf, Hs.
  eexists _, final. split; [exact (processJobBody_run _ _ _ _ Hrow Htry)|].
  cbn [bulkJobs withProcessingJobs events].
  split; [exact Hfinal|]. split; [exact Hlen|].
  split; [exact Hf|]. split; [exact Hs|].
  rewrite Hst. unfold finalStatus.
  split; [|split].
  - destruct (Nat.eqb_spec (failureCount p) 0); split; done.
  - intros Hne. by destruct (Nat.eqb_spec (failureCount p) 0).
  - rewrite Hev. unfold completionLogs.
    apply elem_of_app; right. apply elem_of_app; right.
    apply elem_of_cons; right. apply elem_of_cons; by left.
Qed.

(** [cancelJob] leaves the processed count of the row as it is. *)
Lemma cancelJob_keeps_count jobId w :
  Schema.processedCount <$> (bulkJobs (cancelJob jobId w).2 !! jobId)
  = Schema.processedCount <$> (bulkJobs w !! jobId).
Proof.
  unfold cancelJob, Storage.getBulkJob. run_M.
  destruct (bulkJobs w !! jobId) as [job|] eqn:Hrow; cbn; [|by rewrite Hrow].
  destruct (decide (status job ≠ RUNNING ∧ status job ≠ PENDING)); cbn;
    [by rewrite Hrow|].
  unfold releaseGuard, Storage.updateBulkJob. run_M. rewrite Hrow. cbn.
  by rewrite lookup_insert_eq.
Qed.

(** C2, amended. In a run that goes through every batch of a job whose total
    count is the length of its product list (as [createBulkJob] sets it), the
    processed counts written to the row, by the progress updates and then by
    the completing update, never decrease; the last one is the total count,
    and the row ends in a terminal status with that processed count.
    [cancelJob] leaves the processed count as it is. *)
Theorem processedCount_ascends jobId job settings token w :
  bulkJobs w !! jobId = Some job →
  shopSettings w !! shopDomain job = Some settings →
  or_else (accessToken settings) None = Some token →
  ShopifyService.callsOnly (createShopifyService (shopDomain job) token) →
  totalCount job = length (productIds job) →
  ∃ w' final new,
    processJobBody createShopifyService jobId w = (tt, w') ∧
    events w' = (events w ++ new)%list ∧
    StronglySorted le (writtenCounts jobId new) ∧
    last (writtenCounts jobId new) = Some (totalCount job) ∧
    bulkJobs w' !! jobId = Some final ∧
    (status final = SUCCESS ∨ status final = FAILED) ∧
    Schema.processedCount final = totalCount final ∧
    (∀ w0, Schema.processedCount <$> (bulkJobs (cancelJob jobId w0).2 !! jobId)
           = Schema.processedCount <$> (bulkJobs w0 !! jobId)).
Proof.
  intros Hrow Hset Htok Hcalls Htotal.
  destruct (tryBlock_completes jobId job settings token w Hrow Hset Htok Hcalls)
    as (wt & final & mid & now & Htry & Hlen & Hfinal & Hst & Hpc & _ & _ & Htc & _
        & Hev & _ & Hsorted & Hbound & _).
  destruct (finalProgress_counts jobId job token w Hlen) as (Hp & _ & _).
  set (p := finalProgress createShopifyService jobId job token w) in *.
  eexists _, final, _. split; [exact (processJobBody_run _ _ _ _ Hrow Htry)|].
  cbn [bulkJobs withProcessingJobs events].
  split; [exact Hev|].
  change (Update jobId (completion p now) :: completionLogs jobId job p)
    with ([Update jobId (completion p now)] ++ completionLogs jobId job p)%list.
  rewrite !writtenCounts_app, writtenCounts_update.
  assert (Hl : writtenCounts jobId (completionLogs jobId job p) = []).
  { apply writtenCounts_none. unfold completionLogs.
    destruct (0 <? failureCount p)%nat; by repeat constructor. }
  rewrite Hl, app_nil_r. cbn [completion setProcessedCount].
  split; [|split; [|split; [exact Hfinal | split; [|split]]]].
  5: (intros w0; apply cancelJob_keeps_count).
  - clear -Hsorted Hbound. induction Hsorted as [|c l Hs IH Hc]; cbn.
    + repeat constructor.
    + apply Forall_cons in Hbound as [Hcp Hbound].
      constructor; [by apply IH|]. apply Forall_app. split; [done|].
      by constructor.
  - rewrite last_snoc. f_equal. lia.
  - rewrite Hst. unfold finalStatus. destruct (failureCount p =? 0)%nat; auto.
  - rewrite Hpc, Htc. lia.
Qed.

(** C8, amended. After a run that goes through every batch, the error
    message of the row is absent when no error line was collected; otherwise
    it is the failure count, then the first error lines, five at most,
    joined by "; ", and then "..." when there were more than five. Nothing
    in it tells how many lines were left out. *)
Theorem error_digest_bounded jobId job settings token w :
  bulkJobs w !! jobId = Some job →
  shopSettings w !! shopDomain job = Some settings →
  or_else (accessToken settings) None = Some token →
  ShopifyService.callsOnly (createShopifyService (shopDomain job) token) →
  let p := finalProgress createShopifyService jobId job token w in
  ∃ w' final shown,
    processJobBody createShopifyService jobId w = (tt, w') ∧
    bulkJobs w' !! jobId = Some final ∧
    shown = take 5 (allErrors p) ∧
    (length shown ≤ 5)%nat ∧
    errorMessage final
    = match allErrors p with
      | [] => None
      | _ :: _ =>
          Some (showNat (failureCount p) ++ " products failed. Errors: "
                ++ join "; " shown
                ++ (if (5 <? length (allErrors p))%nat then "..." else ""))
      end.
Proof.
  intros Hrow Hset Htok Hcalls p.
  destruct (tryBlock_completes jobId job settings token w Hrow Hset Htok Hcalls)
    as (wt & final & mid & now & Htry & _ & Hfinal & _ & _ & Hmsg & _).
  fold p in Hmsg.
  eexists _, final, _. split; [exact (processJobBody_run _ _ _ _ Hrow Htry)|].
  cbn [bulkJobs withProcessingJobs].
  split; [exact Hfinal|]. split; [reflexivity|].
  split; [rewrite length_take; lia|].
  rewrite Hmsg. unfold errorDigest, slice. rewrite drop_0.
  by destruct (allErrors p).
Qed.

End Run.

(** C1 on a job of three products of which the second fails validation. *)
Lemma final_status_iff_witness :
  ∃ w' final,
    processJobBody ShopifyService.createShopifyService "job-1"
      (Scenario.ready ["gid://1"; "gid://2"; "gid://3"]
         [Scenario.updated []; Scenario.updated (Scenario.complaints 1)])
    = (tt, w') ∧
    bulkJobs w' !! "job-1" = Some final ∧
    status final = FAILED.
Proof.
  destruct (final_status_iff ShopifyService.createShopifyService "job-1"
              (Scenario.jobOf ["gid://1"; "gid://2"; "gid://3"])
              {| accessToken := Some "shpat_1" |} "shpat_1"
              (Scenario.ready ["gid://1"; "gid://2"; "gid://3"]
                 [Scenario.updated []; Scenario.updated (Scenario.complaints 1)])
              eq_refl eq_refl eq_refl
              (ShopifyServiceFacts.bulkUpdateVendor_callsOnly _ _))
    as (w' & final & Hrun & Hrow & _ & _ & _ & _ & Hfailed & _).
  exists w', final. split; [exact Hrun|]. split; [exact Hrow|].
  apply Hfailed. vm_compute. discriminate.
Defined.

(** C2, amended, on the same job. *)
Lemma processedCount_ascends_witness :
  ∃ w' final new,
    processJobBody ShopifyService.createShopifyService "job-1"
      (Scenario.ready ["gid://1"; "gid://2"; "gid://3"]
         [Scenario.updated []; Scenario.updated (Scenario.complaints 1)])
    = (tt, w') ∧
    events w' = new ∧
    StronglySorted le (writtenCounts "job-1" new) ∧
    last (writtenCounts "job-1" new) = Some 3%nat ∧
    bulkJobs w' !! "job-1" = Some final ∧
    (status final = SUCCESS ∨ status final = FAILED) ∧
    Schema.processedCount final = totalCount final ∧
    (∀ w0, Schema.processedCount <$> (bulkJobs (cancelJob "job-1" w0).2 !! "job-1")
           = Schema.processedCount <$> (bulkJobs w0 !! "job-1")).
Proof.
  exact (processedCount_ascends ShopifyService.createShopifyService "job-1"
           (Scenario.jobOf ["gid://1"; "gid://2"; "gid://3"])
           {| accessToken := Some "shpat_1" |} "shpat_1"
           (Scenario.ready ["gid://1"; "gid://2"; "gid://3"]
              [Scenario.updated []; Scenario.updated (Scenario.complaints 1)])
           eq_refl eq_refl eq_refl
           (ShopifyServiceFacts.bulkUpdateVendor_callsOnly _ _) eq_refl).
Defined.

(** C2 as worded fails: a pending job of three products that is cancelled
    is [FAILED], a terminal status, with processed count 0. *)
Lemma cancelled_before_the_end :
  ∃ job' w',
    cancelJob "job-1" (Scenario.holding (Scenario.aJob PENDING 0) {["job-1"]})
      = (Resolved (Some job'), w') ∧
    bulkJobs w' !! "job-1" = Some job' ∧
    status job' = FAILED ∧
    Schema.processedCount job' = 0%nat ∧ totalCount job' = 3%nat ∧
    Schema.processedCount job' ≠ totalCount job'.
Proof.
  eexists _, _. split; [vm_compute; reflexivity|].
  repeat split; try (vm_compute; reflexivity). vm_compute. discriminate.
Qed.

(** C8, amended, on a job of one product that gets seven user errors. *)
Lemma error_digest_bounded_witness :
  ∃ w' final shown,
    processJobBody ShopifyService.createShopifyService "job-1"
      (Scenario.ready ["gid://1"] [Scenario.updated (Scenario.complaints 7)])
    = (tt, w') ∧
    bulkJobs w' !! "job-1" = Some final ∧
    length shown = 5%nat ∧
    errorMessage final
    = Some ("1 products failed. Errors: " ++ join "; " shown ++ "...").
Proof.
  destruct (error_digest_bounded ShopifyService.createShopifyService "job-1"
              (Scenario.jobOf ["gid://1"])
              {| accessToken := Some "shpat_1" |} "shpat_1"
              (Scenario.ready ["gid://1"] [Scenario.updated (Scenario.complaints 7)])
              eq_refl eq_refl eq_refl
              (ShopifyServiceFacts.bulkUpdateVendor_callsOnly _ _))
    as (w' & final & shown & Hrun & Hrow & Hshown & _ & Hmsg).
  exists w', final, shown. split; [exact Hrun|]. split; [exact Hrow|].
  split; [rewrite Hshown; vm_compute; reflexivity|].
  rewrite Hmsg. reflexivity.
Defined.

(** C8 as worded fails: one product with six user errors and the same
    product with seven give the same error message, although one line is
    left out of it in the first run and two in the second. *)
Lemma digest_hides_how_many :
  let run n :=
    (processJobBody ShopifyService.createShopifyService "job-1"
       (Scenario.ready ["gid://1"] [Scenario.updated (Scenario.complaints n)])).2 in
  let lines n :=
    length (allErrors
              (finalProgress ShopifyService.createShopifyService "job-1"
                 (Scenario.jobOf ["gid://1"]) "shpat_1"
                 (Scenario.ready ["gid://1"]
                    [Scenario.updated (Scenario.complaints n)]))) in
  (lines 6%nat - 5 = 1)%nat ∧ (lines 7%nat - 5 = 2)%nat ∧
  errorMessage <$> (bulkJobs (run 6%nat) !! "job-1")
    = errorMessage <$> (bulkJobs (run 7%nat) !! "job-1") ∧
  errorMessage <$> (bulkJobs (run 6%nat) !! "job-1")
    = Some (Some "1 products failed. Errors: Product gid://1: error 1 (field: vendor); Product gid://1: error 2 (field: vendor); Product gid://1: error 3 (field: vendor); Product gid://1: error 4 (field: vendor); Product gid://1: error 5 (field: vendor)...").
Proof. repeat split; vm_compute; reflexivity. Qed.


(** *** Runs in which every request is answered with an update *)

Lemma outcomes_updated jobId job shopDomain token answers fuel : ∀ i p w k0 j,
  bulkJobs w !! jobId = Some j →
  (∀ k productId vendor, (k < length (productIds job) - i)%nat →
     remote w (fetches w + k) productId vendor
     = Scenario.updated (answers (k0 + k)%nat)) →
  outcomes fuel jobId job
    (ShopifyService.createShopifyService shopDomain token) i p w
  = outcomesWhenUpdated fuel (productIds job) i answers k0.
Proof.
  induction fuel as [|fuel IH]; intros i p w k0 j Hrow Hans;
    cbn [outcomes outcomesWhenUpdated]; [done|].
  destruct (Nat.ltb_spec i (length (productIds job))) as [Hi | _]; [|done].
  cbv zeta. set (batch := slice i (i + batchSize) (productIds job)).
  assert (Hlen : length batch = (batchSize `min` (length (productIds job) - i))%nat)
    by apply length_batch.
  destruct (ShopifyServiceFacts.bulkUpdateVendor_updated batch (targetVendor job)
              w k0 answers) as (w1 & Hcall & Hf1 & Hr1).
  { intros k pid v Hk. apply Hans. lia. }
  destruct (ShopifyServiceFacts.bulkUpdateVendor_callsOnly shopDomain token batch
              (targetVendor job) w) as [(Hjobs1 & _) _].
  unfold ShopifyService.createShopifyService in *. rewrite Hcall in Hjobs1.
  cbn [snd] in Hjobs1.
  assert (Hrow1 : bulkJobs w1 !! jobId = Some j) by (by rewrite Hjobs1).
  destruct (processBatch_run jobId job ShopifyService.bulkUpdateVendor i p w _ w1 j
              Hcall Hrow1) as (logs & _ & Hbatch).
  fold batch in Hbatch. rewrite Hbatch, Hcall. cbn [fst]. f_equal.
  eapply IH; [apply lookup_insert_eq|].
  intros k pid v Hk. cbn [fetches remote withBulkJobs withEvents].
  rewrite Hr1, Hf1, Hlen.
  assert (batchSize ≤ length (productIds job) - i)%nat by (unfold batchSize in *; lia).
  rewrite Nat.min_l by done.
  replace (fetches w + batchSize + k)%nat with (fetches w + (batchSize + k))%nat by lia.
  rewrite Hans by (unfold batchSize in *; lia). do 2 f_equal. lia.
Qed.

Lemma append_empty_r (s : string) : s ++ "" = s.
Proof.
  induction s as [|c s IH]; [done|].
  change (String c (s ++ "") = String c s). by rewrite IH.
Qed.

(** *** The 25-item scenario *)

Lemma createJob_run newId jobData w :
  newId ∉ processingJobs w →
  createJob newId jobData w
  = (Storage.newRow newId jobData (clock w),
     withScheduled (scheduled w ++ [newId])
       (withProcessingJobs ({[newId]} ∪ processingJobs w)
          (withBulkJobs
             (<[newId := Storage.newRow newId jobData (clock w)]> (bulkJobs w))
             w))).
Proof.
  intros Hguard. unfold createJob, Storage.createBulkJob, processJob. run_M.
  by destruct (decide (newId ∈ processingJobs w)).
Qed.

(** C9. A job is created on 25 product identifiers and its routine runs;
    the remote service answers the 13th request with one user error and the
    24 others with a plain update. Then the batches have 10, 10 and 5
    products, and the job ends [FAILED] with processed count 25, failure
    count 1, success count 24, and an error message made of one line, which
    names the 13th product. *)
Theorem scenario_25_items w newId jobData settings token ue :
  length (insProductIds jobData) = 25%nat →
  newId ∉ processingJobs w → scheduled w = [] →
  shopSettings w !! insShopDomain jobData = Some settings →
  or_else (accessToken settings) None = Some token →
  (∀ k productId vendor, (k < 25)%nat →
     remote w (fetches w + k) productId vendor
     = Scenario.updated (if (k =? 12)%nat then [ue] else [])) →
  ∃ job w1 w2 final item13,
    createJob newId jobData w = (job, w1) ∧
    runScheduled ShopifyService.createShopifyService w1 = (tt, w2) ∧
    map length (batchesOf job) = [10; 10; 5]%nat ∧
    insProductIds jobData !! 12%nat = Some item13 ∧
    finalProgress ShopifyService.createShopifyService newId job token
      (withScheduled [] w1)
    = {| BulkJobProcessor.processedCount := 25; successCount := 24;
         failureCount := 1;
         allErrors :=
           ["Product " ++ item13 ++ ": " ++ Remote.message ue
              ++ " (field: " ++ Remote.field ue ++ ")"] |} ∧
    bulkJobs w2 !! newId = Some final ∧
    Schema.processedCount final = 25%nat ∧
    totalCount final = 25%nat ∧
    status final = FAILED ∧
    errorMessage final
    = Some ("1 products failed. Errors: " ++ "Product " ++ item13 ++ ": "
            ++ Remote.message ue ++ " (field: " ++ Remote.field ue ++ ")").
Proof.
  intros Hlen Hguard Hsched Hset Htok Hans.
  set (job := Storage.newRow newId jobData (clock w)).
  rewrite (createJob_run newId jobData w Hguard). fold job.
  set (w1 := withScheduled _ _).
  set (ws := withScheduled [] w1).
  assert (Hrow : bulkJobs ws !! newId = Some job) by apply lookup_insert_eq.
  assert (Hnext : runScheduled ShopifyService.createShopifyService w1
                  = processJobBody ShopifyService.createShopifyService newId ws).
  { unfold runScheduled. subst w1. cbn [scheduled withScheduled].
    rewrite Hsched. reflexivity. }
  destruct (tryBlock_completes ShopifyService.createShopifyService newId job
              settings token ws Hrow Hset Htok
              (ShopifyServiceFacts.bulkUpdateVendor_callsOnly _ _))
    as (wt & final & mid & now & Htry & _ & Hfinal & Hst & Hpc & Hmsg & _ & Htc & _).
  assert (Hids : ∃ item13, insProductIds jobData !! 12%nat = Some item13).
  { apply lookup_lt_is_Some_2. lia. }
  destruct Hids as [item13 Hitem].
  assert (Hp : finalProgress ShopifyService.createShopifyService newId job token ws
    = {| BulkJobProcessor.processedCount := 25; successCount := 24;
         failureCount := 1;
         allErrors :=
           ["Product " ++ item13 ++ ": " ++ Remote.message ue
              ++ " (field: " ++ Remote.field ue ++ ")"] |}).
  { unfold finalProgress, jobOutcomes.
    destruct (markRunning_run newId job ws Hrow) as (line & _ & ->). cbn [snd].
    erewrite (outcomes_updated newId job (shopDomain job) token
                (λ k, if (k =? 12)%nat then [ue] else [])
                (length (productIds job)) 0 initialProgress _ 0);
      [|apply lookup_insert_eq|].
    2:{ intros k pid v Hk. cbn [productIds job Storage.newRow] in Hk.
        apply Hans. lia. }
    cbn [productIds job Storage.newRow]. clear -Hlen Hitem.
    destruct (insProductIds jobData) as [|x1 ids]; [discriminate Hlen|].
    do 24 (destruct ids as [|? ids]; [discriminate Hlen|]).
    destruct ids; [|discriminate Hlen].
    cbn in Hitem. injection Hitem as ->.
    vm_compute. reflexivity. }
  exists job, w1, (withProcessingJobs (processingJobs wt ∖ {[newId]}) wt), final, item13.
  split; [reflexivity|].
  split; [rewrite Hnext; exact (processJobBody_run _ _ _ _ _ Hrow Htry)|].
  split.
  { unfold batchesOf. cbn [productIds job Storage.newRow]. clear -Hlen.
    destruct (insProductIds jobData) as [|x1 ids]; [discriminate Hlen|].
    do 24 (destruct ids as [|? ids]; [discriminate Hlen|]).
    destruct ids; [|discriminate Hlen]. reflexivity. }
  split; [exact Hitem|]. split; [exact Hp|].
  cbn [bulkJobs withProcessingJobs]. split; [exact Hfinal|].
  rewrite Hpc, Htc, Hst, Hmsg, Hp. cbn [job Storage.newRow totalCount].
  split; [reflexivity|]. split; [exact Hlen|]. split; [reflexivity|].
  unfold errorDigest. cbn. by rewrite append_empty_r.
Qed.

(** C9 on products numbered 1 to 25, the 13th of which is refused. *)
Lemma scenario_25_items_witness :
  ∃ job w1 w2 final,
    createJob "job-1" (Scenario.request (Scenario.products 25))
      (Scenario.installed
         (replicate 12 (Scenario.updated []) ++ [Scenario.updated (Scenario.complaints 1)]))
    = (job, w1) ∧
    runScheduled ShopifyService.createShopifyService w1 = (tt, w2) ∧
    map length (batchesOf job) = [10; 10; 5]%nat ∧
    bulkJobs w2 !! "job-1" = Some final ∧
    Schema.processedCount final = 25%nat ∧
    status final = FAILED ∧
    errorMessage final
    = Some "1 products failed. Errors: Product gid://13: error 1 (field: vendor)".
Proof.
  destruct (scenario_25_items
              (Scenario.installed
                 (replicate 12 (Scenario.updated [])
                    ++ [Scenario.updated (Scenario.complaints 1)]))
              "job-1" (Scenario.request (Scenario.products 25))
              {| accessToken := Some "shpat_1" |} "shpat_1"
              {| Remote.field := "vendor"; Remote.message := "error 1" |})
    as (job & w1 & w2 & final & item13 & Hcreate & Hrun & Hbatches & Hitem & _
        & Hrow & Hpc & _ & Hst & Hmsg).
  - reflexivity.
  - set_solver.
  - reflexivity.
  - reflexivity.
  - reflexivity.
  - intros k productId vendor Hk.
    do 25 (destruct k as [|k]; [reflexivity|]). lia.
  - exists job, w1, w2, final.
    injection Hitem as <-.
    repeat split; [exact Hcreate | exact Hrun | exact Hbatches | exact Hrow
                  | exact Hpc | exact Hst | exact Hmsg].
Defined.

(** *** The earlier revision *)

(** The earlier revision counts no failure: a job of three products whose
    only batch is rejected by the service ends [SUCCESS] with processed
    count 3. *)
Example legacy_run_ends_in_success :
  let w := (LegacyProcessor.processJobBody (λ _ _, Scenario.failingService)
              "job-1" (Scenario.ready (Scenario.products 3) [])).2 in
  (status <$> bulkJobs w !! "job-1", Schema.processedCount <$> bulkJobs w !! "job-1")
  = (Some SUCCESS, Some 3%nat).
Proof. vm_compute. reflexivity. Qed.

(** C6. For a job in the table: when it is [RUNNING], [retryJob] throws
    "Job is currently running" and the world is what it was; otherwise the
    row gets status [PENDING], processed count 0, no error message and no
    completion time, keeps its total count and its product list, and the
    processing routine is started again (unless the guard already holds the
    job). *)
Theorem retryJob_spec w jobId job :
  bulkJobs w !! jobId = Some job →
  (status job = RUNNING →
     retryJob jobId w = (Thrown (mkError "Job is currently running"), w)) ∧
  (status job ≠ RUNNING →
     ∃ job' w',
       retryJob jobId w = (Resolved (Some job'), w') ∧
       bulkJobs w' = <[jobId := job']> (bulkJobs w) ∧
       status job' = PENDING ∧
       Schema.processedCount job' = 0%nat ∧
       errorMessage job' = None ∧
       completedAt job' = None ∧
       totalCount job' = totalCount job ∧
       productIds job' = productIds job ∧
       (id job', shopDomain job', targetVendor job', createdAt job')
         = (id job, shopDomain job, targetVendor job, createdAt job) ∧
       (jobId ∉ processingJobs w →
          processingJobs w' = {[jobId]} ∪ processingJobs w ∧
          scheduled w' = (scheduled w ++ [jobId])%list)).
Proof.
  intros Hjob. unfold retryJob, Storage.getBulkJob. run_M. rewrite Hjob.
  split; intros Hst.
  - by destruct (decide (status job = RUNNING)).
  - destruct (decide (status job = RUNNING)); [done|].
    unfold Storage.updateBulkJob, processJob. run_M. rewrite Hjob. cbn.
    destruct (decide (jobId ∈ processingJobs w)) as [Hin | Hout];
      eexists _, _; (split; [reflexivity|]); cbn; repeat split; done.
Qed.

(** The theorem on a job that has failed half way, and on a running one. *)
Lemma retryJob_spec_witness :
  retryJob "job-1" (Scenario.holding (Scenario.aJob RUNNING 1) {["job-1"]})
    = (Thrown (mkError "Job is currently running"),
       Scenario.holding (Scenario.aJob RUNNING 1) {["job-1"]}) ∧
  ∃ job' w',
    retryJob "job-1" (Scenario.holding (Scenario.aJob FAILED 2) ∅)
      = (Resolved (Some job'), w') ∧
    status job' = PENDING ∧ Schema.processedCount job' = 0%nat ∧
    totalCount job' = 3%nat ∧ scheduled w' = ["job-1"].
Proof.
  split.
  - apply (retryJob_spec (Scenario.holding (Scenario.aJob RUNNING 1) {["job-1"]})
             "job-1" (Scenario.aJob RUNNING 1)); reflexivity.
  - destruct (retryJob_spec (Scenario.holding (Scenario.aJob FAILED 2) ∅)
                "job-1" (Scenario.aJob FAILED 2) eq_refl) as [_ H].
    destruct (H ltac:(discriminate))
      as (job' & w' & Hrun & _ & Hst & Hpc & _ & _ & Htc & _ & _ & Hguard).
    exists job', w'. destruct (Hguard ltac:(set_solver)) as [_ Hsched].
    repeat split; [exact Hrun | exact Hst | exact Hpc | exact Htc | exact Hsched].
Defined.

(** C7. For a job in the table: when its status is neither [PENDING] nor
    [RUNNING], [cancelJob] throws and the world is what it was; otherwise the
    job leaves the guard set and its row gets status [FAILED], the message
    "Job cancelled by user" and the current time as completion time. *)
Theorem cancelJob_spec w jobId job :
  bulkJobs w !! jobId = Some job →
  (status job ≠ RUNNING ∧ status job ≠ PENDING →
     cancelJob jobId w
     = (Thrown (mkError "Job cannot be cancelled in current status"), w)) ∧
  (status job = RUNNING ∨ status job = PENDING →
     ∃ job' w',
       cancelJob jobId w = (Resolved (Some job'), w') ∧
       processingJobs w' = processingJobs w ∖ {[jobId]} ∧
       bulkJobs w' = <[jobId := job']> (bulkJobs w) ∧
       status job' = FAILED ∧
       errorMessage job' = Some "Job cancelled by user" ∧
       completedAt job' = Some (clock w) ∧
       Schema.processedCount job' = Schema.processedCount job ∧
       totalCount job' = totalCount job ∧
       productIds job' = productIds job ∧
       scheduled w' = scheduled w).
Proof.
  intros Hjob. unfold cancelJob, Storage.getBulkJob. run_M. rewrite Hjob.
  split; intros Hst.
  - by destruct (decide (status job ≠ RUNNING ∧ status job ≠ PENDING)).
  - destruct (decide (status job ≠ RUNNING ∧ status job ≠ PENDING)) as [[? ?] | _];
      [by destruct Hst|].
    unfold releaseGuard, Storage.updateBulkJob. run_M. rewrite Hjob.
    eexists _, _. split; [reflexivity|]. cbn. repeat split; done.
Qed.

(** The theorem on a finished job and on a running one. *)
Lemma cancelJob_spec_witness :
  cancelJob "job-1" (Scenario.holding (Scenario.aJob SUCCESS 3) ∅)
    = (Thrown (mkError "Job cannot be cancelled in current status"),
       Scenario.holding (Scenario.aJob SUCCESS 3) ∅) ∧
  ∃ job' w',
    cancelJob "job-1" (Scenario.holding (Scenario.aJob RUNNING 1) {["job-1"]})
      = (Resolved (Some job'), w') ∧
    processingJobs w' = ({["job-1"]} : gset string) ∖ {["job-1"]} ∧
    status job' = FAILED ∧ completedAt job' = Some 0.
Proof.
  split.
  - apply (cancelJob_spec (Scenario.holding (Scenario.aJob SUCCESS 3) ∅)
             "job-1" (Scenario.aJob SUCCESS 3) eq_refl).
    split; discriminate.
  - destruct (cancelJob_spec (Scenario.holding (Scenario.aJob RUNNING 1) {["job-1"]})
                "job-1" (Scenario.aJob RUNNING 1) eq_refl) as [_ H].
    destruct (H (or_introl eq_refl))
      as (job' & w' & Hrun & Hguard & _ & Hst & _ & Hdone & _).
    exists job', w'.
    repeat split; [exact Hrun | exact Hguard | exact Hst | exact Hdone].
Defined.

End BulkJobProcessorFacts.

(** ** More on the request throttle *)

Module RateLimiterWindows.
Import RateLimiter.

(** X1. The counter key of a request is never falsy: it is the first truthy
    value among the [x-shop-domain] header, the [shopDomain] of the body, the
    IP and the remote address, and ["unknown"] when there is none. The value
    of the body is taken as it is: without a header, a truthy number, array
    or object of the body is the key. When the body has no [shopDomain], or a
    string, the key is a string that is not empty. *)
Theorem generateKey_first_truthy req :
  truthy (generateKey req) = true ∧
  generateKey req
  = default (JString "unknown") (head (List.filter truthy (keyCandidates req))) ∧
  (∀ v, or_else (headerShopDomain req) None = None →
        bodyShopDomain req = Some v → truthy v = true → generateKey req = v) ∧
  (bodyShopDomain req = None ∨ (∃ s, bodyShopDomain req = Some (JString s)) →
   ∃ key, generateKey req = JString key ∧ key ≠ "").
Proof.
  unfold generateKey, keyCandidates.
  destruct (headerShopDomain req) as [h|], (bodyShopDomain req) as [v|],
    (ip req) as [i|], (remoteAddress req) as [a|]; cbn;
    repeat match goal with
    | |- context [String.eqb ?s ""] =>
        destruct (String.eqb_spec s ""); subst; cbn
    | |- context [truthy ?v] =>
        is_var v; destruct (truthy v) eqn:?; cbn
    end.
  all: repeat split; try done.
  all: try (intros ? ? ?; simplify_eq; congruence).
  all: try (intros [? | [? ?]]; simplify_eq; cbn in *;
            repeat match goal with
            | H : negb (String.eqb ?s "") = _ |- _ =>
                destruct (String.eqb_spec s ""); cbn in H; subst
            end; try done; eexists; split; [reflexivity | done]).
Qed.

(** The theorem at work: a body whose [shopDomain] is the number 5, sent
    without the header from 10.0.0.7, is counted under the number 5. *)
Lemma generateKey_first_truthy_witness :
  generateKey {| headerShopDomain := None;
                 bodyShopDomain := Some (JNumber (inject_Z 5));
                 ip := Some "10.0.0.7"; remoteAddress := None |}
  = JNumber (inject_Z 5).
Proof.
  apply (generateKey_first_truthy
           {| headerShopDomain := None;
              bodyShopDomain := Some (JNumber (inject_Z 5));
              ip := Some "10.0.0.7"; remoteAddress := None |}).
  - reflexivity.
  - reflexivity.
  - reflexivity.
Defined.

Section WithConfig.
Variable config : RateLimitConfig.

Lemma cleanup_lookup now requests k l :
  cleanup now requests !! k = Some l
  ↔ requests !! k = Some l ∧ now < resetTime l.
Proof.
  unfold cleanup. rewrite map_lookup_filter_Some. cbn. split.
  - intros [H1 H2]. split; [done | lia].
  - intros [H1 H2]. split; [done | lia].
Qed.

Lemma currentLog_cleanup now now' key requests :
  now ≤ now' →
  currentLog config (cleanup now requests) key now'
  = currentLog config requests key now'.
Proof.
  intros Hle. unfold currentLog.
  destruct (requests !! key) as [l|] eqn:Hl.
  - destruct (Z_lt_le_dec now (resetTime l)) as [Hlive | Hdead].
    + by rewrite (proj2 (cleanup_lookup now requests key l) (conj Hl Hlive)).
    + destruct (cleanup now requests !! key) as [l'|] eqn:Hc.
      * apply cleanup_lookup in Hc as [Hl' ?]. simplify_eq. lia.
      * destruct (Z.leb_spec (resetTime l) now'); [done | lia].
  - destruct (cleanup now requests !! key) as [l'|] eqn:Hc; [|done].
    apply cleanup_lookup in Hc as [Hl' ?]. simplify_eq.
Qed.

(** X2. The periodic clean-up drops exactly the windows that have elapsed,
    and no later request can tell that it ran: the answer to a check made at
    or after the clean-up, and the window stored for its key, are what they
    would have been without it. *)
Theorem cleanup_is_transparent now now' key requests :
  now ≤ now' →
  (∀ k l, cleanup now requests !! k = Some l
          ↔ requests !! k = Some l ∧ now < resetTime l) ∧
  (check config key now' (cleanup now requests)).2
    = (check config key now' requests).2 ∧
  (check config key now' (cleanup now requests)).1 !! key
    = (check config key now' requests).1 !! key.
Proof.
  intros Hle. split; [intros k l; apply cleanup_lookup|].
  rewrite !RateLimiterFacts.check_unfold. cbn [fst snd].
  rewrite (currentLog_cleanup now now' key requests Hle).
  split; [done|]. by rewrite !lookup_insert_eq.
Qed.

Lemma checks_length key times : ∀ requests,
  length (checks config key times requests).2 = length times.
Proof.
  induction times as [|t rest IH]; intros requests; cbn [checks]; [done|].
  destruct (check config key t requests) as [requests' o].
  specialize (IH requests').
  destruct (checks config key rest requests') as [requests'' os].
  cbn in *. by rewrite IH.
Qed.

(** X3. Calls made while a window is live never move its reset time, whether
    they are admitted or rejected. The call that brings the count to [k] is
    admitted when [k] is at most the maximum, with [X-RateLimit-Remaining]
    the maximum minus [k] and [X-RateLimit-Reset] the reset time in seconds,
    and is rejected otherwise; rejected calls are counted too. *)
Theorem live_window_answers key requests c R times :
  requests !! key = Some {| count := c; resetTime := R |} →
  Forall (λ t, t < R) times →
  let run := checks config key times requests in
  run.1 !! key
    = Some {| count := c + Z.of_nat (length times); resetTime := R |} ∧
  length run.2 = length times ∧
  ∀ (i : nat) t, times !! i = Some t →
    let k := c + Z.of_nat i + 1 in
    run.2 !! i
    = Some (if decide (k ≤ maxRequests config)
            then Allowed (maxRequests config) (maxRequests config - k)
                   (ceil_div R 1000)
            else Rejected (rejection config) (ceil_div (R - t) 1000)).
Proof.
  intros Hl Hin run.
  destruct (RateLimiterFacts.checks_in_window config key times requests c R Hl Hin)
    as [Hfin Hout].
  split; [exact Hfin|]. split; [apply checks_length|].
  intros i t Hi k. unfold run. rewrite (Hout i t Hi). f_equal.
  unfold answer. cbn [count resetTime]. fold k.
  destruct (Z.ltb_spec (maxRequests config) k); case_decide; try lia; [done|].
  do 2 f_equal. lia.
Qed.

Lemma checks_other key key' times : ∀ requests,
  key ≠ key' →
  (checks config key times requests).1 !! key' = requests !! key'.
Proof.
  induction times as [|t rest IH]; intros requests Hne; cbn [checks]; [done|].
  pose proof (RateLimiterFacts.check_other config key' key t requests
                (not_eq_sym Hne)) as Hc.
  destruct (check config key t requests) as [requests' o].
  specialize (IH requests' Hne).
  destruct (checks config key rest requests') as [requests'' os].
  cbn in *. by rewrite IH.
Qed.

(** X4. Keys do not interfere: however many calls are made for one key, the
    answer to a call for another key is what it would have been without
    them. *)
Theorem keys_are_independent key key' times requests t :
  key ≠ key' →
  (check config key' t (checks config key times requests).1).2
  = (check config key' t requests).2.
Proof.
  intros Hne. rewrite !RateLimiterFacts.check_unfold. cbn [snd].
  unfold currentLog. by rewrite (checks_other key key' times requests Hne).
Qed.

End WithConfig.

(** X2 at the limiter of the Shopify routes: a window that elapsed at time
    1000 is dropped by a clean-up at time 2000, a live one is kept, and a
    call at time 2500 is answered the same. *)
Lemma cleanup_is_transparent_witness :
  let requests : gmap string RequestLog :=
    {[ "a.myshopify.com" := {| count := 2; resetTime := 1000 |};
       "b.myshopify.com" := {| count := 1; resetTime := 3000 |} ]} in
  (∀ k l, cleanup 2000 requests !! k = Some l
          ↔ requests !! k = Some l ∧ 2000 < resetTime l) ∧
  (check shopifyApiLimiter "a.myshopify.com" 2500 (cleanup 2000 requests)).2
    = (check shopifyApiLimiter "a.myshopify.com" 2500 requests).2 ∧
  (check shopifyApiLimiter "a.myshopify.com" 2500 (cleanup 2000 requests)).1
    !! "a.myshopify.com"
    = (check shopifyApiLimiter "a.myshopify.com" 2500 requests).1
        !! "a.myshopify.com".
Proof.
  apply (cleanup_is_transparent shopifyApiLimiter 2000 2500). lia.
Defined.

(** X3 at the same limiter: three calls in a window that already counts 1. *)
Lemma live_window_answers_witness :
  let requests : gmap string RequestLog :=
    {[ "a.myshopify.com" := {| count := 1; resetTime := 1000 |} ]} in
  let run := checks shopifyApiLimiter "a.myshopify.com" [100; 200; 300] requests in
  run.1 !! "a.myshopify.com" = Some {| count := 4; resetTime := 1000 |} ∧
  run.2 = [Allowed 2 0 1;
           Rejected (rejection shopifyApiLimiter) 1;
           Rejected (rejection shopifyApiLimiter) 1].
Proof.
  pose proof (live_window_answers shopifyApiLimiter "a.myshopify.com"
                {[ "a.myshopify.com" := {| count := 1; resetTime := 1000 |} ]}
                1 1000 [100; 200; 300]
                (lookup_singleton_eq _ _)
                ltac:(repeat constructor)) as (Hfin & _ & _).
  split; [exact Hfin | vm_compute; reflexivity].
Defined.

(** X4 at the same limiter: a shop that has used up its window does not
    throttle another shop. *)
Lemma keys_are_independent_witness :
  (check shopifyApiLimiter "b.myshopify.com" 400
     (checks shopifyApiLimiter "a.myshopify.com" [0; 100; 200; 300] ∅).1).2
  = (check shopifyApiLimiter "b.myshopify.com" 400 ∅).2.
Proof.
  apply (keys_are_independent shopifyApiLimiter
           "a.myshopify.com" "b.myshopify.com" [0; 100; 200; 300] ∅ 400).
  discriminate.
Defined.

End RateLimiterWindows.

(** ** The logger *)

Module LoggerFacts.
Import Logger.

Lemma indexOf_absent x xs : x ∉ xs → indexOf x xs = None.
Proof.
  induction xs as [|y xs IH]; intros Hx; cbn [indexOf]; [done|].
  apply not_elem_of_cons in Hx as [Hne Hx].
  destruct (String.eqb_spec x y); [done|]. by rewrite IH.
Qed.

Lemma indexOfZ_bounds x xs : -1 ≤ indexOfZ x xs.
Proof. unfold indexOfZ. destruct (indexOf x xs); lia. Qed.

Lemma indexOfZ_present x xs : x ∈ xs → 0 ≤ indexOfZ x xs.
Proof.
  unfold indexOfZ. intros Hx.
  destruct (indexOf x xs) eqn:E; [lia|]. exfalso.
  induction xs as [|y xs IH]; [by apply elem_of_nil in Hx|].
  cbn [indexOf] in E. destruct (String.eqb_spec x y); [done|].
  apply elem_of_cons in Hx as [|Hx]; [done|].
  destruct (indexOf x xs); [done|]. by apply IH.
Qed.

(** X5. A threshold that is not one of the four level names, spelled as
    they are, silences the logger altogether: none of its four methods
    writes anything, errors included. *)
Theorem unrecognised_level_silences_everything envLogLevel now message metadata :
  new envLogLevel ∉ levels →
  error (new envLogLevel) now message metadata = [] ∧
  warn (new envLogLevel) now message metadata = [] ∧
  info (new envLogLevel) now message metadata = [] ∧
  debug (new envLogLevel) now message metadata = [].
Proof.
  intros Hout.
  assert (Hno : ∀ l, l ∈ levels → shouldLog (new envLogLevel) l = false).
  { intros l Hl. unfold shouldLog, indexOfZ at 2.
    rewrite (indexOf_absent _ _ Hout).
    pose proof (indexOfZ_present l levels Hl).
    destruct (Z.leb_spec (indexOfZ l levels) (-1)); [lia | done]. }
  unfold error, warn, info, debug.
  rewrite !Hno; [done | | | |]; unfold levels; set_solver.
Qed.

(** X6. Under a threshold that is one of the four names, [error] always
    writes, to [console.error]; [warn] writes unless the threshold is
    [error], to [console.warn]; [info] writes under [info] and [debug], and
    [debug] under [debug] only, both to [console.log]. What is written is
    one entry with the level in capitals. *)
Theorem recognised_levels_are_thresholds logLevel now message metadata :
  logLevel ∈ levels →
  let entry l :=
    {| timestamp := now; level := l; message := message;
       metadata := metadata |} in
  error logLevel now message metadata = [(ConsoleError, entry "ERROR")] ∧
  warn logLevel now message metadata
    = (if decide (logLevel = "error") then []
       else [(ConsoleWarn, entry "WARN")]) ∧
  info logLevel now message metadata
    = (if decide (logLevel ∈ ["info"; "debug"])
       then [(ConsoleLog, entry "INFO")] else []) ∧
  debug logLevel now message metadata
    = (if decide (logLevel = "debug") then [(ConsoleLog, entry "DEBUG")]
       else []).
Proof.
  intros Hin entry. unfold levels in Hin.
  repeat (apply elem_of_cons in Hin as [-> | Hin]);
    [| | | | by apply elem_of_nil in Hin];
    repeat split; reflexivity.
Qed.

(** X5 when [LOG_LEVEL] is set to [INFO], in capitals. *)
Lemma unrecognised_level_silences_everything_witness :
  error (new (Some "INFO")) 0 "Database connection failed" None = [] ∧
  warn (new (Some "INFO")) 0 "Database connection failed" None = [] ∧
  info (new (Some "INFO")) 0 "Database connection failed" None = [] ∧
  debug (new (Some "INFO")) 0 "Database connection failed" None = [].
Proof.
  apply (unrecognised_level_silences_everything (Some "INFO")).
  unfold levels. cbn. intros H.
  repeat (apply elem_of_cons in H as [H | H]; [discriminate H|]).
  by apply elem_of_nil in H.
Defined.

(** X6 when [LOG_LEVEL] is not set. *)
Lemma recognised_levels_are_thresholds_witness :
  let entry l :=
    {| timestamp := 0; level := l; message := "Rate limit exceeded";
       metadata := None |} in
  error (new None) 0 "Rate limit exceeded" None = [(ConsoleError, entry "ERROR")] ∧
  warn (new None) 0 "Rate limit exceeded" None = [(ConsoleWarn, entry "WARN")] ∧
  info (new None) 0 "Rate limit exceeded" None = [(ConsoleLog, entry "INFO")] ∧
  debug (new None) 0 "Rate limit exceeded" None = [].
Proof.
  apply (recognised_levels_are_thresholds (new None) 0 "Rate limit exceeded" None).
  unfold levels. cbn. set_solver.
Defined.

End LoggerFacts.

(** ** More on the Shopify client *)

Module ShopifyClientFacts.
Import Remote ShopifyService ShopifyServiceFacts.

Lemma fetched_app es es' : fetched (es ++ es') = (fetched es ++ fetched es')%list.
Proof. apply List.filter_app. Qed.

Lemma fetched_logs logs : Forall (λ e, isLog e = true) logs → fetched logs = [].
Proof.
  induction 1 as [|e logs He _ IH]; [done|].
  unfold fetched in *. cbn. rewrite IH. by destruct e.
Qed.

Lemma fetched_timeline es : fetched (timeline es) = fetched es.
Proof.
  induction es as [|e es IH]; [done|].
  unfold fetched, timeline in *. destruct e; cbn; by rewrite ?IH.
Qed.

Lemma slept_timeline es : slept (timeline es) = slept es.
Proof.
  induction es as [|e es IH]; [done|].
  unfold slept, timeline in *. destruct e; cbn; by rewrite ?IH.
Qed.

Lemma attempts_cons productId vendor delay delays :
  attempts productId vendor (delay :: delays)
  = (Fetch productId vendor :: Sleep delay :: attempts productId vendor delays).
Proof. reflexivity. Qed.

(** The requests and delays of the retry loop, in order. *)
Lemma retryLoop_timeline remaining :
  ∀ maxRetries attempt lastError productId vendor w,
  (attempt + remaining = maxRetries + 1)%nat → (1 ≤ remaining)%nat →
  ∃ new delays,
    events (retryLoop maxRetries remaining attempt lastError productId vendor w).2
      = (events w ++ new)%list ∧
    timeline new = attempts productId vendor delays ∧
    (length delays < remaining)%nat ∧
    fetches (retryLoop maxRetries remaining attempt lastError productId vendor w).2
      = (fetches w + S (length delays))%nat.
Proof.
  induction remaining as [|remaining IH];
    intros maxRetries attempt lastError productId vendor w Hstep Hpos; [lia|].
  destruct (makeGraphQLRequest_run productId vendor w) as (logs & Hlogs & Hrun).
  assert (Hone : ∃ new delays,
    events (makeGraphQLRequest productId vendor w).2 = (events w ++ new)%list ∧
    timeline new = attempts productId vendor delays ∧
    (length delays < S remaining)%nat ∧
    fetches (makeGraphQLRequest productId vendor w).2
      = (fetches w + S (length delays))%nat).
  { exists (Fetch productId vendor :: logs), []. rewrite Hrun.
    rewrite timeline_cons, (timeline_logs _ Hlogs). cbn. repeat split; lia. }
  destruct (settle (remote w (fetches w) productId vendor)) as [data | error] eqn:Hs.
  - by rewrite (retryLoop_resolves _ _ _ _ _ _ _ _ Hs).
  - destruct (nonRetryable error) eqn:Hnr;
      [| destruct (decide (attempt = maxRetries)) as [Heq | Hne]].
    + by rewrite (retryLoop_throws _ _ _ _ _ _ _ _ Hs (or_introl Hnr)).
    + by rewrite (retryLoop_throws _ _ _ _ _ _ _ _ Hs (or_intror Heq)).
    + destruct (retryLoop_retries maxRetries remaining attempt lastError _ _ _ _
                  Hs Hnr Hne) as (logs' & w' & Hlogs' & Hev & Hf & _ & _ & _ & ->).
      destruct (IH maxRetries (S attempt) (Some error) productId vendor w')
        as (new & delays & Hnew & Htimeline & Hn & Hfetches); [lia | lia|].
      exists (Fetch productId vendor :: logs'
                ++ [Sleep (delayOf attempt error (random w (randoms w)))] ++ new)%list,
             (delayOf attempt error (random w (randoms w)) :: delays).
      split; [rewrite Hnew, Hev, <- app_assoc; cbn; by rewrite <- app_assoc|].
      split; [|split; [cbn; lia | rewrite Hfetches, Hf; cbn; lia]].
      rewrite attempts_cons, timeline_cons. cbn [isLog negb].
      rewrite !timeline_app, (timeline_logs _ Hlogs'), <- Htimeline. reflexivity.
Qed.

(** X9. Whatever the remote service answers, the requests and awaited
    delays of one call of [updateProductVendor] are, in this order: a request
    and then, at most twice, a delay followed by one more request. So the
    call dispatches at least one and at most three requests, all of them for
    the product and vendor it was given, and awaits exactly one delay between
    two requests: never one before the first or after the last. *)
Theorem attempts_are_bounded productId vendor w :
  ∃ new delays,
    events (updateProductVendor productId vendor w).2 = (events w ++ new)%list ∧
    timeline new = attempts productId vendor delays ∧
    (length delays ≤ 2)%nat ∧
    fetched new = replicate (S (length delays)) (Fetch productId vendor) ∧
    slept new = map Sleep delays ∧
    fetches (updateProductVendor productId vendor w).2
      = (fetches w + S (length delays))%nat.
Proof.
  unfold updateProductVendor, makeGraphQLRequestWithRetry.
  destruct (retryLoop_timeline 3 3 1 None productId vendor w)
    as (new & delays & Hnew & Htimeline & Hn & Hfetches); [lia | lia|].
  exists new, delays. split; [done|]. split; [done|]. split; [lia|].
  split; [|split; [|done]].
  - rewrite <- fetched_timeline, Htimeline. clear.
    induction delays as [|d delays IH]; [done|].
    rewrite attempts_cons.
    change (fetched (Fetch productId vendor :: Sleep d :: ?l))
      with (Fetch productId vendor :: fetched l).
    by rewrite IH.
  - rewrite <- slept_timeline, Htimeline. clear.
    induction delays as [|d delays IH]; [done|].
    rewrite attempts_cons.
    change (slept (Fetch productId vendor :: Sleep d :: ?l))
      with (Sleep d :: slept l).
    by rewrite IH.
Qed.

(** One product keeps the books of the result in order: the transport
    errors are no more than the failures counted, every failure has left at
    least one entry in one of the two lists, there is no user error without
    a failure, and the entries name products of the list. *)
Lemma updateOne_accounts productIds vendor result productId w result' w' :
  updateOne productIds vendor result productId w = (result', w') →
  productId ∈ productIds →
  (length (errors result) ≤ failureCount result
   ≤ length (errors result) + length (userErrors result))%nat ∧
  (failureCount result = 0%nat → userErrors result = []) ∧
  Forall (λ e, e.1 ∈ productIds) (errors result) ∧
  Forall (λ ue, ue.1.1 ∈ productIds) (userErrors result) →
  (length (errors result') ≤ failureCount result'
   ≤ length (errors result') + length (userErrors result'))%nat ∧
  (failureCount result' = 0%nat → userErrors result' = []) ∧
  Forall (λ e, e.1 ∈ productIds) (errors result') ∧
  Forall (λ ue, ue.1.1 ∈ productIds) (userErrors result').
Proof.
  intros Hrun Hin (Hcount & Hnone & Herr & Hue). revert Hrun.
  unfold updateOne, recordFailure. unfold mbind at 1, M_bind at 1. cbv beta.
  destruct (updateProductVendor productId vendor w) as [[response | error] w1].
  - destruct (productUpdate response) as [ues|].
    + destruct ues as [|ue ues]; run_M; repeat case_match;
        intros [= <- <-]; cbn [errors userErrors failureCount successCount];
        rewrite ?length_app; cbn [length map]; (split; [lia|]);
        (split; [done|]); (split; [done|]); try done.
      all: apply Forall_app; split; [done|];
        constructor; [done|]; by apply Forall_fmap, Forall_true.
    + run_M. intros [= <- <-]. cbn [errors userErrors failureCount].
      rewrite length_app. cbn [length]. split; [lia|]. split; [done|].
      split; [|done].
      apply Forall_app; split; [done | by repeat constructor].
  - run_M. intros [= <- <-]. cbn [errors userErrors failureCount].
    rewrite length_app. cbn [length]. split; [lia|]. split; [done|].
    split; [|done].
    apply Forall_app; split; [done | by repeat constructor].
Qed.

Lemma updateEach_accounts productIds vendor todo : ∀ result w result' w',
  updateEach productIds vendor todo result w = (result', w') →
  todo ⊆ productIds →
  (length (errors result) ≤ failureCount result
   ≤ length (errors result) + length (userErrors result))%nat ∧
  (failureCount result = 0%nat → userErrors result = []) ∧
  Forall (λ e, e.1 ∈ productIds) (errors result) ∧
  Forall (λ ue, ue.1.1 ∈ productIds) (userErrors result) →
  (length (errors result') ≤ failureCount result'
   ≤ length (errors result') + length (userErrors result'))%nat ∧
  (failureCount result' = 0%nat → userErrors result' = []) ∧
  Forall (λ e, e.1 ∈ productIds) (errors result') ∧
  Forall (λ ue, ue.1.1 ∈ productIds) (userErrors result').
Proof.
  induction todo as [|productId rest IH]; intros result w result' w' Hrun Hsub Hinv;
    cbn [updateEach] in Hrun.
  - unfold mret, M_ret in Hrun. by injection Hrun as <- <-.
  - revert Hrun. unfold mbind at 1, M_bind at 1. cbv beta.
    destruct (updateOne productIds vendor result productId w) as [result1 w1] eqn:Hone.
    intros Hrest. eapply IH; [exact Hrest | |].
    + intros x Hx. apply Hsub. by apply elem_of_cons; right.
    + eapply updateOne_accounts; [exact Hone | | exact Hinv].
      apply Hsub. by apply elem_of_cons; left.
Qed.

(** The books of a whole call. *)
Lemma bulkUpdateVendor_accounts productIds vendor w :
  ∃ result,
    (bulkUpdateVendor productIds vendor w).1 = Resolved result ∧
    (length (errors result) ≤ failureCount result
     ≤ length (errors result) + length (userErrors result))%nat ∧
    (failureCount result = 0%nat → userErrors result = []) ∧
    Forall (λ e, e.1 ∈ productIds) (errors result) ∧
    Forall (λ ue, ue.1.1 ∈ productIds) (userErrors result).
Proof.
  unfold bulkUpdateVendor. unfold mbind at 1, M_bind at 1. cbv beta.
  destruct (updateEach productIds vendor productIds emptyResult w)
    as [result w1] eqn:Hrun.
  exists result. split; [reflexivity|].
  eapply updateEach_accounts; [exact Hrun | done |].
  cbn. repeat split; [lia | lia | constructor | constructor].
Qed.

(** X10. The result of [bulkUpdateVendor] is consistent with its two error
    lists, whatever the remote service answers: the transport errors are no
    more than the failures counted, every failure has left an entry in one
    of the lists, and the failure count is 0 exactly when both lists are
    empty; every entry names a product of the list that was passed. *)
Theorem failures_are_accounted_for productIds vendor w :
  ∃ result,
    (bulkUpdateVendor productIds vendor w).1 = Resolved result ∧
    (length (errors result) ≤ failureCount result
     ≤ length (errors result) + length (userErrors result))%nat ∧
    (failureCount result = 0%nat ↔ errors result = [] ∧ userErrors result = []) ∧
    Forall (λ e, e.1 ∈ productIds) (errors result) ∧
    Forall (λ ue, ue.1.1 ∈ productIds) (userErrors result).
Proof.
  destruct (bulkUpdateVendor_accounts productIds vendor w)
    as (result & Hrun & Hcount & Hnone & Herr & Hue).
  exists result. split; [exact Hrun|]. split; [exact Hcount|].
  split; [|by split].
  split.
  - intros H0. split; [apply length_zero_iff_nil; lia | by apply Hnone].
  - intros [He Hu]. rewrite He, Hu in Hcount. cbn in Hcount. lia.
Qed.

Lemma indexOf_NoDup (done : list string) x rest :
  NoDup (done ++ x :: rest) → indexOf x (done ++ x :: rest) = Some (length done).
Proof.
  induction done as [|y done IH]; intros Hnd; cbn [app indexOf length].
  - by rewrite String.eqb_refl.
  - apply NoDup_cons in Hnd as [Hy Hnd].
    destruct (String.eqb_spec x y) as [-> | _].
    + exfalso. apply Hy. apply elem_of_app. right. by apply elem_of_cons; left.
    + by rewrite (IH Hnd).
Qed.

(** One product whose request is answered with an update: one request, and
    the quarter of a second awaited after it unless the product is found
    last in the list. *)
Lemma updateOne_paced productIds vendor result productId w ues :
  remote w (fetches w) productId vendor = Scenario.updated ues →
  ∃ new w',
    updateOne productIds vendor result productId w
      = (tally productId ues result, w') ∧
    events w' = (events w ++ new)%list ∧
    timeline new
      = Fetch productId vendor
          :: (if match indexOf productId productIds with
                 | Some i => (i <? length productIds - 1)%nat
                 | None => true
                 end
              then [Sleep 250] else []) ∧
    fetches w' = S (fetches w) ∧ remote w' = remote w.
Proof.
  intros Hr.
  destruct (updateProductVendor_updated productId vendor w ues Hr)
    as (logs & Hlogs & Hrun).
  unfold updateOne. erewrite bind_run; [|exact Hrun].
  cbn [productUpdate]. unfold tally.
  set (pace := match indexOf productId productIds with
               | Some i => (i <? length productIds - 1)%nat
               | None => true
               end).
  destruct pace; [| ].
  - destruct (0 <? length ues)%nat; run_M;
      (eexists (Fetch productId vendor :: logs ++ [_; Sleep 250])%list, _;
       split; [reflexivity|];
       split; [cbn; rewrite <- !app_assoc; reflexivity|];
       split; [|by cbn];
       rewrite timeline_cons, timeline_app, (timeline_logs _ Hlogs);
       reflexivity).
  - destruct (0 <? length ues)%nat; run_M;
      (eexists (Fetch productId vendor :: logs ++ [_])%list, _;
       split; [reflexivity|];
       split; [cbn; rewrite <- !app_assoc; reflexivity|];
       split; [|by cbn];
       rewrite timeline_cons, timeline_app, (timeline_logs _ Hlogs);
       reflexivity).
Qed.

Lemma updateEach_paced productIds vendor todo : ∀ done result w k0 answers,
  productIds = (done ++ todo)%list →
  (∀ k productId vendor, (k < length todo)%nat →
     remote w (fetches w + k) productId vendor
     = Scenario.updated (answers (k0 + k)%nat)) →
  ∃ new w',
    updateEach productIds vendor todo result w
      = (tallyEach todo answers k0 result, w') ∧
    events w' = (events w ++ new)%list ∧
    fetched new = map (λ productId, Fetch productId vendor) todo ∧
    (NoDup productIds → timeline new = paced vendor todo) ∧
    fetches w' = (fetches w + length todo)%nat ∧ remote w' = remote w.
Proof.
  induction todo as [|productId rest IH]; intros done result w k0 answers Hsplit Hans;
    cbn [updateEach tallyEach length map].
  - exists [], w. rewrite app_nil_r. repeat split; [lia].
  - destruct (updateOne_paced productIds vendor result productId w (answers k0))
      as (new1 & w1 & Hone & Hev1 & Htl1 & Hf1 & Hr1).
    { specialize (Hans 0%nat productId vendor ltac:(cbn; lia)).
      by rewrite !Nat.add_0_r in Hans. }
    erewrite bind_run; [|exact Hone].
    destruct (IH (done ++ [productId])%list (tally productId (answers k0) result)
                 w1 (S k0) answers)
      as (new2 & w' & Hrest & Hev2 & Hfe2 & Htl2 & Hf2 & Hr2).
    { by rewrite <- app_assoc. }
    { intros k pid v Hk. rewrite Hr1, Hf1.
      specialize (Hans (S k) pid v ltac:(cbn; lia)).
      replace (S (fetches w) + k)%nat with (fetches w + S k)%nat by lia.
      rewrite Hans. do 2 f_equal. lia. }
    exists (new1 ++ new2)%list, w'.
    split; [exact Hrest|].
    split; [by rewrite Hev2, Hev1, app_assoc|].
    split; [|split; [|split; [lia | congruence]]].
    + rewrite fetched_app, Hfe2, <- (fetched_timeline new1), Htl1.
      by case_match.
    + intros Hnd. rewrite timeline_app, (Htl2 Hnd), Htl1.
      rewrite Hsplit in Hnd |- *. rewrite (indexOf_NoDup done productId rest Hnd).
      rewrite length_app. cbn [length].
      destruct rest as [|next rest].
      * cbn [length]. destruct (Nat.ltb_spec (length done) (length done + 1 - 1));
          [lia | done].
      * cbn [length].
        destruct (Nat.ltb_spec (length done)
                    (length done + S (S (length rest)) - 1)); [done | lia].
Qed.

(** A whole call whose requests are all answered with an update. *)
Lemma bulkUpdateVendor_paced productIds vendor w k0 answers :
  (∀ k productId vendor, (k < length productIds)%nat →
     remote w (fetches w + k) productId vendor
     = Scenario.updated (answers (k0 + k)%nat)) →
  ∃ new w',
    bulkUpdateVendor productIds vendor w
      = (Resolved (tallyEach productIds answers k0 emptyResult), w') ∧
    events w' = (events w ++ new)%list ∧
    fetched new = map (λ productId, Fetch productId vendor) productIds ∧
    (NoDup productIds → timeline new = paced vendor productIds) ∧
    fetches w' = (fetches w + length productIds)%nat ∧ remote w' = remote w.
Proof.
  intros Hans.
  destruct (updateEach_paced productIds vendor productIds [] emptyResult w k0
              answers eq_refl Hans)
    as (new & w1 & Hrun & Hev & Hfe & Htl & Hf & Hr).
  unfold bulkUpdateVendor. erewrite bind_run; [|exact Hrun]. run_M.
  eexists (new ++ [_])%list, _. split; [reflexivity|]. cbn.
  split; [by rewrite Hev, <- app_assoc|].
  split; [|split; [|done]].
  - rewrite fetched_app, Hfe. cbn. by rewrite app_nil_r.
  - intros Hnd. rewrite timeline_app, (Htl Hnd). cbn. by rewrite app_nil_r.
Qed.

(** X11. When the remote service answers every request of a call of
    [bulkUpdateVendor] with an update (with or without user errors), the
    call dispatches exactly one request per product, in the order of the
    list and with the vendor it was given. If no product occurs twice in
    the list, a quarter of a second is awaited between two requests and
    nothing is awaited after the last. *)
Theorem requests_follow_the_list productIds vendor w answers :
  (∀ k productId vendor, (k < length productIds)%nat →
     remote w (fetches w + k) productId vendor = Scenario.updated (answers k)) →
  ∃ new,
    events (bulkUpdateVendor productIds vendor w).2 = (events w ++ new)%list ∧
    fetched new = map (λ productId, Fetch productId vendor) productIds ∧
    (NoDup productIds → timeline new = paced vendor productIds).
Proof.
  intros Hans.
  destruct (bulkUpdateVendor_paced productIds vendor w 0 answers Hans)
    as (new & w' & Hrun & Hev & Hfe & Htl & _).
  exists new. rewrite Hrun. by repeat split.
Qed.

(** X11 on three products, the second of which is refused by a user
    error. *)
Lemma requests_follow_the_list_witness :
  ∃ new,
    events (bulkUpdateVendor ["gid://1"; "gid://2"; "gid://3"] "Acme"
              (Scenario.started
                 [Scenario.updated []; Scenario.updated (Scenario.complaints 1)])).2
      = new ∧
    fetched new
      = [Fetch "gid://1" "Acme"; Fetch "gid://2" "Acme"; Fetch "gid://3" "Acme"] ∧
    timeline new
      = [Fetch "gid://1" "Acme"; Sleep 250; Fetch "gid://2" "Acme"; Sleep 250;
         Fetch "gid://3" "Acme"].
Proof.
  destruct (requests_follow_the_list ["gid://1"; "gid://2"; "gid://3"] "Acme"
              (Scenario.started
                 [Scenario.updated []; Scenario.updated (Scenario.complaints 1)])
              (λ k, if (k =? 1)%nat then Scenario.complaints 1 else []))
    as (new & Hev & Hfe & Htl).
  { intros k productId vendor Hk.
    do 3 (destruct k as [|k]; [reflexivity|]). cbn in Hk. lia. }
  exists new. split; [exact Hev|]. split; [exact Hfe|].
  apply Htl. apply (bool_decide_unpack _). vm_compute. exact I.
Defined.

End ShopifyClientFacts.

(** ** More on the job processor *)

Module BulkJobRunFacts.
Import Schema BulkJobProcessor BulkJobProcessorFacts ShopifyClientFacts.

Lemma fetched_completionLogs jobId job p :
  fetched (completionLogs jobId job p) = [].
Proof. unfold completionLogs. by destruct (0 <? failureCount p)%nat. Qed.

(** The batch loop against the client of the repository, when every request
    is answered with an update: one request per product from [i] on, in
    order; the row of the job has only progressed. *)
Lemma batchLoop_requests jobId job answers fuel : ∀ i p w k0 j,
  bulkJobs w !! jobId = Some j →
  (length (productIds job) ≤ i + fuel)%nat →
  (∀ k productId vendor, (k < length (productIds job) - i)%nat →
     remote w (fetches w + k) productId vendor
     = Scenario.updated (answers (k0 + k)%nat)) →
  ∃ new p' w' j',
    batchLoop fuel jobId job ShopifyService.bulkUpdateVendor i p w = (p', w') ∧
    events w' = (events w ++ new)%list ∧
    fetched new
      = map (λ productId, Fetch productId (targetVendor job))
            (drop i (productIds job)) ∧
    fetches w' = (fetches w + (length (productIds job) - i))%nat ∧
    bulkJobs w' !! jobId = Some j' ∧ progressed j j' ∧ sameSetting w w'.
Proof.
  induction fuel as [|fuel IH]; intros i p w k0 j Hrow Hfuel Hans;
    cbn [batchLoop].
  - exists [], p, w, j. rewrite app_nil_r, drop_ge by lia.
    repeat split; [lia | done | apply progressed_refl..].
  - destruct (Nat.ltb_spec i (length (productIds job))) as [Hi | Hge].
    2:{ exists [], p, w, j. rewrite app_nil_r, drop_ge by lia.
        repeat split; [lia | done | apply progressed_refl..]. }
    set (batch := slice i (i + batchSize) (productIds job)).
    assert (Hlen : length batch = (batchSize `min` (length (productIds job) - i))%nat)
      by apply length_batch.
    destruct (bulkUpdateVendor_paced batch (targetVendor job) w k0 answers)
      as (new1 & w1 & Hcall & Hev1 & Hfe1 & _ & Hf1 & Hr1).
    { intros k pid v Hk. apply Hans. lia. }
    destruct (ShopifyServiceFacts.bulkUpdateVendor_callsOnly "" "" batch
                (targetVendor job) w) as [Hsame _].
    unfold ShopifyService.createShopifyService in Hsame.
    rewrite Hcall in Hsame. cbn [snd] in Hsame.
    destruct Hsame as (Hjobs1 & Hset1 & Hguard1 & Hsched1 & Hlim1 & Hrem1 & Hrnd1).
    assert (Hrow1 : bulkJobs w1 !! jobId = Some j) by (by rewrite Hjobs1).
    destruct (processBatch_run jobId job ShopifyService.bulkUpdateVendor i p w _ w1 j
                Hcall Hrow1) as (logs & Hlogs & Hbatch).
    fold batch in Hbatch.
    erewrite bind_run; [|exact Hbatch].
    set (w2 := withBulkJobs _ _).
    destruct (IH (i + batchSize)%nat
                 (advance i batch
                    (Resolved (ShopifyService.tallyEach batch answers k0
                                 ShopifyService.emptyResult)) p)
                 w2 (k0 + length batch)%nat _
                 (lookup_insert_eq _ _ _))
      as (new2 & p' & w' & j' & Hloop & Hev2 & Hfe2 & Hf2 & Hrow' & Hprog & Hsame2).
    { unfold batchSize. lia. }
    { intros k pid v Hk. subst w2. cbn [fetches remote withBulkJobs withEvents].
      rewrite Hr1, Hf1.
      replace (fetches w + length batch + k)%nat
        with (fetches w + (length batch + k))%nat by lia.
      rewrite Hans by (rewrite Hlen; unfold batchSize in *; lia).
      do 2 f_equal. lia. }
    exists (new1 ++ logs ++ [Update jobId
              (progressUpdate (BulkJobProcessor.processedCount p + length batch))]
              ++ new2)%list, p', w', j'.
    split; [exact Hloop|].
    split; [rewrite Hev2; subst w2; cbn; rewrite Hev1; by rewrite <- !app_assoc|].
    split; [|split; [|split; [exact Hrow' | split]]].
    + rewrite !fetched_app, Hfe1, Hfe2, (fetched_logs _ Hlogs). cbn [fetched List.filter isFetch app].
      rewrite <- map_app. f_equal. subst batch.
      rewrite slice_batch, <- drop_drop. apply take_drop.
    + rewrite Hf2. subst w2. cbn [fetches withBulkJobs withEvents].
      rewrite Hf1, Hlen. unfold batchSize in *. lia.
    + eapply progressed_trans; [apply progressed_update | exact Hprog].
    + eapply sameSetting_trans; [|exact Hsame2]. subst w2. by repeat split.
Qed.

(** A whole run of the routine in that case. *)
Lemma run_requests jobId job settings token w answers k0 :
  bulkJobs w !! jobId = Some job →
  shopSettings w !! shopDomain job = Some settings →
  or_else (accessToken settings) None = Some token →
  (∀ k productId vendor, (k < length (productIds job))%nat →
     remote w (fetches w + k) productId vendor
     = Scenario.updated (answers (k0 + k)%nat)) →
  ∃ new w' final,
    processJobBody ShopifyService.createShopifyService jobId w = (tt, w') ∧
    events w' = (events w ++ new)%list ∧
    fetched new
      = map (λ productId, Fetch productId (targetVendor job)) (productIds job) ∧
    fetches w' = (fetches w + length (productIds job))%nat ∧
    bulkJobs w' !! jobId = Some final ∧
    (productIds final, shopDomain final, targetVendor final)
      = (productIds job, shopDomain job, targetVendor job) ∧
    processingJobs w' = processingJobs w ∖ {[jobId]} ∧
    shopSettings w' = shopSettings w ∧ scheduled w' = scheduled w ∧
    remote w' = remote w.
Proof.
  intros Hrow Hset Htok Hans.
  destruct (markRunning_run jobId job w Hrow) as (line & Hline & Hmr).
  set (wr := withBulkJobs _ _) in Hmr.
  destruct (batchLoop_requests jobId job answers (length (productIds job)) 0
              initialProgress wr k0 _ (lookup_insert_eq _ _ _))
    as (new & p' & w2 & j2 & Hloop & Hev & Hfe & Hf & Hrow2 & Hprog & Hsame);
    [lia | |].
  { intros k pid v Hk. apply Hans. lia. }
  assert (Htry : tryBlock ShopifyService.createShopifyService jobId job w
                 = completeJob jobId job p' w2).
  { unfold tryBlock. erewrite bind_run; [|exact Hmr].
    erewrite bind_run; [|reflexivity].
    replace (shopSettings wr) with (shopSettings w) by reflexivity.
    rewrite Hset. cbn [mbind option_bind]. rewrite Htok. cbv zeta.
    unfold ShopifyService.createShopifyService.
    erewrite bind_run; [|exact Hloop]. reflexivity. }
  rewrite (completeJob_run jobId job p' w2 j2 Hrow2) in Htry.
  destruct Hprog as (_ & Hdom & Hids & Hvendor & _).
  destruct Hsame as (Hset2 & Hguard2 & Hsched2 & _ & Hrem2 & _).
  eexists _, _, _.
  split; [exact (processJobBody_run _ _ _ _ _ Hrow Htry)|].
  cbn [events fetches bulkJobs processingJobs shopSettings scheduled remote
       withProcessingJobs withBulkJobs withEvents].
  rewrite Hev, Hf, drop_0 in *. subst wr.
  cbn [events fetches bulkJobs processingJobs shopSettings scheduled remote
       withProcessingJobs withBulkJobs withEvents] in *.
  split; [rewrite <- !app_assoc; reflexivity|].
  split.
  { change (Update jobId (completion p' (clock w2)) :: completionLogs jobId job p')
      with ([Update jobId (completion p' (clock w2))]
              ++ completionLogs jobId job p')%list.
    rewrite !fetched_app, Hfe, fetched_completionLogs. cbn.
    destruct line; try discriminate Hline. cbn. by rewrite app_nil_r. }
  split; [lia|]. split; [apply lookup_insert_eq|].
  split; [cbn; by rewrite Hids, Hdom, Hvendor|].
  split; [by rewrite Hguard2|]. by repeat split.
Qed.

(** X12. A run of the processing routine with the client of the repository,
    on a job whose shop has a token, when the remote service answers every
    request with an update: the run dispatches exactly one request per
    product of the job, in the order of its list and with its target vendor,
    whatever the number of batches. *)
Theorem run_requests_each_product_once jobId job settings token w answers :
  bulkJobs w !! jobId = Some job →
  shopSettings w !! shopDomain job = Some settings →
  or_else (accessToken settings) None = Some token →
  (∀ k productId vendor, (k < length (productIds job))%nat →
     remote w (fetches w + k) productId vendor = Scenario.updated (answers k)) →
  ∃ new w',
    processJobBody ShopifyService.createShopifyService jobId w = (tt, w') ∧
    events w' = (events w ++ new)%list ∧
    fetched new
      = map (λ productId, Fetch productId (targetVendor job)) (productIds job) ∧
    fetches w' = (fetches w + length (productIds job))%nat.
Proof.
  intros Hrow Hset Htok Hans.
  destruct (run_requests jobId job settings token w answers 0 Hrow Hset Htok Hans)
    as (new & w' & final & Hrun & Hev & Hfe & Hf & _).
  by exists new, w'.
Qed.

(** X12 on a job of twelve products, which make two batches. *)
Lemma run_requests_each_product_once_witness :
  ∃ new w',
    processJobBody ShopifyService.createShopifyService "job-1"
      (Scenario.ready (Scenario.products 12) []) = (tt, w') ∧
    events w' = new ∧
    fetched new = map (λ productId, Fetch productId "Acme") (Scenario.products 12) ∧
    fetches w' = 12%nat.
Proof.
  destruct (run_requests_each_product_once "job-1"
              (Scenario.jobOf (Scenario.products 12))
              {| accessToken := Some "shpat_1" |} "shpat_1"
              (Scenario.ready (Scenario.products 12) []) (λ _, []))
    as (new & w' & Hrun & Hev & Hfe & Hf); [reflexivity .. | |].
  { intros k productId vendor Hk. cbn. by destruct k. }
  exists new, w'. by repeat split.
Defined.

(** Every batch call of the loop against the client of the repository
    resolves, with a result whose failure count is 0 exactly when it lists
    no error. *)
Lemma outcomes_accounted jobId job shopDomain token fuel : ∀ i p w,
  Forall (λ r, ∃ result, r = Resolved result ∧
            (ShopifyService.failureCount result = 0%nat
             ↔ ShopifyService.errors result = []
               ∧ ShopifyService.userErrors result = []))
    (outcomes fuel jobId job
       (ShopifyService.createShopifyService shopDomain token) i p w).
Proof.
  induction fuel as [|fuel IH]; intros i p w; cbn [outcomes]; [constructor|].
  destruct (i <? length (productIds job))%nat; [|constructor].
  cbv zeta.
  destruct (processBatch jobId job _ i p w) as [p' w'].
  constructor; [|apply IH].
  destruct (bulkUpdateVendor_accounts
              (slice i (i + batchSize) (productIds job)) (targetVendor job) w)
    as (result & Hrun & Hcount & Hnone & _).
  exists result. split; [exact Hrun|]. split.
  - intros H0. split; [apply length_zero_iff_nil; lia | by apply Hnone].
  - intros [He Hu]. rewrite He, Hu in Hcount. cbn in Hcount. lia.
Qed.

Lemma replay_accounted ids rs : ∀ i p,
  Forall (λ r, ∃ result, r = Resolved result ∧
            (ShopifyService.failureCount result = 0%nat
             ↔ ShopifyService.errors result = []
               ∧ ShopifyService.userErrors result = [])) rs →
  (failureCount p = 0%nat ↔ allErrors p = []) →
  (failureCount (replay ids i rs p) = 0%nat ↔ allErrors (replay ids i rs p) = []).
Proof.
  induction rs as [|r rs IH]; intros i p Hrs Hp; cbn [replay]; [done|].
  apply Forall_cons in Hrs as [(result & -> & Hres) Hrs].
  apply IH; [exact Hrs|]. cbn [advance failureCount allErrors].
  split.
  - intros H0. assert (Hp0 : failureCount p = 0%nat) by lia.
    assert (Hr0 : ShopifyService.failureCount result = 0%nat) by lia.
    apply Hp in Hp0. apply Hres in Hr0 as [-> ->]. by rewrite Hp0.
  - intros Hnil. apply app_eq_nil in Hnil as [Hnil1 Hnil2].
    apply app_eq_nil in Hnil2 as [Hu He].
    apply fmap_nil_inv in Hu. apply fmap_nil_inv in He.
    apply Hp in Hnil1. assert (ShopifyService.failureCount result = 0%nat)
      by (by apply Hres). lia.
Qed.

(** X13. With the client of the repository, a run that goes through every
    batch leaves an error message exactly when it leaves the job [FAILED]:
    a job that ends [SUCCESS] has no error message, and one that ends
    [FAILED] has one. *)
Theorem message_is_absent_iff_success jobId job settings token w :
  bulkJobs w !! jobId = Some job →
  shopSettings w !! shopDomain job = Some settings →
  or_else (accessToken settings) None = Some token →
  ∃ w' final,
    processJobBody ShopifyService.createShopifyService jobId w = (tt, w') ∧
    bulkJobs w' !! jobId = Some final ∧
    (status final = SUCCESS ↔ errorMessage final = None) ∧
    (status final = FAILED ↔ ∃ text, errorMessage final = Some text).
Proof.
  intros Hrow Hset Htok.
  destruct (tryBlock_completes ShopifyService.createShopifyService jobId job
              settings token w Hrow Hset Htok
              (ShopifyServiceFacts.bulkUpdateVendor_callsOnly _ _))
    as (wt & final & mid & now & Htry & _ & Hfinal & Hst & _ & Hmsg & _).
  set (p := finalProgress ShopifyService.createShopifyService jobId job token w) in *.
  assert (Hp : failureCount p = 0%nat ↔ allErrors p = []).
  { subst p. unfold finalProgress, jobOutcomes.
    apply replay_accounted; [apply outcomes_accounted | done]. }
  eexists _, final.
  split; [exact (processJobBody_run _ _ _ _ _ Hrow Htry)|].
  cbn [bulkJobs withProcessingJobs]. split; [exact Hfinal|].
  rewrite Hst, Hmsg. unfold finalStatus, errorDigest.
  destruct (Nat.eqb_spec (failureCount p) 0) as [H0 | Hne].
  - rewrite (proj1 Hp H0). cbn. split; [done|]. split; [done|]. by intros [text ?].
  - destruct (allErrors p) as [|line lines] eqn:Hlines;
      [exfalso; by apply Hne, Hp|].
    cbn [length Nat.ltb Nat.leb]. split; [done|]. split; [by eexists | done].
Qed.

(** X13 on a job of three products, the second of which is refused. *)
Lemma message_is_absent_iff_success_witness :
  ∃ w' final,
    processJobBody ShopifyService.createShopifyService "job-1"
      (Scenario.ready ["gid://1"; "gid://2"; "gid://3"]
         [Scenario.updated []; Scenario.updated (Scenario.complaints 1)])
    = (tt, w') ∧
    bulkJobs w' !! "job-1" = Some final ∧
    (status final = SUCCESS ↔ errorMessage final = None) ∧
    (status final = FAILED ↔ ∃ text, errorMessage final = Some text).
Proof.
  exact (message_is_absent_iff_success "job-1"
           (Scenario.jobOf ["gid://1"; "gid://2"; "gid://3"])
           {| accessToken := Some "shpat_1" |} "shpat_1"
           (Scenario.ready ["gid://1"; "gid://2"; "gid://3"]
              [Scenario.updated []; Scenario.updated (Scenario.complaints 1)])
           eq_refl eq_refl eq_refl).
Defined.

(** Every batch call of the loop against the client of the repository
    resolves with counters that add up to the size of the batch. *)
Lemma outcomes_counts jobId job shopDomain token fuel : ∀ i p w,
  Forall2 (λ batch r, ∃ result, r = Resolved result ∧
             (ShopifyService.successCount result
              + ShopifyService.failureCount result = length batch)%nat)
    (batchesFrom fuel (productIds job) i)
    (outcomes fuel jobId job
       (ShopifyService.createShopifyService shopDomain token) i p w).
Proof.
  induction fuel as [|fuel IH]; intros i p w; cbn [outcomes batchesFrom];
    [constructor|].
  destruct (i <? length (productIds job))%nat; [|constructor].
  cbv zeta.
  destruct (processBatch jobId job _ i p w) as [p' w'].
  constructor; [|apply IH].
  unfold ShopifyService.createShopifyService, ShopifyService.bulkUpdateVendor.
  unfold mbind at 1, M_bind at 1. cbv beta.
  destruct (ShopifyService.updateEach _ _ _ _ w) as [result w1] eqn:Hrun.
  exists result. split; [reflexivity|].
  apply ShopifyServiceFacts.updateEach_counts in Hrun. cbn in Hrun. lia.
Qed.

Lemma counts_add_up batches rs :
  Forall2 (λ batch r, ∃ result, r = Resolved result ∧
             (ShopifyService.successCount result
              + ShopifyService.failureCount result = length batch)%nat)
    batches rs →
  (list_sum (map successesOf rs) + list_sum (zip_with failuresOf batches rs)
   = list_sum (map length batches))%nat.
Proof.
  induction 1 as [|batch r batches rs (result & -> & Hsum) _ IH]; [done|].
  cbn [map zip_with]. rewrite !list_sum_cons. cbn [successesOf failuresOf]. lia.
Qed.

(** X14. With the client of the repository, a run that goes through every
    batch counts each product of the job exactly once: the success count and
    the failure count of its closing log line add up to the number of
    products, which is also the processed count. *)
Theorem run_counts_every_product_once jobId job settings token w :
  bulkJobs w !! jobId = Some job →
  shopSettings w !! shopDomain job = Some settings →
  or_else (accessToken settings) None = Some token →
  ∃ w' successes failures hasErrors,
    processJobBody ShopifyService.createShopifyService jobId w = (tt, w') ∧
    Log INFO "Job processing completed"
      [("jobId", MStr jobId);
       ("totalCount", MNat (totalCount job));
       ("processedCount", MNat (length (productIds job)));
       ("successCount", MNat successes);
       ("failureCount", MNat failures);
       ("hasErrors", MBool hasErrors)] ∈ events w' ∧
    (successes + failures = length (productIds job))%nat.
Proof.
  intros Hrow Hset Htok.
  destruct (tryBlock_completes ShopifyService.createShopifyService jobId job
              settings token w Hrow Hset Htok
              (ShopifyServiceFacts.bulkUpdateVendor_callsOnly _ _))
    as (wt & final & mid & now & Htry & Hlen & _ & _ & _ & _ & _ & _ & _ & Hev & _).
  destruct (finalProgress_counts ShopifyService.createShopifyService jobId job
              token w Hlen) as (Hp & Hf & Hs).
  set (p := finalProgress ShopifyService.createShopifyService jobId job token w) in *.
  set (rs := jobOutcomes ShopifyService.createShopifyService jobId job token w) in *.
  exists (withProcessingJobs (processingJobs wt ∖ {[jobId]}) wt),
         (successCount p), (failureCount p), (0 <? length (allErrors p))%nat.
  split; [exact (processJobBody_run _ _ _ _ _ Hrow Htry)|].
  split.
  - cbn [events withProcessingJobs]. rewrite Hev, <- Hp. unfold completionLogs.
    apply elem_of_app; right. apply elem_of_app; right.
    apply elem_of_cons; right. apply elem_of_cons; by left.
  - rewrite Hs, Hf.
    pose proof (counts_add_up (batchesOf job) rs
                  (outcomes_counts jobId job (shopDomain job) token _ _ _ _)) as Hsum.
    destruct (batchesFrom_total (productIds job) (length (productIds job)) 0
                ltac:(lia)) as [Htotal _].
    unfold batchesOf in *. rewrite Htotal in Hsum. lia.
Qed.

(** X14 on a job of three products, the second of which is refused. *)
Lemma run_counts_every_product_once_witness :
  ∃ w' successes failures hasErrors,
    processJobBody ShopifyService.createShopifyService "job-1"
      (Scenario.ready ["gid://1"; "gid://2"; "gid://3"]
         [Scenario.updated []; Scenario.updated (Scenario.complaints 1)])
    = (tt, w') ∧
    Log INFO "Job processing completed"
      [("jobId", MStr "job-1"); ("totalCount", MNat 3);
       ("processedCount", MNat 3); ("successCount", MNat successes);
       ("failureCount", MNat failures); ("hasErrors", MBool hasErrors)]
      ∈ events w' ∧
    (successes + failures = 3)%nat.
Proof.
  exact (run_counts_every_product_once "job-1"
           (Scenario.jobOf ["gid://1"; "gid://2"; "gid://3"])
           {| accessToken := Some "shpat_1" |} "shpat_1"
           (Scenario.ready ["gid://1"; "gid://2"; "gid://3"]
              [Scenario.updated []; Scenario.updated (Scenario.complaints 1)])
           eq_refl eq_refl eq_refl).
Defined.

Section AnyService.
Variable createShopifyService : string → string → ShopifyService.Service.

(** The [try] block of a job whose shop has no usable token. *)
Lemma tryBlock_without_token jobId job w :
  bulkJobs w !! jobId = Some job →
  or_else (shopSettings w !! shopDomain job ≫= accessToken) None = None →
  ∃ line line',
    isLog line = true ∧ isLog line' = true ∧
    tryBlock createShopifyService jobId job w
    = (tt,
       withBulkJobs
         (<[jobId :=
              Storage.applyUpdates
                {| setStatus := Some FAILED; setProcessedCount := None;
                   setErrorMessage := Some (Some "Shop access token not found");
                   setCompletedAt := Some (Some (clock w)) |} (clock w)
                (Storage.applyUpdates runningUpdate (clock w) job)]>
            (bulkJobs w))
         (withEvents
            (events w ++
             [line; Update jobId runningUpdate; line';
              Update jobId
                {| setStatus := Some FAILED; setProcessedCount := None;
                   setErrorMessage := Some (Some "Shop access token not found");
                   setCompletedAt := Some (Some (clock w)) |}]) w)).
Proof.
  intros Hrow Htok.
  destruct (markRunning_run jobId job w Hrow) as (line & Hline & Hmr).
  unfold tryBlock. erewrite bind_run; [|exact Hmr].
  erewrite bind_run; [|reflexivity].
  cbn [shopSettings withBulkJobs withEvents]. rewrite Htok.
  unfold failJob, Storage.updateBulkJob. run_M. rewrite lookup_insert_eq.
  eexists line, _. split; [done|]. split; [|cbn; rewrite insert_insert_eq;
    unfold withBulkJobs, withEvents; cbn; rewrite <- !app_assoc; reflexivity].
  done.
Qed.

(** X15. A job whose shop has no access token, or an empty one, is marked
    [RUNNING] and then [FAILED] with the message "Shop access token not
    found" and the current time as completion time; its processed count is
    left as it was, no request is dispatched, and the guard is released. *)
Theorem job_without_token_fails jobId job w :
  bulkJobs w !! jobId = Some job →
  or_else (shopSettings w !! shopDomain job ≫= accessToken) None = None →
  ∃ w' final new,
    processJobBody createShopifyService jobId w = (tt, w') ∧
    bulkJobs w' !! jobId = Some final ∧
    status final = FAILED ∧
    errorMessage final = Some "Shop access token not found" ∧
    Schema.processedCount final = Schema.processedCount job ∧
    completedAt final = Some (clock w) ∧
    events w' = (events w ++ new)%list ∧
    fetched new = [] ∧
    writtenStatuses jobId new = [RUNNING; FAILED] ∧
    processingJobs w' = processingJobs w ∖ {[jobId]}.
Proof.
  intros Hrow Htok.
  destruct (tryBlock_without_token jobId job w Hrow Htok)
    as (line & line' & Hline & Hline' & Htry).
  eexists _, _, _.
  split; [exact (processJobBody_run _ _ _ _ _ Hrow Htry)|].
  cbn [bulkJobs events processingJobs withProcessingJobs withBulkJobs withEvents].
  split; [apply lookup_insert_eq|].
  split; [reflexivity|]. split; [reflexivity|]. split; [reflexivity|].
  split; [reflexivity|]. split; [reflexivity|].
  split; [|split; [|reflexivity]].
  - destruct line, line'; try discriminate; reflexivity.
  - unfold writtenStatuses.
    destruct line, line'; try discriminate; cbn; by rewrite !String.eqb_refl.
Qed.

(** X16. A run that goes through every batch writes two statuses to the
    row of its job and no other: [RUNNING] before the first batch, and the
    final status after the last. *)
Theorem run_writes_two_statuses jobId job settings token w :
  bulkJobs w !! jobId = Some job →
  shopSettings w !! shopDomain job = Some settings →
  or_else (accessToken settings) None = Some token →
  ShopifyService.callsOnly (createShopifyService (shopDomain job) token) →
  ∃ w' new,
    processJobBody createShopifyService jobId w = (tt, w') ∧
    events w' = (events w ++ new)%list ∧
    writtenStatuses jobId new
      = [RUNNING;
         finalStatus (finalProgress createShopifyService jobId job token w)].
Proof.
  intros Hrow Hset Htok Hcalls.
  destruct (tryBlock_completes createShopifyService jobId job settings token w
              Hrow Hset Htok Hcalls)
    as (wt & final & mid & now & Htry & _ & _ & _ & _ & _ & _ & _ & _ & Hev & Hmid & _).
  set (p := finalProgress createShopifyService jobId job token w) in *.
  eexists _, _. split; [exact (processJobBody_run _ _ _ _ _ Hrow Htry)|].
  cbn [events withProcessingJobs]. split; [exact Hev|].
  change (Update jobId (completion p now) :: completionLogs jobId job p)
    with ([Update jobId (completion p now)] ++ completionLogs jobId job p)%list.
  rewrite !writtenStatuses_app, Hmid, writtenStatuses_update.
  rewrite (writtenStatuses_none jobId (completionLogs jobId job p)).
  - reflexivity.
  - unfold completionLogs. destruct (0 <? failureCount p)%nat; by repeat constructor.
Qed.

(** The batch loop writes to no row but that of its job. *)
Lemma batchLoop_frame jobId job service other fuel :
  ShopifyService.callsOnly service → other ≠ jobId →
  ∀ i p w j,
  bulkJobs w !! jobId = Some j →
  bulkJobs (batchLoop fuel jobId job service i p w).2 !! other
  = bulkJobs w !! other.
Proof.
  intros Hcalls Hne.
  induction fuel as [|fuel IH]; intros i p w j Hrow; cbn [batchLoop]; [done|].
  destruct (i <? length (productIds job))%nat; [|done].
  set (batch := slice i (i + batchSize) (productIds job)).
  destruct (service batch (targetVendor job) w) as [r w1] eqn:Hcall.
  destruct (Hcalls batch (targetVendor job) w) as [(Hjobs1 & _) _].
  rewrite Hcall in Hjobs1. cbn [snd] in Hjobs1.
  assert (Hrow1 : bulkJobs w1 !! jobId = Some j) by (by rewrite Hjobs1).
  destruct (processBatch_run jobId job service i p w r w1 j Hcall Hrow1)
    as (logs & _ & Hbatch). fold batch in Hbatch.
  erewrite bind_run; [|exact Hbatch].
  destruct r as [result | error].
  - erewrite IH; [|apply lookup_insert_eq].
    cbn [bulkJobs withBulkJobs]. by rewrite lookup_insert_ne, Hjobs1.
  - erewrite IH; [|exact Hrow1]. cbn [bulkJobs withEvents]. by rewrite Hjobs1.
Qed.

(** X17. A run of the routine for one job never touches the row of another
    job, whatever becomes of the run: job missing, token missing, or every
    batch gone through. *)
Theorem run_leaves_other_jobs_alone jobId other w :
  (∀ shopDomain token,
     ShopifyService.callsOnly (createShopifyService shopDomain token)) →
  other ≠ jobId →
  bulkJobs (processJobBody createShopifyService jobId w).2 !! other
  = bulkJobs w !! other.
Proof.
  intros Hcalls Hne.
  destruct (bulkJobs w !! jobId) as [job|] eqn:Hrow.
  - destruct (or_else (shopSettings w !! shopDomain job ≫= accessToken) None)
      as [token|] eqn:Htok.
    + destruct (shopSettings w !! shopDomain job) as [settings|] eqn:Hset;
        [|discriminate Htok].
      cbn [mbind option_bind] in Htok.
      destruct (markRunning_run jobId job w Hrow) as (line & _ & Hmr).
      set (wr := withBulkJobs _ _) in Hmr.
      assert (Hrowr : bulkJobs wr !! jobId
                      = Some (Storage.applyUpdates runningUpdate (clock w) job))
        by apply lookup_insert_eq.
      set (service := createShopifyService (shopDomain job) token).
      destruct (batchLoop_run jobId job service (Hcalls _ _)
                  (length (productIds job)) 0 initialProgress wr _ Hrowr)
        as (w2 & j2 & new & Hloop & _ & Hrow2 & _).
      pose proof (batchLoop_frame jobId job service other (length (productIds job))
                    (Hcalls _ _) Hne 0 initialProgress wr _ Hrowr) as Hframe.
      rewrite Hloop in Hframe. cbn [snd] in Hframe.
      assert (Htry : tryBlock createShopifyService jobId job w
                     = completeJob jobId job
                         (replay (productIds job) 0
                            (outcomes (length (productIds job)) jobId job service 0
                               initialProgress wr) initialProgress) w2).
      { unfold tryBlock. erewrite bind_run; [|exact Hmr].
        erewrite bind_run; [|reflexivity].
        replace (shopSettings wr) with (shopSettings w) by reflexivity.
        rewrite Hset. cbn [mbind option_bind]. rewrite Htok. cbv zeta.
        fold service. erewrite bind_run; [|exact Hloop]. reflexivity. }
      rewrite (completeJob_run jobId job _ w2 j2 Hrow2) in Htry.
      rewrite (processJobBody_run _ _ _ _ _ Hrow Htry).
      cbn [snd bulkJobs withProcessingJobs withBulkJobs].
      rewrite lookup_insert_ne, Hframe by done. subst wr.
      cbn [bulkJobs withBulkJobs]. by rewrite lookup_insert_ne.
    + destruct (tryBlock_without_token jobId job w Hrow Htok)
        as (line & line' & _ & _ & Htry).
      rewrite (processJobBody_run _ _ _ _ _ Hrow Htry).
      cbn [snd bulkJobs withProcessingJobs withBulkJobs].
      by rewrite lookup_insert_ne.
  - unfold processJobBody, Storage.getBulkJob. run_M. rewrite Hrow.
    unfold failJob, Storage.updateBulkJob, releaseGuard. run_M. by rewrite Hrow.
Qed.

(** X18. An identifier that the table does not hold is refused: [retryJob]
    and [cancelJob] throw "Job not found" and change nothing. A routine
    started for such an identifier makes no row and dispatches no request;
    it logs the failure, tries the failing update, which finds no row, and
    releases the guard. *)
Theorem unknown_job_is_refused jobId w :
  bulkJobs w !! jobId = None →
  retryJob jobId w = (Thrown (mkError "Job not found"), w) ∧
  cancelJob jobId w = (Thrown (mkError "Job not found"), w) ∧
  ∃ w' line update,
    processJobBody createShopifyService jobId w = (tt, w') ∧
    bulkJobs w' = bulkJobs w ∧ fetches w' = fetches w ∧
    processingJobs w' = processingJobs w ∖ {[jobId]} ∧
    isLog line = true ∧
    events w' = (events w ++ [line; Update jobId update])%list ∧
    setStatus update = Some FAILED ∧
    setErrorMessage update = Some (Some "Job not found").
Proof.
  intros Hrow. split; [|split].
  - unfold retryJob, Storage.getBulkJob. run_M. by rewrite Hrow.
  - unfold cancelJob, Storage.getBulkJob. run_M. by rewrite Hrow.
  - unfold processJobBody, Storage.getBulkJob. run_M. rewrite Hrow.
    unfold failJob, Storage.updateBulkJob, releaseGuard. run_M. rewrite Hrow.
    eexists _, _, _. split; [reflexivity|]. cbn.
    rewrite <- app_assoc. by repeat split.
Qed.

(** X19. The routine always releases the guard, as its [finally] block
    says: whether the job is missing from the table, its shop has no token,
    or the loop runs to its end, the job is out of the guard when the
    routine ends; no other job enters or leaves the guard, and no routine
    is started or dropped. *)
Theorem guard_is_released jobId w :
  (∀ shopDomain token,
     ShopifyService.callsOnly (createShopifyService shopDomain token)) →
  processingJobs (processJobBody createShopifyService jobId w).2
    = processingJobs w ∖ {[jobId]} ∧
  scheduled (processJobBody createShopifyService jobId w).2 = scheduled w.
Proof.
  intros Hcalls.
  destruct (bulkJobs w !! jobId) as [job|] eqn:Hrow.
  - destruct (or_else (shopSettings w !! shopDomain job ≫= accessToken) None)
      as [token|] eqn:Htok.
    + destruct (shopSettings w !! shopDomain job) as [settings|] eqn:Hset;
        [|discriminate Htok].
      cbn [mbind option_bind] in Htok.
      destruct (tryBlock_completes createShopifyService jobId job settings token w
                  Hrow Hset Htok (Hcalls _ _))
        as (wt & final & mid & now & Htry & _ & _ & _ & _ & _ & _ & _ & _ & _ & _
            & _ & _ & Hsame).
      rewrite (processJobBody_run _ _ _ _ _ Hrow Htry).
      destruct Hsame as (_ & Hguard & Hsched & _). cbn. by rewrite Hguard, Hsched.
    + destruct (tryBlock_without_token jobId job w Hrow Htok)
        as (line & line' & _ & _ & Htry).
      by rewrite (processJobBody_run _ _ _ _ _ Hrow Htry).
  - unfold processJobBody, Storage.getBulkJob. run_M. rewrite Hrow.
    unfold failJob, Storage.updateBulkJob, releaseGuard. run_M. by rewrite Hrow.
Qed.

(** X20. Cancelling does not stop a routine that has been started and has
    not run yet: after [cancelJob] has marked the job [FAILED] with the
    message "Job cancelled by user", the routine is still waiting, and when
    it runs it goes through every batch and writes its own status and error
    message over those of the cancellation. In particular a job without a
    failure ends [SUCCESS]. *)
Theorem cancelled_job_is_still_processed jobId job settings token w rest :
  bulkJobs w !! jobId = Some job →
  status job = PENDING ∨ status job = RUNNING →
  scheduled w = jobId :: rest →
  shopSettings w !! shopDomain job = Some settings →
  or_else (accessToken settings) None = Some token →
  ShopifyService.callsOnly (createShopifyService (shopDomain job) token) →
  ∃ cancelled wc w' final,
    cancelJob jobId w = (Resolved (Some cancelled), wc) ∧
    bulkJobs wc !! jobId = Some cancelled ∧
    status cancelled = FAILED ∧
    errorMessage cancelled = Some "Job cancelled by user" ∧
    scheduled wc = jobId :: rest ∧
    runScheduled createShopifyService wc = (tt, w') ∧
    bulkJobs w' !! jobId = Some final ∧
    let p := finalProgress createShopifyService jobId cancelled token
               (withScheduled rest wc) in
    status final = finalStatus p ∧
    errorMessage final = errorDigest p ∧
    Schema.processedCount final = length (productIds job) ∧
    (failureCount p = 0%nat → status final = SUCCESS).
Proof.
  intros Hrow Hst Hsched Hset Htok Hcalls.
  assert (Hcancel : ∃ cancelled wc,
    cancelJob jobId w = (Resolved (Some cancelled), wc) ∧
    bulkJobs wc !! jobId = Some cancelled ∧
    status cancelled = FAILED ∧
    errorMessage cancelled = Some "Job cancelled by user" ∧
    scheduled wc = jobId :: rest ∧
    shopSettings wc = shopSettings w ∧
    (shopDomain cancelled, productIds cancelled)
      = (shopDomain job, productIds job)).
  { unfold cancelJob, Storage.getBulkJob. run_M. rewrite Hrow.
    destruct (decide (status job ≠ RUNNING ∧ status job ≠ PENDING)) as [[? ?] | _];
      [by destruct Hst|].
    unfold releaseGuard, Storage.updateBulkJob. run_M. rewrite Hrow.
    eexists _, _. split; [reflexivity|]. cbn. rewrite lookup_insert_eq.
    by repeat split. }
  destruct Hcancel as (cancelled & wc & Hrun & Hrowc & Hstc & Hmsgc & Hschedc
                       & Hsetc & [= Hdom Hids]).
  set (ws := withScheduled rest wc).
  assert (Hnext : runScheduled createShopifyService wc
                  = processJobBody createShopifyService jobId ws).
  { unfold runScheduled. by rewrite Hschedc. }
  assert (Hrows : bulkJobs ws !! jobId = Some cancelled) by exact Hrowc.
  assert (Hsets : shopSettings ws !! shopDomain cancelled = Some settings).
  { subst ws. cbn. by rewrite Hsetc, Hdom. }
  rewrite <- Hdom in Hcalls.
  destruct (tryBlock_completes createShopifyService jobId cancelled settings token
              ws Hrows Hsets Htok Hcalls)
    as (wt & final & mid & now & Htry & Hlen & Hfinal & Hstf & Hpc & Hmsg & _).
  destruct (finalProgress_counts createShopifyService jobId cancelled token ws Hlen)
    as (Hp & _ & _).
  exists cancelled, wc, (withProcessingJobs (processingJobs wt ∖ {[jobId]}) wt), final.
  split; [exact Hrun|]. split; [exact Hrowc|]. split; [exact Hstc|].
  split; [exact Hmsgc|]. split; [exact Hschedc|].
  split; [rewrite Hnext; exact (processJobBody_run _ _ _ _ _ Hrows Htry)|].
  split; [exact Hfinal|]. cbv zeta.
  split; [exact Hstf|]. split; [exact Hmsg|].
  split; [by rewrite Hpc, Hp, Hids|].
  intros H0. fold ws in H0. rewrite Hstf. unfold finalStatus. by rewrite H0.
Qed.

End AnyService.

(** X15 on a job whose shop was never installed. *)
Lemma job_without_token_fails_witness :
  ∃ w' final,
    processJobBody ShopifyService.createShopifyService "job-1"
      (Scenario.holding (Scenario.aJob PENDING 0) {["job-1"]}) = (tt, w') ∧
    bulkJobs w' !! "job-1" = Some final ∧
    status final = FAILED ∧
    errorMessage final = Some "Shop access token not found" ∧
    fetched (events w') = [] ∧
    processingJobs w' = ({["job-1"]} : gset string) ∖ {["job-1"]}.
Proof.
  destruct (job_without_token_fails ShopifyService.createShopifyService "job-1"
              (Scenario.aJob PENDING 0)
              (Scenario.holding (Scenario.aJob PENDING 0) {["job-1"]})
              eq_refl eq_refl)
    as (w' & final & new & Hrun & Hrow & Hst & Hmsg & _ & _ & Hev & Hfe & _ & Hguard).
  exists w', final. rewrite Hev.
  repeat split; [exact Hrun | exact Hrow | exact Hst | exact Hmsg | exact Hfe
                | exact Hguard].
Defined.

(** X16 on a job of three products, the second of which is refused. *)
Lemma run_writes_two_statuses_witness :
  ∃ w' new,
    processJobBody ShopifyService.createShopifyService "job-1"
      (Scenario.ready ["gid://1"; "gid://2"; "gid://3"]
         [Scenario.updated []; Scenario.updated (Scenario.complaints 1)])
    = (tt, w') ∧
    events w' = new ∧
    writtenStatuses "job-1" new = [RUNNING; FAILED].
Proof.
  destruct (run_writes_two_statuses ShopifyService.createShopifyService "job-1"
              (Scenario.jobOf ["gid://1"; "gid://2"; "gid://3"])
              {| accessToken := Some "shpat_1" |} "shpat_1"
              (Scenario.ready ["gid://1"; "gid://2"; "gid://3"]
                 [Scenario.updated []; Scenario.updated (Scenario.complaints 1)])
              eq_refl eq_refl eq_refl
              (ShopifyServiceFacts.bulkUpdateVendor_callsOnly _ _))
    as (w' & new & Hrun & Hev & Hst).
  exists w', new. split; [exact Hrun|]. split; [exact Hev|].
  rewrite Hst. vm_compute. reflexivity.
Defined.

(** X17 on two jobs, of which the second is processed. *)
Lemma run_leaves_other_jobs_alone_witness :
  bulkJobs
    (processJobBody ShopifyService.createShopifyService "job-2"
       Examples.twoJobs).2 !! "job-1"
  = bulkJobs Examples.twoJobs !! "job-1".
Proof.
  apply (run_leaves_other_jobs_alone ShopifyService.createShopifyService
           "job-2" "job-1").
  - apply ShopifyServiceFacts.bulkUpdateVendor_callsOnly.
  - discriminate.
Defined.

(** X18 on an identifier that is not in the table. *)
Lemma unknown_job_is_refused_witness :
  retryJob "job-9" Examples.twoJobs
    = (Thrown (mkError "Job not found"), Examples.twoJobs) ∧
  cancelJob "job-9" Examples.twoJobs
    = (Thrown (mkError "Job not found"), Examples.twoJobs) ∧
  bulkJobs (processJobBody ShopifyService.createShopifyService "job-9"
              Examples.twoJobs).2
    = bulkJobs Examples.twoJobs.
Proof.
  destruct (unknown_job_is_refused ShopifyService.createShopifyService "job-9"
              Examples.twoJobs eq_refl)
    as (Hretry & Hcancel & w' & line & update & Hrun & Hjobs & _).
  split; [exact Hretry|]. split; [exact Hcancel|]. by rewrite Hrun.
Defined.

(** X19 on a job that is not in the table. *)
Lemma guard_is_released_witness :
  processingJobs
    (processJobBody ShopifyService.createShopifyService "job-2"
       (Scenario.holding (Scenario.aJob PENDING 0) {["job-1"; "job-2"]})).2
    = ({["job-1"; "job-2"]} : gset string) ∖ {["job-2"]} ∧
  scheduled
    (processJobBody ShopifyService.createShopifyService "job-2"
       (Scenario.holding (Scenario.aJob PENDING 0) {["job-1"; "job-2"]})).2
    = [].
Proof.
  exact (guard_is_released ShopifyService.createShopifyService "job-2"
           (Scenario.holding (Scenario.aJob PENDING 0) {["job-1"; "job-2"]})
           ShopifyServiceFacts.bulkUpdateVendor_callsOnly).
Defined.

(** X20 on a job of three products that is cancelled before its routine
    runs, and whose requests are then all answered with an update: it ends
    [SUCCESS] without an error message. *)
Lemma cancelled_job_is_still_processed_witness :
  ∃ cancelled wc w' final,
    cancelJob "job-1"
      (withScheduled ["job-1"]
         (Scenario.ready ["gid://1"; "gid://2"; "gid://3"] []))
      = (Resolved (Some cancelled), wc) ∧
    status cancelled = FAILED ∧
    runScheduled ShopifyService.createShopifyService wc = (tt, w') ∧
    bulkJobs w' !! "job-1" = Some final ∧
    status final = SUCCESS ∧ errorMessage final = None ∧
    Schema.processedCount final = 3%nat.
Proof.
  destruct (cancelled_job_is_still_processed ShopifyService.createShopifyService
              "job-1" (Scenario.jobOf ["gid://1"; "gid://2"; "gid://3"])
              {| accessToken := Some "shpat_1" |} "shpat_1"
              (withScheduled ["job-1"]
                 (Scenario.ready ["gid://1"; "gid://2"; "gid://3"] [])) []
              eq_refl (or_introl eq_refl) eq_refl eq_refl eq_refl
              (ShopifyServiceFacts.bulkUpdateVendor_callsOnly _ _))
    as (cancelled & wc & w' & final & Hcancel & _ & Hstc & _ & _ & Hrun & Hrow
        & Hst & Hmsg & Hpc & _).
  exists cancelled, wc, w', final.
  split; [exact Hcancel|]. split; [exact Hstc|]. split; [exact Hrun|].
  split; [exact Hrow|].
  injection Hcancel as <- <-.
  split; [rewrite Hst; vm_compute; reflexivity|].
  split; [rewrite Hmsg; vm_compute; reflexivity | exact Hpc].
Defined.

(** [cancelJob] and [retryJob] where they go through. *)
Lemma cancelJob_run jobId job w :
  bulkJobs w !! jobId = Some job →
  status job = PENDING ∨ status job = RUNNING →
  let update :=
    {| setStatus := Some FAILED; setProcessedCount := None;
       setErrorMessage := Some (Some "Job cancelled by user");
       setCompletedAt := Some (Some (clock w)) |} in
  cancelJob jobId w
  = (Resolved (Some (Storage.applyUpdates update (clock w) job)),
     withBulkJobs (<[jobId := Storage.applyUpdates update (clock w) job]> (bulkJobs w))
       (withEvents (events w ++ [Update jobId update])
          (withProcessingJobs (processingJobs w ∖ {[jobId]}) w))).
Proof.
  intros Hrow Hst. unfold cancelJob, Storage.getBulkJob. run_M. rewrite Hrow.
  destruct (decide (status job ≠ RUNNING ∧ status job ≠ PENDING)) as [[? ?] | _];
    [by destruct Hst|].
  unfold releaseGuard, Storage.updateBulkJob. run_M. by rewrite Hrow.
Qed.

Lemma retryJob_run jobId job w :
  bulkJobs w !! jobId = Some job →
  status job ≠ RUNNING →
  jobId ∉ processingJobs w →
  let update :=
    {| setStatus := Some PENDING; setProcessedCount := Some 0%nat;
       setErrorMessage := Some None; setCompletedAt := Some None |} in
  retryJob jobId w
  = (Resolved (Some (Storage.applyUpdates update (clock w) job)),
     withScheduled (scheduled w ++ [jobId])
       (withProcessingJobs ({[jobId]} ∪ processingJobs w)
          (withBulkJobs
             (<[jobId := Storage.applyUpdates update (clock w) job]> (bulkJobs w))
             (withEvents (events w ++ [Update jobId update]) w)))).
Proof.
  intros Hrow Hst Hguard. unfold retryJob, Storage.getBulkJob. run_M. rewrite Hrow.
  destruct (decide (status job = RUNNING)); [done|].
  unfold Storage.updateBulkJob, processJob. run_M. rewrite Hrow. cbn.
  by destruct (decide (jobId ∈ processingJobs w)).
Qed.

(** X21. Cancelling a job releases the guard although a routine of the job
    still holds it, so a retry that follows starts a second routine next to
    the first. For a job that is pending or running while a routine holds the
    guard: after [cancelJob] the guard is free and no routine has been
    added; the [retryJob] that follows resets the row to [PENDING] with
    count 0, takes the guard without the warning of a job already being
    processed, and leaves one more routine waiting. Without the cancel, the
    retry of the pending job resets the row, logs that warning and starts
    nothing. *)
Theorem cancel_then_retry_starts_a_second_routine jobId job w :
  bulkJobs w !! jobId = Some job →
  status job = PENDING ∨ status job = RUNNING →
  jobId ∈ processingJobs w →
  let cancelled :=
    {| setStatus := Some FAILED; setProcessedCount := None;
       setErrorMessage := Some (Some "Job cancelled by user");
       setCompletedAt := Some (Some (clock w)) |} in
  let reset :=
    {| setStatus := Some PENDING; setProcessedCount := Some 0%nat;
       setErrorMessage := Some None; setCompletedAt := Some None |} in
  let w1 := (cancelJob jobId w).2 in
  let w2 := (retryJob jobId w1).2 in
  ((jobId ∉ processingJobs w1) ∧ scheduled w1 = scheduled w) ∧
  (scheduled w2 = (scheduled w ++ [jobId])%list ∧
   jobId ∈ processingJobs w2 ∧
   events w2 = (events w ++ [Update jobId cancelled; Update jobId reset])%list ∧
   ∃ row, ((retryJob jobId w1).1 = Resolved (Some row)) ∧
          (bulkJobs w2 !! jobId = Some row) ∧
          Schema.status row = PENDING ∧ Schema.processedCount row = 0%nat ∧
          Schema.productIds row = Schema.productIds job) ∧
  (status job = PENDING →
   scheduled (retryJob jobId w).2 = scheduled w ∧
   events (retryJob jobId w).2
   = (events w ++ [Update jobId reset;
                   Log WARN "Job already being processed"
                     [("jobId", MStr jobId)]])%list).
Proof.
  intros Hrow Hst Hguard. cbv zeta.
  rewrite (cancelJob_run jobId job w Hrow Hst). cbn [snd].
  set (stopped := Storage.applyUpdates _ _ job).
  set (w1 := withBulkJobs _ _).
  assert (Hrow1 : bulkJobs w1 !! jobId = Some stopped) by apply lookup_insert_eq.
  assert (Hguard1 : jobId ∉ processingJobs w1).
  { subst w1. cbn. intros H. apply elem_of_difference in H as [_ H].
    apply H. by apply elem_of_singleton. }
  rewrite (retryJob_run jobId stopped w1 Hrow1 ltac:(done) Hguard1). cbn [fst snd].
  split; [done|]. split.
  - split; [done|]. split; [cbn; apply elem_of_union_l; by apply elem_of_singleton|].
    split; [subst w1; cbn; by rewrite <- app_assoc|].
    eexists. split; [reflexivity|]. split; [cbn; apply lookup_insert_eq|].
    by repeat split.
  - intros Hpending. unfold retryJob, Storage.getBulkJob. run_M. rewrite Hrow.
    destruct (decide (status job = RUNNING)) as [Hrun | _]; [congruence|].
    unfold Storage.updateBulkJob, processJob. run_M. rewrite Hrow. cbn.
    destruct (decide (jobId ∈ processingJobs w)) as [_ | Hfree]; [|done].
    cbn. split; [done|]. by rewrite <- app_assoc.
Qed.

(** X21 on a job that has just been created: its routine holds the guard
    and waits; after the cancel and the retry two routines wait for the
    job. *)
Lemma cancel_then_retry_starts_a_second_routine_witness :
  let w := (createJob "job-1" (Scenario.request ["gid://1"; "gid://2"])
              (Scenario.installed [])).2 in
  scheduled w = ["job-1"] ∧
  scheduled (retryJob "job-1" (cancelJob "job-1" w).2).2 = ["job-1"; "job-1"] ∧
  scheduled (retryJob "job-1" w).2 = ["job-1"].
Proof.
  cbv zeta.
  destruct (cancel_then_retry_starts_a_second_routine "job-1"
              (Storage.newRow "job-1" (Scenario.request ["gid://1"; "gid://2"]) 0)
              (createJob "job-1" (Scenario.request ["gid://1"; "gid://2"])
                 (Scenario.installed [])).2)
    as (_ & (Hsecond & _) & Hwarned).
  - reflexivity.
  - left. reflexivity.
  - apply (bool_decide_unpack _). vm_compute. exact I.
  - split; [reflexivity|]. split; [exact Hsecond|].
    apply Hwarned. reflexivity.
Defined.

End BulkJobRunFacts.

(** ** The earlier revision of the job processor *)

Module LegacyProcessorFacts.
Import Schema LegacyProcessor BulkJobProcessorFacts.

Section WithService.
Variable createShopifyService : string → string → Service.

(** The loop of the earlier revision: whatever the calls settle to, the
    count moves forward by the size of every batch, and the row of the job
    only progresses. *)
Lemma legacy_batchLoop_run jobId job service fuel :
  legacyCallsOnly service →
  ∀ i n w j,
  bulkJobs w !! jobId = Some j →
  (length (productIds job) ≤ i + fuel)%nat →
  ∃ w' j',
    batchLoop fuel jobId job service i n w
      = ((n + (length (productIds job) - i))%nat, w') ∧
    bulkJobs w' !! jobId = Some j' ∧ progressed j j' ∧
    shopSettings w' = shopSettings w ∧
    processingJobs w' = processingJobs w.
Proof.
  intros Hcalls.
  induction fuel as [|fuel IH]; intros i n w j Hrow Hfuel; cbn [batchLoop].
  - exists w, j. replace (length (productIds job) - i)%nat with 0%nat by lia.
    rewrite Nat.add_0_r. by repeat split.
  - destruct (Nat.ltb_spec i (length (productIds job))) as [Hi | Hge].
    2:{ exists w, j. replace (length (productIds job) - i)%nat with 0%nat by lia.
        rewrite Nat.add_0_r. by repeat split. }
    set (batch := slice i (i + batchSize) (productIds job)).
    assert (Hlen : length batch = (batchSize `min` (length (productIds job) - i))%nat).
    { subst batch. unfold slice. rewrite length_take, length_drop. lia. }
    destruct (service batch (targetVendor job) w) as [r w1] eqn:Hcall.
    pose proof (Hcalls batch (targetVendor job) w) as Hsame.
    rewrite Hcall in Hsame. cbn [snd] in Hsame.
    destruct Hsame as (Hjobs1 & Hset1 & Hguard1 & _).
    assert (Hrow1 : bulkJobs w1 !! jobId = Some j) by (by rewrite Hjobs1).
    assert (Hstep : ∃ w2 j2,
      processBatch jobId job service i n w = ((n + length batch)%nat, w2) ∧
      bulkJobs w2 !! jobId = Some j2 ∧ progressed j j2 ∧
      shopSettings w2 = shopSettings w ∧ processingJobs w2 = processingJobs w).
    { unfold processBatch. fold batch. erewrite bind_run; [|exact Hcall].
      destruct r as [[userErrors|] | error].
      - unfold Storage.updateBulkJob.
        destruct (0 <? length userErrors)%nat,
          (i + batchSize <? length (productIds job))%nat;
          run_M; rewrite Hrow1; cbn;
          (eexists _, _; split; [reflexivity|]; cbn;
           split; [apply lookup_insert_eq|]; by repeat split).
      - run_M. eexists _, _. split; [reflexivity|]. by repeat split.
      - run_M. eexists _, _. split; [reflexivity|]. by repeat split. }
    destruct Hstep as (w2 & j2 & Hbatch & Hrow2 & Hprog2 & Hset2 & Hguard2).
    erewrite bind_run; [|exact Hbatch].
    destruct (IH (i + batchSize)%nat (n + length batch)%nat w2 j2 Hrow2)
      as (w' & j' & Hloop & Hrow' & Hprog & Hset' & Hguard');
      [unfold batchSize; lia|].
    exists w', j'. rewrite Hloop. split.
    + f_equal. rewrite Hlen. unfold batchSize in *. lia.
    + split; [exact Hrow'|].
      split; [by eapply progressed_trans|]. split; congruence.
Qed.

(** X22. In the earlier revision of the processor, which is the file under
    server/services, a run that goes through every batch always ends
    [SUCCESS] with the number of products as processed count, whatever the
    calls of the service settle to, a rejection of every batch included; it
    writes no error message. *)
Theorem earlier_revision_always_succeeds jobId job settings token w :
  bulkJobs w !! jobId = Some job →
  shopSettings w !! shopDomain job = Some settings →
  or_else (accessToken settings) None = Some token →
  legacyCallsOnly (createShopifyService (shopDomain job) token) →
  ∃ w' final,
    processJobBody createShopifyService jobId w = (tt, w') ∧
    bulkJobs w' !! jobId = Some final ∧
    status final = SUCCESS ∧
    Schema.processedCount final = length (productIds job) ∧
    errorMessage final = errorMessage job ∧
    processingJobs w' = processingJobs w ∖ {[jobId]}.
Proof.
  intros Hrow Hset Htok Hcalls.
  unfold processJobBody, Storage.getBulkJob, Storage.getShopSettings,
    Storage.updateBulkJob.
  run_M. rewrite Hrow. cbn. rewrite Hrow. cbn. rewrite Hset. cbn [mbind option_bind].
  rewrite Htok.
  set (wr := withBulkJobs _ _).
  destruct (legacy_batchLoop_run jobId job _ (length (productIds job)) Hcalls 0 0%nat wr _
              (lookup_insert_eq _ _ _)) as (w2 & j2 & Hloop & Hrow2 & Hprog & _ & Hguard);
    [lia|].
  rewrite Hloop. unfold completeJob, Storage.updateBulkJob, BulkJobProcessor.releaseGuard.
  run_M. rewrite Hrow2. cbn.
  destruct Hprog as (_ & _ & _ & _ & _ & Hmsg & _).
  eexists _, _. split; [reflexivity|]. cbn. rewrite lookup_insert_eq.
  split; [reflexivity|]. split; [reflexivity|]. split; [cbn; lia|].
  split; [exact Hmsg | by rewrite Hguard].
Qed.

End WithService.

(** X22 on a job of three products whose only batch is rejected. *)
Lemma earlier_revision_always_succeeds_witness :
  ∃ w' final,
    processJobBody (λ _ _, Scenario.failingService) "job-1"
      (Scenario.ready (Scenario.products 3) []) = (tt, w') ∧
    bulkJobs w' !! "job-1" = Some final ∧
    status final = SUCCESS ∧ Schema.processedCount final = 3%nat.
Proof.
  destruct (earlier_revision_always_succeeds (λ _ _, Scenario.failingService)
              "job-1" (Scenario.jobOf (Scenario.products 3))
              {| accessToken := Some "shpat_1" |} "shpat_1"
              (Scenario.ready (Scenario.products 3) [])
              eq_refl eq_refl eq_refl)
    as (w' & final & Hrun & Hrow & Hst & Hpc & _).
  { intros productIds vendor w. by repeat split. }
  exists w', final. by repeat split.
Defined.

End LegacyProcessorFacts.

(** ** Reading the catalogue *)

Module ShopifyCatalogFacts.
Import ShopifyCatalog.

Lemma lexLeb_total xs : ∀ ys, lexLeb xs ys = true ∨ lexLeb ys xs = true.
Proof.
  induction xs as [|x xs IH]; intros [|y ys]; cbn; auto.
  destruct (N.ltb_spec x y), (N.ltb_spec y x); auto.
Qed.

#[local] Instance codeUnitLe_total : Total codeUnitLe.
Proof. intros a b. apply lexLeb_total. Qed.

(** The order is that of the code units, not of the bytes: U+1F600 comes
    before U+FF5E, as its first surrogate is below 0xFF5E, though its first
    byte is the larger one. *)
Example code_units_not_bytes :
  codeUnits Examples.grinningFace = [55357; 56832]%N ∧
  codeUnits Examples.fullwidthTilde = [65374]%N ∧
  (Examples.grinningFace <=? Examples.fullwidthTilde)%string = false ∧
  sortStrings [Examples.fullwidthTilde; Examples.grinningFace; "Acme"]
  = ["Acme"; Examples.grinningFace; Examples.fullwidthTilde].
Proof. repeat split; vm_compute; reflexivity. Qed.

Lemma setAdd_spec v vendors :
  NoDup vendors →
  NoDup (setAdd v vendors) ∧ ∀ x, x ∈ setAdd v vendors ↔ x ∈ vendors ∨ x = v.
Proof.
  intros Hnd. unfold setAdd. case_decide as Hin.
  - split; [done|]. intros x. split; [by left|]. by intros [? | ->].
  - split.
    + apply NoDup_app. split; [done|]. split; [|apply NoDup_singleton].
      intros x Hx Hx'. apply list_elem_of_singleton in Hx'. by subst.
    + intros x. rewrite elem_of_app, list_elem_of_singleton. done.
Qed.

Lemma addVendors_spec edges : ∀ vendors,
  NoDup vendors →
  NoDup (addVendors edges vendors) ∧
  ∀ x, x ∈ addVendors edges vendors
       ↔ x ∈ vendors ∨ (x ≠ "" ∧ x ∈ map (λ edge, vendor (node edge)) edges).
Proof.
  unfold addVendors.
  induction edges as [|edge edges IH]; intros vendors Hnd; cbn [foldl map].
  - split; [done|]. intros x. split; [by left|].
    intros [? | [_ Hx]]; [done|]. by apply elem_of_nil in Hx.
  - destruct (String.eqb_spec (vendor (node edge)) "") as [Hempty | Hfull].
    + destruct (IH vendors Hnd) as [Hnd' Hin]. split; [done|].
      intros x. rewrite Hin, elem_of_cons. split.
      * intros [? | [? ?]]; [by left | right; by auto].
      * intros [? | [Hx [-> | ?]]]; [by left | by rewrite Hempty in Hx | by right].
    + destruct (setAdd_spec (vendor (node edge)) vendors Hnd) as [Hnd1 Hin1].
      destruct (IH _ Hnd1) as [Hnd' Hin]. split; [done|].
      intros x. rewrite Hin, Hin1, elem_of_cons. split.
      * intros [[? | ->] | [? ?]]; [by left | right; by auto | right; by auto].
      * intros [? | [Hx [-> | ?]]]; [left; by left | left; by right | by right].
Qed.

Section WithRemote.
Variable getProducts :
  nat → nat → option string → option string → Outcome ShopifyProductsResponse.

Lemma vendorsLoop_spec fuel : ∀ n cursor vendors,
  NoDup vendors →
  let pages := pagesRead getProducts fuel n cursor in
  match vendorsLoop getProducts fuel n cursor vendors with
  | Some (Resolved sorted) =>
      Sorted codeUnitLe sorted ∧ NoDup sorted ∧
      (∀ x, x ∈ sorted ↔ x ∈ vendors ∨ (x ≠ "" ∧ x ∈ vendorsOn pages)) ∧
      (1 ≤ length pages ≤ fuel)%nat ∧
      (hasNextPage ∘ pageInfo <$> last pages) = Some false
  | Some (Thrown e) =>
      (length pages < fuel)%nat ∧
      ∃ after,
        getProducts (n + length pages)%nat 250 after None = Thrown e ∨
        ∃ response,
          getProducts (n + length pages)%nat 250 after None = Resolved response ∧
          products response = None
  | None =>
      length pages = fuel ∧ Forall (λ page, hasNextPage (pageInfo page) = true) pages
  end.
Proof.
  induction fuel as [|fuel IH]; intros n cursor vendors Hnd;
    cbn [vendorsLoop pagesRead]; cbv zeta.
  - by split.
  - destruct (getProducts n 250 cursor None) as [response | e] eqn:Hcall.
    2:{ cbn [length]. split; [lia|]. exists cursor. left.
        by rewrite Nat.add_0_r. }
    destruct (products response) as [page|] eqn:Hpage.
    2:{ cbn [length]. split; [lia|]. exists cursor. right. exists response.
        by rewrite Nat.add_0_r. }
    destruct (addVendors_spec (edges page) vendors Hnd) as [Hnd' Hin'].
    destruct (hasNextPage (pageInfo page)) eqn:Hnext.
    + specialize (IH (S n) (endCursor (pageInfo page)) (addVendors (edges page) vendors) Hnd').
      cbv zeta in IH.
      set (pages := pagesRead getProducts fuel (S n) (endCursor (pageInfo page))) in *.
      destruct (vendorsLoop getProducts fuel (S n) (endCursor (pageInfo page)) _)
        as [[sorted | e]|].
      * destruct IH as (Hsorted & Hnd'' & Hin & Hlen & Hlast).
        split; [done|]. split; [done|]. split; [|split].
        -- intros x. rewrite Hin, Hin'. unfold vendorsOn. cbn [mbind list_bind].
           rewrite elem_of_app. fold (vendorsOn pages). tauto.
        -- cbn [length]. lia.
        -- destruct pages as [|page' pages']; [cbn in Hlen; lia|]. exact Hlast.
      * destruct IH as (Hlen & after & Hwhy). cbn [length]. split; [lia|].
        exists after. by rewrite <- Nat.add_succ_comm.
      * destruct IH as (Hlen & Hall). cbn [length]. split; [lia|].
        by constructor.
    + split; [apply Sorted_merge_sort, _|].
      assert (Hperm : sortStrings (addVendors (edges page) vendors)
                      ≡ₚ addVendors (edges page) vendors)
        by apply merge_sort_Permutation.
      split; [by rewrite Hperm|]. split; [|split].
      * intros x. rewrite Hperm, Hin'. unfold vendorsOn. cbn [mbind list_bind].
        rewrite app_nil_r. done.
      * cbn [length]. lia.
      * cbn. by rewrite Hnext.
Qed.

(** X23. What [getAllVendors] settles to, for any behaviour of
    [getProducts]. When it resolves, the list is sorted by code units, has
    no duplicate and no empty name, and holds exactly the non-empty vendor
    names found on the pages read, the last of which is the first page that
    reports no next page. When it rejects, it is because the call that follows the pages
    read was rejected or came back without [products]; the vendors already
    collected are lost. The loop is still going on after [fuel] iterations
    only if each of the [fuel] pages it has read reports a next page. *)
Theorem getAllVendors_result fuel :
  let pages := pagesRead getProducts fuel 0 None in
  match getAllVendors getProducts fuel with
  | Some (Resolved vendors) =>
      Sorted codeUnitLe vendors ∧ NoDup vendors ∧
      (∀ x, x ∈ vendors ↔ x ≠ "" ∧ x ∈ vendorsOn pages) ∧
      (hasNextPage ∘ pageInfo <$> last pages) = Some false
  | Some (Thrown e) =>
      ∃ after,
        getProducts (length pages) 250 after None = Thrown e ∨
        ∃ response,
          getProducts (length pages) 250 after None = Resolved response ∧
          products response = None
  | None =>
      length pages = fuel ∧ Forall (λ page, hasNextPage (pageInfo page) = true) pages
  end.
Proof.
  pose proof (vendorsLoop_spec fuel 0 None [] NoDup_nil_2) as H.
  cbv zeta in *. unfold getAllVendors.
  destruct (vendorsLoop getProducts fuel 0 None []) as [[vendors | e]|].
  - destruct H as (Hsorted & Hnd & Hin & _ & Hlast).
    split; [done|]. split; [done|]. split; [|done].
    intros x. rewrite Hin. split; [|by right].
    intros [Hx | ?]; [by apply elem_of_nil in Hx | done].
  - destruct H as (_ & after & H). exists after. exact H.
  - exact H.
Qed.

(** X24. [getAllVendors] has no limit on the number of pages: as long as
    the remote service reports a next page the loop goes on, so with a
    service that always does it never ends, however many iterations are
    allowed. *)
Theorem getAllVendors_has_no_page_limit :
  (∀ n after, ∃ page,
     getProducts n 250 after None = Resolved {| products := Some page |} ∧
     hasNextPage (pageInfo page) = true) →
  ∀ fuel, getAllVendors getProducts fuel = None.
Proof.
  intros Hmore fuel. unfold getAllVendors.
  generalize 0%nat (@None string) (@nil string).
  induction fuel as [|fuel IH]; intros n cursor vendors; cbn [vendorsLoop]; [done|].
  destruct (Hmore n cursor) as (page & -> & Hnext). cbn [products].
  rewrite Hnext. apply IH.
Qed.

End WithRemote.

(** X24 on a service whose every page is empty and reports a next page. *)
Lemma getAllVendors_has_no_page_limit_witness :
  getAllVendors Examples.endless 1000 = None.
Proof.
  apply (getAllVendors_has_no_page_limit Examples.endless).
  intros n after. by eexists.
Defined.

End ShopifyCatalogFacts.

(** ** The CSV export *)

Module CSVExportFacts.
Import ShopifyCatalog CSVExportService.

Lemma escapeQuotes_inj s : ∀ t, escapeQuotes s = escapeQuotes t → s = t.
Proof.
  induction s as [|a s IH]; intros [|b t]; cbn [escapeQuotes].
  - done.
  - by destruct (Ascii.eqb b dquote).
  - by destruct (Ascii.eqb a dquote).
  - destruct (Ascii.eqb_spec a dquote) as [-> | Ha],
      (Ascii.eqb_spec b dquote) as [-> | Hb].
    + intros [= H]. by rewrite (IH t H).
    + intros [= <- _]. done.
    + intros [= -> _]. done.
    + intros [= -> H]. by rewrite (IH t H).
Qed.

Lemma length_append (s t : string) :
  String.length (s ++ t) = (String.length s + String.length t)%nat.
Proof.
  induction s as [|a s IH]; [done|].
  change (S (String.length (s ++ t)) = S (String.length s + String.length t)).
  by rewrite IH.
Qed.

Lemma append_inj_r (s t u : string) : s ++ u = t ++ u → s = t.
Proof.
  intros H.
  assert (Hl : String.length s = String.length t).
  { apply (f_equal String.length) in H. rewrite !length_append in H. lia. }
  revert t H Hl. induction s as [|a s IH]; intros [|b t] H Hl;
    try discriminate Hl; [done|].
  change (String a (s ++ u) = String b (t ++ u)) in H.
  injection H as -> H. f_equal. apply IH; [done|]. cbn in Hl. lia.
Qed.

(** X25. The quoting of the title, vendor and product type columns loses
    nothing: two texts are quoted to the same field only if they are the
    same text. *)
Theorem quoted_fields_are_distinct s t : quoted s = quoted t ↔ s = t.
Proof.
  split; [|by intros ->].
  unfold quoted. intros [= H].
  apply append_inj_r in H. by apply escapeQuotes_inj.
Qed.

(** X26. The sample products that stand in for the catalogue are always
    five: when a vendor is asked for, every one of them is given that
    vendor, so that the filter on the vendor keeps them all. *)
Theorem mock_products_are_always_five vendor :
  map id (generateMockProducts vendor)
    = ["gid://shopify/Product/1001"; "gid://shopify/Product/1002";
       "gid://shopify/Product/1003"; "gid://shopify/Product/1004";
       "gid://shopify/Product/1005"] ∧
  ∀ v, vendor = Some v → v ≠ "" →
    Forall (λ product, ShopifyCatalog.vendor product = v)
      (generateMockProducts vendor).
Proof.
  unfold generateMockProducts, mockProducts, vendorOr.
  destruct vendor as [v|]; cbn [or_else]; [|split; [done | by intros v [=]]].
  destruct (String.eqb_spec v "") as [-> | Hv]; cbn [default].
  - split; [done|]. by intros v [= <-].
  - cbn. rewrite !String.eqb_refl. split; [done|].
    intros v' [= <-] _. by repeat constructor.
Qed.

(** X26 when the vendor asked for is Acme. *)
Lemma mock_products_are_always_five_witness :
  length (generateMockProducts (Some "Acme")) = 5%nat ∧
  Forall (λ product, ShopifyCatalog.vendor product = "Acme")
    (generateMockProducts (Some "Acme")).
Proof.
  destruct (mock_products_are_always_five (Some "Acme")) as [Hids Hall].
  split.
  - apply (f_equal length) in Hids. by rewrite length_map in Hids.
  - by apply Hall.
Defined.

End CSVExportFacts.
